(** * nFit: the numeric pipeline of [examples/animate-nfit.py]

    A shallow embedding of the capacity-estimation pipeline of the script
    (profile-name decoding, exponential smoothing per profile, percentile
    extraction, per-day aggregation, least-squares trend) and the proofs of
    the properties its specification states, followed by the schedule of
    the animation that shows the pipeline (which frame draws what, on which
    plot line) and further properties of both.

    Conventions of the embedding.
    - A Python [float] is an exact rational ([Qc], canonical fractions, so
      that equality is Leibniz equality) or NaN: [float := option Qc] with
      [None] for NaN.  Rounding is not modelled.
    - A [pandas.Series] is the list of its values; the index is positional.
    - A Python exception is a [Raise] in the [result] monad.
    - A [dict] keyed by profile name is a [gmap string _]: the script only
      looks names up, tests membership and takes [len] of its dicts.
    - A [str] is a [string] of 8-bit characters, so [\d] is [0-9]; [int] of
      a digit string is exact (the interpreter's limit on the number of
      digits [int] accepts is not modelled).
    - What the script draws on matplotlib artists is left out; of the
      artists only the list of plot lines is kept, each line as the label
      and the colour index it was created with. *)

From Stdlib Require Import QArith Qcanon Qround ZArith List Ascii String Lia.
From stdpp Require Import base option list gmap strings numbers sorting.

Local Open Scope Z_scope.

(** ** Exceptions and results *)

Inductive exn : Type :=
| ValueError   (* a library argument check failed *)
| IndexError   (* an empty array was indexed *)
| TypeError    (* vectors of different lengths, or empty ones *)
| LinAlgError  (* the least-squares solver did not converge *)
| KeyError.    (* a dict has no such key *)

Inductive result (A : Type) : Type :=
| Ok (a : A)
| Raise (e : exn).

Arguments Ok {A} a.
Arguments Raise {A} e.

#[global] Instance result_ret : MRet result := fun A a => Ok a.

#[global] Instance result_bind : MBind result := fun A B k r =>
  match r with
  | Ok a => k a
  | Raise e => Raise e
  end.

#[global] Instance result_fmap : FMap result := fun A B f r =>
  match r with
  | Ok a => Ok (f a)
  | Raise e => Raise e
  end.

#[global] Instance exn_eq_dec : EqDecision exn.
Proof. solve_decision. Defined.

#[global] Instance result_eq_dec {A : Type} `{EqDecision A} : EqDecision (result A).
Proof. solve_decision. Defined.

(** Closed equations between computed values: decided by evaluation. *)
Ltac by_evaluation := refine (bool_decide_unpack _ _); vm_compute; exact I.

(** ** Regular expressions of the script

    The script uses four patterns: [-(\d+)W], [P(\d+)], [W(\d+)] and [\d+].
    Each is a sequence of literal characters and one greedy [\d+], which is
    also the only group; [re.search] returns the leftmost match and, at
    that position, the first one the backtracking matcher finds. *)

Module Re.

Inductive atom : Type :=
| Lit (c : ascii)
| Digits.

Definition pattern := list atom.

Definition is_digit (c : ascii) : bool :=
  let n := N_of_ascii c in ((48 <=? n) && (n <=? 57))%N.

Fixpoint digit_run (s : list ascii) : list ascii :=
  match s with
  | c :: s' => if is_digit c then c :: digit_run s' else []
  | [] => []
  end.

(** [backtrack k s n]: give [\d+] the first [n] characters of [s], then
    [n - 1], ... down to one, until the rest of the pattern [k] matches. *)
Fixpoint backtrack (k : list ascii -> option (list ascii * list ascii))
    (s : list ascii) (n : nat) : option (list ascii * list ascii) :=
  match n with
  | O => None
  | S n' =>
      match k (drop n s) with
      | Some (_, rest) => Some (take n s, rest)
      | None => backtrack k s n'
      end
  end.

(** [match_here p s]: match [p] at the start of [s]; the result is the
    text of the group and the input left after the match. *)
Fixpoint match_here (p : pattern) (s : list ascii)
    : option (list ascii * list ascii) :=
  match p with
  | [] => Some ([], s)
  | Lit c :: p' =>
      match s with
      | x :: s' => if Ascii.eqb x c then match_here p' s' else None
      | [] => None
      end
  | Digits :: p' => backtrack (match_here p') s (length (digit_run s))
  end.

(** [re.search(p, s)]: the group of the leftmost match. *)
Fixpoint search (p : pattern) (s : list ascii) : option (list ascii) :=
  match match_here p s with
  | Some (g, _) => Some g
  | None =>
      match s with
      | [] => None
      | _ :: s' => search p s'
      end
  end.

(** [re.findall(p, s)]: the groups of the non-overlapping matches, left to
    right.  After a match the scan resumes where the match ended (one
    character further when the match was empty). *)
Fixpoint findall_from (fuel : nat) (p : pattern) (s : list ascii)
    : list (list ascii) :=
  match fuel with
  | O => []
  | S fuel' =>
      match match_here p s with
      | Some (g, rest) =>
          g :: (if (length rest <? length s)%nat
                then findall_from fuel' p rest
                else match s with
                     | [] => []
                     | _ :: s' => findall_from fuel' p s'
                     end)
      | None =>
          match s with
          | [] => []
          | _ :: s' => findall_from fuel' p s'
          end
      end
  end.

Definition findall (p : pattern) (s : list ascii) : list (list ascii) :=
  findall_from (S (length s)) p s.

(** [int(ds)] for a string of decimal digits. *)
Definition digit_val (c : ascii) : Z := Z.of_N (N_of_ascii c) - 48.

Definition int (ds : list ascii) : Z :=
  fold_left (fun acc c => 10 * acc + digit_val c) ds 0.

Definition hyphen_digits_W : pattern := [Lit "-"; Digits; Lit "W"].
Definition P_digits : pattern := [Lit "P"; Digits].
Definition W_digits : pattern := [Lit "W"; Digits].
Definition digits : pattern := [Digits].

End Re.

(** ** Profile descriptors (lines 63-81) *)

Definition in_range (lo hi v : Z) : bool := (lo <=? v) && (v <=? hi).

Definition get_percentile_from_name (profile_name : string) : Z :=
  let s := list_ascii_of_string profile_name in
  let scan :=
    let numbers := Re.findall Re.digits s in
    match find (in_range 70 100) (map Re.int (reverse numbers)) with
    | Some num => num
    | None => 90
    end in
  match Re.search Re.hyphen_digits_W s with
  | Some g => Re.int g
  | None =>
      match Re.search Re.P_digits s with
      | Some g => let val := Re.int g in
                  if in_range 0 100 val then val else scan
      | None => scan
      end
  end.

Definition get_w_value_from_name (profile_name : string) : Z :=
  match Re.search Re.W_digits (list_ascii_of_string profile_name) with
  | Some g => Z.max 1 (Re.int g)
  | None => 1
  end.

Record descriptor : Type := Descriptor { percentile : Z; span : Z }.

Definition ProfileDescriptor (name : string) : descriptor :=
  {| percentile := get_percentile_from_name name;
     span := get_w_value_from_name name |}.

(** *** The decoding rules as the script applies them

    A direct left-to-right reading of the name, without a matcher.  Each
    pattern is looked for once, as [re.search] does: rule 2 reads the
    first place where digits follow a P and tests the value found there;
    a later such place is not tried. *)

Module Rules.

Definition all_digits (ds : list ascii) : Prop :=
  Forall (fun c => Re.is_digit c = true) ds.

(** Split a string into its leading digits and what follows them. *)
Fixpoint leading_digits (s : list ascii) : list ascii * list ascii :=
  match s with
  | c :: s' =>
      if Re.is_digit c
      then let '(ds, rest) := leading_digits s' in (c :: ds, rest)
      else ([], s)
  | [] => ([], [])
  end.

(** "a hyphen, then digits, then the letter W": the digits of the first
    such place. *)
Fixpoint hyphen_digits_W (s : list ascii) : option (list ascii) :=
  match s with
  | [] => None
  | c :: s' =>
      if Ascii.eqb c "-" then
        match leading_digits s' with
        | (d :: ds, w :: _) =>
            if Ascii.eqb w "W" then Some (d :: ds) else hyphen_digits_W s'
        | _ => hyphen_digits_W s'
        end
      else hyphen_digits_W s'
  end.

(** The digits after the first [P] (or [W]) that digits follow. *)
Fixpoint letter_digits (l : ascii) (s : list ascii) : option (list ascii) :=
  match s with
  | [] => None
  | c :: s' =>
      if Ascii.eqb c l then
        match leading_digits s' with
        | (d :: ds, _) => Some (d :: ds)
        | _ => letter_digits l s'
        end
      else letter_digits l s'
  end.

(** "all digit runs in the name", first to last; [cur] holds the digits of
    the run being read, most recent first. *)
Fixpoint digit_runs_from (cur : list ascii) (s : list ascii)
    : list (list ascii) :=
  match s with
  | [] => match cur with [] => [] | _ => [reverse cur] end
  | c :: s' =>
      if Re.is_digit c then digit_runs_from (c :: cur) s'
      else match cur with
           | [] => digit_runs_from [] s'
           | _ => reverse cur :: digit_runs_from [] s'
           end
  end.

Definition digit_runs (s : list ascii) : list (list ascii) :=
  digit_runs_from [] s.

Definition percentile_of (s : list ascii) : Z :=
  match hyphen_digits_W s with
  | Some ds => Re.int ds                                   (* rule 1 *)
  | None =>
      let rule34 :=
        match find (in_range 70 100)
                   (reverse (map Re.int (digit_runs s))) with
        | Some v => v                                      (* rule 3 *)
        | None => 90                                       (* rule 4 *)
        end in
      match letter_digits "P" s with
      | Some ds =>
          if in_range 0 100 (Re.int ds) then Re.int ds     (* rule 2 *)
          else rule34
      | None => rule34
      end
  end.

Definition span_of (s : list ascii) : Z :=
  match letter_digits "W" s with
  | Some ds => Z.max 1 (Re.int ds)
  | None => 1
  end.

Definition decode (name : string) : descriptor :=
  let s := list_ascii_of_string name in
  {| percentile := percentile_of s; span := span_of s |}.

End Rules.

(** *** The decoding rules as the specification words them (section 4.1)

    "1. If the name contains a pattern [-<digits>W] ... the digits
    preceding the [W]-prefixed number are the percentile.  2. Else if the
    name contains [P<digits>] where the digit value is between 0 and 100
    inclusive, that value is the percentile.  3. Else scan all digit runs
    in the name from last to first; the first one whose value lies in
    [70,100] is used as the percentile.  4. Else default percentile = 90.
    Span decoding: if the name contains [W<digits>], the digits are the
    span, floored at 1; else span = 1."

    Rule 2 asks for a [P<digits>] of the name whose value is in range:
    every place where digits follow a P is a candidate, and the first one
    in range is taken. *)

Module Stated.

(** The digits at every place of the name where digits follow the letter,
    first place first. *)
Fixpoint letter_digits_places (l : ascii) (s : list ascii)
    : list (list ascii) :=
  match s with
  | [] => []
  | c :: s' =>
      if Ascii.eqb c l then
        match Rules.leading_digits s' with
        | (d :: ds, _) => (d :: ds) :: letter_digits_places l s'
        | _ => letter_digits_places l s'
        end
      else letter_digits_places l s'
  end.

Definition percentile_of (s : list ascii) : Z :=
  match Rules.hyphen_digits_W s with
  | Some ds => Re.int ds                                   (* rule 1 *)
  | None =>
      match find (in_range 0 100)
                 (map Re.int (letter_digits_places "P" s)) with
      | Some v => v                                        (* rule 2 *)
      | None =>
          match find (in_range 70 100)
                     (reverse (map Re.int (Rules.digit_runs s))) with
          | Some v => v                                    (* rule 3 *)
          | None => 90                                     (* rule 4 *)
          end
      end
  end.

Definition span_of (s : list ascii) : Z :=
  match letter_digits_places "W" s with
  | ds :: _ => Z.max 1 (Re.int ds)
  | [] => 1
  end.

Definition decode (name : string) : descriptor :=
  let s := list_ascii_of_string name in
  {| percentile := percentile_of s; span := span_of s |}.

End Stated.

(** The numbers of a name fit a machine word: no run of digits in it is
    longer than 18 digits.  (The interpreter refuses to read a number of
    more than 4300 digits, and a span above the largest [float] cannot be
    smoothed with; the embedding reads every number exactly.) *)
Definition short_digit_runs (name : string) : Prop :=
  Forall (fun run => (length run <= 18)%nat)
         (Re.findall Re.digits (list_ascii_of_string name)).

(** ** Numbers and series *)

Local Open Scope Qc_scope.

Abbreviation float := (option Qc).
Abbreviation series := (list float).

Definition Qc_of_nat (n : nat) : Qc := Qc_of_Z (Z.of_nat n).

Definition sum (l : list Qc) : Qc := foldr Qcplus 0 l.

Definition Qc_min (a b : Qc) : Qc := if decide (a ≤ b) then a else b.
Definition Qc_max (a b : Qc) : Qc := if decide (a ≤ b) then b else a.

(** [min(x)] and [max(x)] of a non-empty sequence. *)
Definition minimum (x : list Qc) : Qc :=
  match x with
  | [] => 0
  | a :: l => foldr Qc_min a l
  end.

Definition maximum (x : list Qc) : Qc :=
  match x with
  | [] => 0
  | a :: l => foldr Qc_max a l
  end.

(** [Series.dropna()] and [Series.empty]. *)
Definition dropna (x : series) : list Qc := omap id x.

Definition empty {A : Type} (x : list A) : bool :=
  match x with [] => true | _ => false end.

(** ** Exponentially weighted mean *)

Module Ewm.

(** Modelled from the spec: [Series.ewm(..., adjust=False,
    ignore_na=True).mean()] is pandas code, which is not under src/.
    Section 4.2: [y[0] = x[0]]; for [t > 0],
    [y[t] = alpha * x[t] + (1 - alpha) * y[t-1]] when [x[t]] is defined, and
    [y[t] = y[t-1]] when it is not.  While no sample has been seen (leading
    undefined values, on which section 4.2 says nothing) the output is
    undefined and the first defined sample starts the recurrence, as the
    forward pass of pandas has it.  [weighted] is the running mean. *)
Definition step (alpha : Qc) (weighted cur : float) : float :=
  match weighted, cur with
  | Some w, Some x => Some (alpha * x + (1 - alpha) * w)
  | Some w, None => Some w
  | None, _ => cur
  end.

Fixpoint pass (alpha : Qc) (weighted : float) (x : series) : series :=
  match x with
  | [] => []
  | cur :: x' =>
      let weighted' := step alpha weighted cur in
      weighted' :: pass alpha weighted' x'
  end.

Definition mean (alpha : Qc) (x : series) : series :=
  match x with
  | [] => []
  | x0 :: x' => x0 :: pass alpha x0 x'
  end.

(** The running mean after the samples of [x]. *)
Definition after (alpha : Qc) (weighted : float) (x : series) : float :=
  fold_left (step alpha) x weighted.

(** Modelled from the spec: the argument checks of [Series.ewm] (pandas,
    not under src/).  Section 3 has [alpha] in (0,1] and section 4.2 the
    conversion [alpha = 2/(span+1)] of a span, which is at least 1; pandas
    refuses other values with a [ValueError] and works from the centre of
    mass [com], with [alpha = 1/(1+com)]. *)
Definition com_of_alpha (alpha : Qc) : result Qc :=
  if bool_decide (0 < alpha ∧ alpha ≤ 1)
  then Ok ((1 - alpha) / alpha)
  else Raise ValueError.

Definition com_of_span (span : Qc) : result Qc :=
  if bool_decide (1 ≤ span)
  then Ok ((span - 1) / 2)
  else Raise ValueError.

Definition mean_of_com (com : Qc) (x : series) : series :=
  mean (1 / (1 + com)) x.

End Ewm.

(** [x.ewm(alpha=alpha, adjust=False, ignore_na=True).mean()] *)
Definition ewm_alpha (x : series) (alpha : Qc) : result series :=
  com ← Ewm.com_of_alpha alpha; Ok (Ewm.mean_of_com com x).

(** [x.ewm(span=span, adjust=False, ignore_na=True).mean()] *)
Definition ewm_span (x : series) (span : Qc) : result series :=
  com ← Ewm.com_of_span span; Ok (Ewm.mean_of_com com x).

(** ** Percentiles *)

Module Percentile.

(** Modelled from the spec: [numpy.percentile] is numpy code, which is not
    under src/.  Section 4.3: "the interpolated value at rank [p] using
    linear interpolation between the two bracketing order statistics of
    the sorted sequence".  For [n] sorted values the rank of [q] is
    [h = (n-1) * q / 100]; the order statistics around it are those at
    [floor h] and at the next index, the last one at most. *)
Definition linear (sorted : list Qc) (q : Qc) : Qc :=
  let n := length sorted in
  let h := Qc_of_nat (n - 1) * q / Qc_of_Z 100 in
  let lo := Z.to_nat (Qfloor h) in
  let hi := Nat.min (lo + 1) (n - 1) in
  let gamma := h - Qc_of_nat lo in
  let a := nth lo sorted 0 in
  let b := nth hi sorted 0 in
  a + gamma * (b - a).

Definition of_values (x : list Qc) (q : Qc) : Qc :=
  linear (merge_sort Qcle x) q.

(** An undefined value among the data makes the percentile undefined. *)
Definition of_data (a : series) (q : Qc) : float :=
  match mapM id a with
  | Some x => Some (of_values x q)
  | None => None
  end.

End Percentile.

(** Modelled from the spec: the failures of [numpy.percentile] (numpy, not
    under src/).  Section 3: the "percentile argument is always in
    [0,100]" (numpy refuses others with a [ValueError]) and "percentile
    computation over an empty sequence is undefined and must fail"
    (section 4.3: "Fails when the sequence has zero elements"). *)
Definition np_percentile (a : series) (q : Qc) : result float :=
  if bool_decide (0 ≤ q ∧ q ≤ Qc_of_Z 100) then
    match a with
    | [] => Raise IndexError
    | _ => Ok (Percentile.of_data a q)
    end
  else Raise ValueError.

(** ** Least-squares line *)

Module Fit.

Definition dot (x y : list Qc) : Qc := sum (zip_with Qcmult x y).

Definition mean (x : list Qc) : Qc := sum x / Qc_of_nat (length x).

Definition cov (x y : list Qc) : Qc :=
  let mx := mean x in
  let my := mean y in
  sum (zip_with (fun a b => (a - mx) * (b - my)) x y) / Qc_of_nat (length x).

Definition var (x : list Qc) : Qc := cov x x.

(** Sum of the squared residuals of the line [a * t + b]. *)
Definition sse (x y : list Qc) (a b : Qc) : Qc :=
  sum (zip_with (fun t v => (v - (a * t + b)) * (v - (a * t + b))) x y).

(** Modelled from the spec: [numpy.polyfit(x, y, 1)] is numpy code, which
    is not under src/.  Section 4.5: an "ordinary least-squares line fit"
    by "the standard closed-form least-squares solution (equivalent to
    degree-1 polynomial fit)".  The line is the solution of the normal
    equations of the Vandermonde system
    [[sum t^2, sum t], [sum t, m]] (a, b) = (sum t*v, sum v),
    here by Cramer's rule. *)
Definition normal_equations (x y : list Qc) : option (Qc * Qc) :=
  let m := Qc_of_nat (length x) in
  let st := sum x in
  let sv := sum y in
  let stt := dot x x in
  let stv := dot x y in
  let det := m * stt - st * st in
  if bool_decide (det = 0) then None
  else Some ((m * stv - st * sv) / det, (stt * sv - st * stv) / det).

End Fit.

(** Modelled from the spec: the failures of [numpy.polyfit] (numpy, not
    under src/): vectors of different lengths or empty ones are refused,
    and the solver does not converge on undefined data.  Where the normal
    equations have no unique solution (all [x] equal) numpy answers with a
    minimum-norm solution and a warning; the script never gets there
    ([daily_time_points] are distinct) and the model stops with an
    error. *)
Definition np_polyfit1 (x : list Qc) (y : series) : result (Qc * Qc) :=
  if bool_decide (length x ≠ length y) then Raise TypeError
  else if empty x then Raise TypeError
  else
    match mapM id y with
    | None => Raise LinAlgError
    | Some v =>
        match Fit.normal_equations x v with
        | Some line => Ok line
        | None => Raise LinAlgError
        end
    end.

(** ** The script *)

(** [s[start:stop]] for positions within the series. *)
Definition slice {A : Type} (s : list A) (start stop : nat) : list A :=
  take (stop - start) (drop start s).

(** Truth value of a [str]: the empty string is false. *)
Definition truthy (name : string) : bool :=
  match name with
  | EmptyString => false
  | String _ _ => true
  end.

(** The samples of a day (section 4.4): the positions
    [[day * k, min ((day + 1) * k, n))] of a series of length [n]. *)
Definition bucket (s : series) (k day : nat) : series :=
  slice s (day * k) (Nat.min ((day + 1) * k) (length s)).

Section Script.

(** The globals of the script: the raw series (lines 12-31), the
    configured alphas and the ordered profile names (lines 35-48), the
    number of days and of samples per day (lines 14-15). *)
Variable s_raw_cpu : series.
Variable USER_DEFINED_ALPHAS : gmap string Qc.
Variable active_profile_names_ordered : list string.
Variable num_days : nat.
Variable points_per_day : nat.

(** Lines 50-56: one primary EMA per configured name, an empty series for
    a name without alpha. *)
Fixpoint profile_emas_loop (names : list string)
    (data : gmap string series) : result (gmap string series) :=
  match names with
  | [] => Ok data
  | name :: names' =>
      match USER_DEFINED_ALPHAS !! name with
      | Some alpha =>
          ema ← ewm_alpha s_raw_cpu alpha;
          profile_emas_loop names' (<[name := ema]> data)
      | None => profile_emas_loop names' (<[name := []]> data)
      end
  end.

Definition profile_emas_data : result (gmap string series) :=
  profile_emas_loop active_profile_names_ordered ∅.

(** Line 59: the profiles with a non-empty EMA. *)
Definition active_profile_emas_of (data : gmap string series)
    : gmap string series :=
  filter (fun kv => kv.2 ≠ []) data.

Section Active.

Variable active_profile_emas : gmap string series.

Definition is_active (name : string) : bool :=
  bool_decide (is_Some (active_profile_emas !! name)).

(** Line 60. *)
Definition num_active_profiles : nat := size active_profile_emas.

(** Lines 136-140. *)
Definition last_active_profile_name : option string :=
  find is_active (reverse active_profile_names_ordered).

(** Lines 144-151: the loop over the days; the two lists grow together. *)
Fixpoint daily_loop (smoothest : series) (days : list nat)
    (daily_p95_values : series) (daily_time_points : list Qc)
    : result (series * list Qc) :=
  match days with
  | [] => Ok (daily_p95_values, daily_time_points)
  | day_idx :: days' =>
      let start_idx := (day_idx * points_per_day)%nat in
      let end_idx := ((day_idx + 1) * points_per_day)%nat in
      if (start_idx <? length smoothest)%nat then
        let day_data :=
          slice smoothest start_idx (Nat.min end_idx (length smoothest)) in
        if empty day_data
        then daily_loop smoothest days' daily_p95_values daily_time_points
        else
          p ← np_percentile day_data (Qc_of_Z 95);
          daily_loop smoothest days'
            (daily_p95_values ++ [p])
            (daily_time_points ++ [Qc_of_nat day_idx + 1 / 2])
      else daily_loop smoothest days' daily_p95_values daily_time_points
  end.

(** Lines 133-151: [daily_p95_values] and [daily_time_points]. *)
Definition daily : result (series * list Qc) :=
  if (0 <? num_active_profiles)%nat then
    match last_active_profile_name with
    | Some name =>
        if truthy name then
          match active_profile_emas !! name with
          | Some smoothest =>
              if empty smoothest then Ok ([], [])
              else daily_loop smoothest (seq 0 num_days) [] []
          | None => Raise KeyError
          end
        else Ok ([], [])
    | None => Ok ([], [])
    end
  else Ok ([], []).

(** Lines 157-202, the value [pxx_value_calculated]: [None] where the
    script shows no value. *)
Definition display_profile_pxx (profile_idx_to_show : nat)
    (current_active_profile_emas_dict : gmap string series)
    (ordered_profile_names_list : list string) : result (option float) :=
  match ordered_profile_names_list !! profile_idx_to_show with
  | None => Ok None
  | Some profile_name =>
      match current_active_profile_emas_dict !! profile_name with
      | None => Ok None
      | Some original_ema_series =>
          let percentile_val := get_percentile_from_name profile_name in
          let w_span_for_smoothing := get_w_value_from_name profile_name in
          if empty original_ema_series then Ok None
          else
            smoothed ← ewm_span original_ema_series
                         (Qc_of_Z w_span_for_smoothing);
            let smoothed_for_pxx := dropna smoothed in
            if empty smoothed_for_pxx then Ok None
            else
              pxx ← np_percentile (Some <$> smoothed_for_pxx)
                      (Qc_of_Z percentile_val);
              Ok (Some pxx)
      end
  end.

End Active.

(** Lines 373-381: the line drawn at a frame of the regression phase. *)
Definition regression (regression_phase_frame_num : nat)
    (daily_p95_values : series) (daily_time_points : list Qc)
    : result (option (Qc * Qc)) :=
  let num_daily_points_to_show :=
    Nat.min (length daily_time_points) (regression_phase_frame_num + 1) in
  if (0 <? num_daily_points_to_show)%nat then
    let times := take num_daily_points_to_show daily_time_points in
    let values := take num_daily_points_to_show daily_p95_values in
    if (1 <? num_daily_points_to_show)%nat then
      line ← np_polyfit1 times values; Ok (Some line)
    else Ok None
  else Ok None.

(** ** The outputs the specification names (section 4.6) *)

Record FitResult : Type := {
  emaByProfile : gmap string series;
  dailyAggregate : list (Qc * float);
  trend : option (Qc * Qc)
}.

(** The trend is the line of the last frame of the regression phase, which
    has [num_days] frames. *)
Definition fit : result FitResult :=
  data ← profile_emas_data;
  let active := active_profile_emas_of data in
  d ← daily active;
  line ← regression (num_days - 1) d.1 d.2;
  Ok {| emaByProfile := active;
        dailyAggregate := zip d.2 d.1;
        trend := line |}.

End Script.

(** ** The frames of the animation (lines 84-106, 113-117, 239-401)

    What a frame draws is left out (the artists, and the number of samples
    drawn, which the script computes in floating point); an action names
    the branch of [update_animation_multi] a frame takes, with the integers
    it computes, and the call of [display_profile_pxx] it makes. *)

Definition animation_interval_ms : nat := 50.
Definition frames_raw_data : nat := 280.
Definition frames_per_profile_ema_target : nat := 200.
Definition frames_delay_after_raw : nat := 100.
Definition frames_delay_between_emas : nat := 100.
Definition frames_delay_after_all_emas : nat := 120.
Definition pause_duration_before_repeat_ms : nat := 5000.

(** Lines 98-100; the quotient of line 98 is a whole number. *)
Definition frames_for_loop_pause : nat :=
  let frames :=
    if (0 <? animation_interval_ms)%nat
    then (pause_duration_before_repeat_ms / animation_interval_ms)%nat
    else 0%nat in
  if (frames <=? 0)%nat && (0 <? pause_duration_before_repeat_ms)%nat
  then 1%nat else frames.

Inductive frame_action : Type :=
| DrawRaw (phase_specific_frame : nat)
| HoldRaw
| DrawEma (profile_idx_ordered plotted_ema_idx frame_in_current_ema_draw : nat)
| ShowPxx (profile_idx_ordered : nat)
| HoldEmas (shown highlighted : option nat)
| DrawRegression (regression_phase_frame_num : nat)
| LoopPause
| AfterEnd.

(** How the loop over the profiles ends: by the [return] of a frame, or by
    falling through with the frame counter it reached. *)
Inductive loop_exit : Type :=
| Returned (a : frame_action)
| Fell (current_phase_frame_counter : nat).

Section Animation.

Variable active_profile_names_ordered : list string.
Variable active_profile_emas : gmap string series.
Variable num_days : nat.

Let num_active : nat := num_active_profiles active_profile_emas.

(** The active entries of the list, in its order. *)
Definition active_entries (names : list string) : list string :=
  filter (fun name => is_Some (active_profile_emas !! name)) names.

(** Lines 86-92. *)
Definition frames_per_profile_ema : nat :=
  if (0 <? num_active)%nat
  then (frames_per_profile_ema_target * num_active / num_active)%nat
  else 0%nat.

(** The frames the loop of lines 275-317 takes for [c] active entries when
    the first of them is the plot line [p]: each is drawn, and each plot
    line but the last of all is followed by a pause. *)
Definition loop_frames (c p : nat) : nat :=
  (c * frames_per_profile_ema
   + (Nat.min (p + c) (num_active - 1) - Nat.min p (num_active - 1))
     * frames_delay_between_emas)%nat.

(** Lines 101-106. *)
Definition total_profile_ema_animation_frames : nat :=
  (num_active * frames_per_profile_ema)%nat.

Definition total_inter_ema_delay_frames : nat :=
  (Nat.max 0 (num_active - 1) * frames_delay_between_emas)%nat.

Definition frames_for_actual_content : nat :=
  (frames_raw_data + frames_delay_after_raw
   + total_profile_ema_animation_frames + total_inter_ema_delay_frames
   + frames_delay_after_all_emas + num_days)%nat.

Definition total_frames_for_animation : nat :=
  (frames_for_actual_content + frames_for_loop_pause)%nat.

(** Lines 112-117: one plot line per active entry of the list, with its
    label and the index of its colour. *)
Definition profile_lines_plots : list (string * nat) :=
  omap id
    (imap (fun i name =>
             if is_active active_profile_emas name
             then Some (name, (i mod 5)%nat) else None)
          active_profile_names_ordered).

(** Lines 330-334: the search for the last active profile, by index;
    [None] is the [-1] of the script. *)
Definition last_active_profile_original_idx : option nat :=
  find (fun i =>
          match active_profile_names_ordered !! i with
          | Some name => is_active active_profile_emas name
          | None => false
          end)
       (reverse (seq 0 (length active_profile_names_ordered))).

(** Lines 337-343. *)
Fixpoint final_plot_obj_loop (last_active : nat) (indices : list nat)
    (temp_plotted_idx : nat) (final_plot_obj_idx : option nat) : option nat :=
  match indices with
  | [] => final_plot_obj_idx
  | i_ord_check :: indices' =>
      match active_profile_names_ordered !! i_ord_check with
      | Some name =>
          if is_active active_profile_emas name then
            final_plot_obj_loop last_active indices' (S temp_plotted_idx)
              (if (i_ord_check =? last_active)%nat
               then Some temp_plotted_idx else final_plot_obj_idx)
          else final_plot_obj_loop last_active indices'
                 temp_plotted_idx final_plot_obj_idx
      | None => final_plot_obj_idx
      end
  end.

Definition final_plot_obj_idx (last_active : nat) : option nat :=
  final_plot_obj_loop last_active (seq 0 (last_active + 1)) 0 None.

(** Lines 329-350: the pause after all EMAs; [shown] is the index given to
    [display_profile_pxx], [highlighted] the plot line made prominent. *)
Definition hold_emas : frame_action :=
  if (0 <? num_active)%nat then
    match last_active_profile_original_idx with
    | Some last_active =>
        HoldEmas (Some last_active)
          (match final_plot_obj_idx last_active with
           | Some j =>
               if (j <? length profile_lines_plots)%nat then Some j else None
           | None => None
           end)
    | None => HoldEmas None None
    end
  else HoldEmas None None.

(** Lines 290-296: the lines drawn before are set again while the next
    EMA is drawn; each pair is the index of a plot line and the profile
    whose EMA it is given. *)
Fixpoint redrawn_loop (indices : list nat) : result (list (nat * string)) :=
  match indices with
  | [] => Ok []
  | i :: indices' =>
      match active_profile_names_ordered !! i with
      | None => Raise IndexError
      | Some prev_profile_name_ordered =>
          if is_active active_profile_emas prev_profile_name_ordered then
            match profile_lines_plots !! i with
            | None => Raise IndexError
            | Some _ =>
                rest ← redrawn_loop indices';
                Ok ((i, prev_profile_name_ordered) :: rest)
            end
          else redrawn_loop indices'
      end
  end.

Definition redrawn (plotted_ema_idx : nat) : result (list (nat * string)) :=
  redrawn_loop (seq 0 plotted_ema_idx).

Section Frame.

Variable frame_num : nat.

(** Lines 275-317: the loop over the profiles, from the entry
    [profile_idx_ordered] of the list on.  The plot line that line 281
    looks up at an active entry always exists ([profile_lines_plots_at]),
    so the lookup is not an exit of the loop. *)
Fixpoint ema_phase (names : list string)
    (profile_idx_ordered plotted_ema_idx current_phase_frame_counter : nat)
    : loop_exit :=
  match names with
  | [] => Fell current_phase_frame_counter
  | name :: names' =>
      if is_active active_profile_emas name then
        if (frame_num
              <? current_phase_frame_counter + frames_per_profile_ema)%nat
        then Returned (DrawEma profile_idx_ordered plotted_ema_idx
                         (frame_num - current_phase_frame_counter))
        else
          let counter :=
            (current_phase_frame_counter + frames_per_profile_ema)%nat in
          if (plotted_ema_idx <? num_active - 1)%nat then
            if (frame_num <? counter + frames_delay_between_emas)%nat
            then Returned (ShowPxx profile_idx_ordered)
            else ema_phase names' (S profile_idx_ordered)
                   (S plotted_ema_idx)
                   (counter + frames_delay_between_emas)%nat
          else ema_phase names' (S profile_idx_ordered)
                 (S plotted_ema_idx) counter
      else ema_phase names' (S profile_idx_ordered) plotted_ema_idx
             current_phase_frame_counter
  end.

(** Lines 239-401. *)
Definition update_animation_multi : frame_action :=
  if (frame_num <? 0 + frames_raw_data)%nat then DrawRaw (frame_num - 0)
  else
    let counter := (0 + frames_raw_data)%nat in
    if (frame_num <? counter + frames_delay_after_raw)%nat then HoldRaw
    else
      let counter := (counter + frames_delay_after_raw)%nat in
      match ema_phase active_profile_names_ordered 0 0 counter with
      | Returned a => a
      | Fell counter =>
          if (frame_num <? counter + frames_delay_after_all_emas)%nat
          then hold_emas
          else
            let counter := (counter + frames_delay_after_all_emas)%nat in
            if (frame_num <? counter + num_days)%nat
            then DrawRegression (frame_num - counter)
            else
              let counter := (counter + num_days)%nat in
              if (frame_num <? counter + frames_for_loop_pause)%nat
              then LoopPause
              else AfterEnd
      end.

End Frame.

End Animation.

(** [range(0, stop, step)] for a positive step. *)
Definition range_step (stop step : nat) : list nat :=
  (fun j => (j * step)%nat) <$> seq 0 ((stop + step - 1) / step).

(** Lines 129-132: the places of the vertical lines that split the weeks;
    the flag tells the line that carries the label of the legend. *)
Definition week_lines (num_days : nat) : list (nat * bool) :=
  (fun i => (i, (i =? 0)%nat))
    <$> filter (fun i => (i <= num_days)%nat) (range_step (num_days + 7) 7).

(** ** The pause button (lines 403-416) *)

(** The globals [toggle_pause_resume] works on: its flag, whether the timer
    of the animation ([ani_multi.event_source]) was last started rather
    than stopped, and the text of the button, ['Pause'] at first. *)
Record controls : Type := Controls {
  is_animation_paused : bool;
  event_source_running : bool;
  bpause_label : string
}.

Definition controls_at_start (running : bool) : controls :=
  Controls false running "Pause".

Definition toggle_pause_resume (c : controls) : controls :=
  if is_animation_paused c
  then Controls false true "Pause"
  else Controls true false "Resume".

(** ** The matcher against the rules *)

Module ReFacts.
Import Re.

Lemma leading_digits_run (s : list ascii) :
  Rules.leading_digits s = (digit_run s, drop (length (digit_run s)) s).
Proof.
  induction s as [|c s IH]; simpl; [reflexivity|].
  destruct (is_digit c); simpl; [|reflexivity].
  rewrite IH. reflexivity.
Qed.

Lemma take_digit_run (s : list ascii) :
  take (length (digit_run s)) s = digit_run s.
Proof.
  induction s as [|c s IH]; simpl; [reflexivity|].
  destruct (is_digit c); simpl; [|reflexivity].
  f_equal. exact IH.
Qed.

(** Inside the run of digits every position holds a digit. *)
Lemma drop_inside_run (s : list ascii) (n : nat) :
  (n < length (digit_run s))%nat ->
  exists c rest, drop n s = c :: rest /\ is_digit c = true.
Proof.
  revert n. induction s as [|c s IH]; intros n Hn; simpl in Hn; [lia|].
  destruct (is_digit c) eqn:Hc; simpl in Hn; [|lia].
  destruct n as [|n]; simpl.
  - exists c, s. split; [reflexivity|exact Hc].
  - apply IH. lia.
Qed.

Lemma eqb_digit_false (c w : ascii) :
  is_digit c = true -> is_digit w = false -> Ascii.eqb c w = false.
Proof.
  intros Hc Hw. destruct (Ascii.eqb_spec c w) as [->|]; [congruence|reflexivity].
Qed.

(** With nothing after [\d+] the first try, all the digits, succeeds. *)
Lemma backtrack_end (s : list ascii) (n : nat) :
  backtrack (match_here []) s n =
    match n with O => None | S _ => Some (take n s, drop n s) end.
Proof. destruct n; reflexivity. Qed.

(** With a letter after [\d+], giving back digits never helps: the next
    character is then a digit. *)
Lemma backtrack_letter_short (w : ascii) (s : list ascii) (n : nat) :
  is_digit w = false ->
  (n < length (digit_run s))%nat ->
  backtrack (match_here [Lit w]) s n = None.
Proof.
  intros Hw. induction n as [|n IH]; intros Hn; [reflexivity|].
  cbn [backtrack].
  destruct (drop_inside_run s (S n) Hn) as (c & rest & -> & Hc).
  cbn [match_here]. rewrite (eqb_digit_false c w Hc Hw).
  apply IH. lia.
Qed.

Lemma match_digits_letter (w : ascii) (s : list ascii) :
  is_digit w = false ->
  backtrack (match_here [Lit w]) s (length (digit_run s)) =
    match Rules.leading_digits s with
    | (d :: ds, x :: rest) =>
        if Ascii.eqb x w then Some (d :: ds, rest) else None
    | _ => None
    end.
Proof.
  intros Hw. rewrite leading_digits_run.
  pose proof (take_digit_run s) as Htake.
  destruct (digit_run s) as [|d ds] eqn:Hrun; [reflexivity|].
  cbn [length] in *. cbn [backtrack]. rewrite Htake.
  assert (Hshort : (length ds < length (digit_run s))%nat)
    by (rewrite Hrun; simpl; lia).
  destruct (drop (S (length ds)) s) as [|x rest]; cbn [match_here].
  - apply backtrack_letter_short; assumption.
  - destruct (Ascii.eqb x w); [reflexivity|].
    apply backtrack_letter_short; assumption.
Qed.

Lemma match_digits_end (s : list ascii) :
  backtrack (match_here []) s (length (digit_run s)) =
    match digit_run s with
    | [] => None
    | d :: ds => Some (d :: ds, drop (length (digit_run s)) s)
    end.
Proof.
  rewrite backtrack_end. pose proof (take_digit_run s) as Htake.
  destruct (digit_run s) as [|d ds]; [reflexivity|].
  cbn [length] in *. rewrite Htake. reflexivity.
Qed.

Lemma match_here_lit (c x : ascii) (p : pattern) (s : list ascii) :
  match_here (Lit c :: p) (x :: s) =
    if Ascii.eqb x c then match_here p s else None.
Proof. reflexivity. Qed.

Lemma match_here_digits (p : pattern) (s : list ascii) :
  match_here (Digits :: p) s =
    backtrack (match_here p) s (length (digit_run s)).
Proof. reflexivity. Qed.

Lemma search_cons (p : pattern) (c : ascii) (s : list ascii) :
  search p (c :: s) =
    match match_here p (c :: s) with
    | Some (g, _) => Some g
    | None => search p s
    end.
Proof. reflexivity. Qed.

Lemma search_hyphen_digits_W (s : list ascii) :
  search hyphen_digits_W s = Rules.hyphen_digits_W s.
Proof.
  induction s as [|c s IH]; [reflexivity|].
  unfold hyphen_digits_W in *.
  rewrite search_cons, match_here_lit, match_here_digits.
  cbn [Rules.hyphen_digits_W].
  destruct (Ascii.eqb c "-"); [|exact IH].
  rewrite match_digits_letter by reflexivity.
  destruct (Rules.leading_digits s) as [[|d ds] [|x rest]]; try exact IH.
  destruct (Ascii.eqb x "W"); [reflexivity|exact IH].
Qed.

Lemma search_letter_digits (l : ascii) (s : list ascii) :
  search [Lit l; Digits] s = Rules.letter_digits l s.
Proof.
  induction s as [|c s IH]; [reflexivity|].
  rewrite search_cons, match_here_lit, match_here_digits.
  cbn [Rules.letter_digits].
  destruct (Ascii.eqb c l); [|exact IH].
  rewrite match_digits_end, leading_digits_run.
  destruct (digit_run s) as [|d ds]; [exact IH|reflexivity].
Qed.

Lemma reverse_cons_not_nil {A : Type} (x : A) (l : list A) :
  reverse (x :: l) <> [].
Proof.
  intros H. apply (f_equal length) in H. rewrite length_reverse in H.
  discriminate H.
Qed.

(** The runs read with an accumulator: the digits at hand close the
    current run, and the reading restarts after them. *)
Lemma digit_runs_from_run (s cur : list ascii) :
  Rules.digit_runs_from cur s =
    let rest := Rules.digit_runs_from [] (drop (length (digit_run s)) s) in
    match reverse cur ++ digit_run s with
    | [] => rest
    | g => g :: rest
    end.
Proof.
  revert cur. induction s as [|c s IH]; intros cur.
  - simpl. rewrite app_nil_r. destruct cur as [|x cur]; [reflexivity|].
    destruct (reverse (x :: cur)) eqn:E; [|reflexivity].
    destruct (reverse_cons_not_nil _ _ E).
  - cbn [Rules.digit_runs_from digit_run]. destruct (is_digit c) eqn:Hc.
    + rewrite IH. cbn [length drop]. rewrite reverse_cons, <- app_assoc.
      reflexivity.
    + cbn [length drop Rules.digit_runs_from]. rewrite Hc, app_nil_r.
      destruct cur as [|x cur]; [reflexivity|].
      destruct (reverse (x :: cur)) eqn:E; [|reflexivity].
      destruct (reverse_cons_not_nil _ _ E).
Qed.

Lemma digit_run_nil_head (c : ascii) (s : list ascii) :
  digit_run (c :: s) = [] -> is_digit c = false.
Proof. simpl. destruct (is_digit c); [discriminate|reflexivity]. Qed.

(** [findall] never runs out of fuel and returns the digit runs. *)
Lemma findall_from_digits (fuel : nat) (s : list ascii) :
  (length s < fuel)%nat ->
  findall_from fuel digits s = Rules.digit_runs s.
Proof.
  unfold Rules.digit_runs, digits.
  revert s. induction fuel as [|fuel IH]; intros s Hlen; [lia|].
  cbn [findall_from match_here]. rewrite match_digits_end.
  rewrite (digit_runs_from_run s []). cbn [reverse app]. simpl reverse.
  destruct (digit_run s) as [|d ds] eqn:Hrun.
  - destruct s as [|c s]; [reflexivity|].
    cbn [length drop]. cbn [Rules.digit_runs_from].
    rewrite (digit_run_nil_head c s Hrun).
    apply IH. simpl in Hlen. lia.
  - assert (Hshort : (length (drop (length (d :: ds)) s) < length s)%nat).
    { rewrite length_drop. destruct s; [discriminate|]. simpl. lia. }
    apply Nat.ltb_lt in Hshort as Hb. rewrite Hb.
    cbn [app]. f_equal. apply IH. lia.
Qed.

Lemma findall_digits (s : list ascii) :
  findall digits s = Rules.digit_runs s.
Proof. apply findall_from_digits. lia. Qed.

End ReFacts.

(** ** What the rules read

    The direct reading finds a place exactly when the name contains one. *)

Module RulesFacts.
Import Re Rules.

Lemma leading_digits_split (s : list ascii) :
  s = (leading_digits s).1 ++ (leading_digits s).2 /\
  all_digits (leading_digits s).1.
Proof.
  induction s as [|c s [IHs IHd]]; [split; [reflexivity|constructor]|].
  cbn [leading_digits]. destruct (is_digit c) eqn:Hc.
  - destruct (leading_digits s) as [ds rest]. cbn [fst snd] in *.
    split; [rewrite IHs at 1; reflexivity|constructor; assumption].
  - split; [reflexivity|constructor].
Qed.

Lemma leading_digits_app (ds : list ascii) (w : ascii) (rest : list ascii) :
  all_digits ds -> is_digit w = false ->
  leading_digits (ds ++ w :: rest) = (ds, w :: rest).
Proof.
  intros Hds Hw. induction Hds as [|c ds Hc _ IH]; cbn [app leading_digits].
  - rewrite Hw. reflexivity.
  - rewrite Hc, IH. reflexivity.
Qed.

(** Rule 1 finds digits exactly when the name has a hyphen, digits and a W
    in a row, and the digits it returns stand at such a place. *)
Lemma hyphen_digits_W_found (s : list ascii) :
  (forall ds, hyphen_digits_W s = Some ds ->
     exists pre post,
       s = pre ++ "-"%char :: ds ++ "W"%char :: post /\
       ds <> [] /\ all_digits ds) /\
  (forall pre ds post,
     s = pre ++ "-"%char :: ds ++ "W"%char :: post ->
     ds <> [] -> all_digits ds ->
     is_Some (hyphen_digits_W s)).
Proof.
  split.
  - induction s as [|c s IH]; intros ds Hfound; [discriminate|].
    assert (Hlater : hyphen_digits_W s = Some ds ->
      exists pre post, c :: s = pre ++ "-"%char :: ds ++ "W"%char :: post /\
                       ds <> [] /\ all_digits ds).
    { intros H. destruct (IH ds H) as (pre & post & -> & Hne & Hds).
      exists (c :: pre), post. split; [reflexivity|split; assumption]. }
    cbn [hyphen_digits_W] in Hfound.
    destruct (Ascii.eqb_spec c "-") as [->|_]; [|exact (Hlater Hfound)].
    destruct (leading_digits_split s) as [Hs Hds].
    destruct (leading_digits s) as [[|d run] [|w rest]]; cbn [fst snd] in *;
      try exact (Hlater Hfound).
    destruct (Ascii.eqb_spec w "W") as [->|_]; [|exact (Hlater Hfound)].
    injection Hfound as <-. exists [], rest.
    split; [rewrite Hs at 1; reflexivity|split; [discriminate|exact Hds]].
  - induction s as [|c s IH]; intros pre ds post Hs Hne Hds.
    + destruct pre; discriminate Hs.
    + cbn [hyphen_digits_W]. destruct pre as [|p pre].
      * injection Hs as -> ->. rewrite Ascii.eqb_refl.
        rewrite leading_digits_app by (exact Hds || reflexivity).
        destruct ds as [|d ds]; [congruence|].
        rewrite Ascii.eqb_refl. eauto.
      * injection Hs as -> Hs.
        assert (Hlater : is_Some (hyphen_digits_W s))
          by (eapply IH; eassumption).
        destruct (Ascii.eqb p "-"); [|exact Hlater].
        destruct (leading_digits s) as [[|d run] [|w rest]];
          try exact Hlater.
        destruct (Ascii.eqb w "W"); [eauto|exact Hlater].
Qed.

(** The digits after a letter are found exactly when the name has that
    letter followed by a digit. *)
Lemma letter_digits_found (l : ascii) (s : list ascii) :
  (forall ds, letter_digits l s = Some ds ->
     exists pre post,
       s = pre ++ l :: ds ++ post /\ ds <> [] /\ all_digits ds) /\
  (forall pre d post,
     s = pre ++ l :: d :: post -> is_digit d = true ->
     is_Some (letter_digits l s)).
Proof.
  split.
  - induction s as [|c s IH]; intros ds Hfound; [discriminate|].
    assert (Hlater : letter_digits l s = Some ds ->
      exists pre post, c :: s = pre ++ l :: ds ++ post /\
                       ds <> [] /\ all_digits ds).
    { intros H. destruct (IH ds H) as (pre & post & -> & Hne & Hds).
      exists (c :: pre), post. split; [reflexivity|split; assumption]. }
    cbn [letter_digits] in Hfound.
    destruct (Ascii.eqb_spec c l) as [->|_]; [|exact (Hlater Hfound)].
    destruct (leading_digits_split s) as [Hs Hds].
    destruct (leading_digits s) as [[|d run] rest]; cbn [fst snd] in *;
      [exact (Hlater Hfound)|].
    injection Hfound as <-. exists [], rest.
    split; [rewrite Hs at 1; reflexivity|split; [discriminate|exact Hds]].
  - induction s as [|c s IH]; intros pre d post Hs Hd.
    + destruct pre; discriminate Hs.
    + cbn [letter_digits]. destruct pre as [|p pre].
      * injection Hs as -> ->. rewrite Ascii.eqb_refl.
        cbn [leading_digits]. rewrite Hd.
        destruct (leading_digits post). eauto.
      * injection Hs as -> Hs.
        assert (Hlater : is_Some (letter_digits l s))
          by (eapply IH; eassumption).
        destruct (Ascii.eqb p l); [|exact Hlater].
        destruct (leading_digits s) as [[|d' run] rest]; [exact Hlater|eauto].
Qed.

End RulesFacts.

Lemma map_reverse {A B : Type} (f : A -> B) (l : list A) :
  map f (reverse l) = reverse (map f l).
Proof. exact (fmap_reverse f l). Qed.

(** The first place where digits follow the letter is the head of all
    such places. *)
Lemma letter_digits_head (l : ascii) (s : list ascii) :
  Rules.letter_digits l s = head (Stated.letter_digits_places l s).
Proof.
  induction s as [|c s IH]; [reflexivity|].
  cbn [Rules.letter_digits Stated.letter_digits_places].
  destruct (Ascii.eqb c l); [|exact IH].
  destruct (Rules.leading_digits s) as [[|d ds] rest]; [exact IH|reflexivity].
Qed.

Lemma stated_span (s : list ascii) : Stated.span_of s = Rules.span_of s.
Proof.
  unfold Stated.span_of, Rules.span_of. rewrite letter_digits_head.
  destruct (Stated.letter_digits_places "W" s); reflexivity.
Qed.

(** The two readings of rule 2 part only where the first place is out of
    range and a later one is not. *)
Lemma stated_percentile (s : list ascii) :
  let places := map Re.int (Stated.letter_digits_places "P" s) in
  (forall v, head places = Some v -> in_range 0 100 v = false ->
             Forall (fun v' => in_range 0 100 v' = false) places) ->
  Stated.percentile_of s = Rules.percentile_of s.
Proof.
  cbv zeta. intros Hfirst.
  unfold Stated.percentile_of, Rules.percentile_of.
  destruct (Rules.hyphen_digits_W s); [reflexivity|].
  rewrite letter_digits_head.
  destruct (Stated.letter_digits_places "P" s) as [|ds places];
    [reflexivity|].
  cbn [head map find] in *.
  destruct (in_range 0 100 (Re.int ds)) eqn:Hds; [reflexivity|].
  specialize (Hfirst _ eq_refl Hds). apply Forall_cons in Hfirst as [_ Hrest].
  assert (Hnone : find (in_range 0 100) (map Re.int places) = None).
  { destruct (find _ _) as [v|] eqn:Hfind; [|reflexivity].
    apply find_some in Hfind as [Hin Hv].
    rewrite Forall_forall in Hrest.
    rewrite (Hrest v) in Hv; [discriminate Hv|].
    apply list_elem_of_In. exact Hin. }
  cbn [fmap list_fmap] in *. rewrite Hnone. reflexivity.
Qed.

(** C2, as amended. For every profile name the descriptor the script
    decodes is the one the decoding rules give, applied in order with the
    first match winning: the digits of the first hyphen-digits-W place;
    else the digits after the first P that digits follow, when their value
    is in [0,100] (a later P followed by digits is not tried); else the
    last digit run whose value is in [70,100]; else 90; the span is the
    value of the digits after the first W that digits follow, at least 1,
    else 1.  This is the descriptor of section 4.1 as worded for every
    name in which, when the first P followed by digits is out of range,
    every other one is as well.  In particular "O2-98W10" decodes to
    (98, 10), "P-99W1" to (99, 1) and "mystery" to (90, 1). *)
Theorem decode_follows_rules :
  (forall name : string, ProfileDescriptor name = Rules.decode name) /\
  (forall name : string,
     let places :=
       map Re.int
         (Stated.letter_digits_places "P" (list_ascii_of_string name)) in
     (forall v, head places = Some v -> in_range 0 100 v = false ->
                Forall (fun v' => in_range 0 100 v' = false) places) ->
     ProfileDescriptor name = Stated.decode name) /\
  ProfileDescriptor "O2-98W10" = Descriptor 98 10 /\
  ProfileDescriptor "P-99W1" = Descriptor 99 1 /\
  ProfileDescriptor "mystery" = Descriptor 90 1.
Proof.
  assert (Hcode : forall name : string,
            ProfileDescriptor name = Rules.decode name).
  { intros name.
    unfold ProfileDescriptor, Rules.decode, get_percentile_from_name,
      get_w_value_from_name, Rules.percentile_of, Rules.span_of.
    unfold Re.P_digits, Re.W_digits.
    rewrite ReFacts.search_hyphen_digits_W, !ReFacts.search_letter_digits,
      ReFacts.findall_digits, map_reverse.
    reflexivity. }
  split; [exact Hcode|]. split; [|repeat split; reflexivity].
  intros name places Hfirst. rewrite Hcode.
  unfold Rules.decode, Stated.decode. cbv zeta.
  rewrite stated_span, (stated_percentile _ Hfirst). reflexivity.
Qed.

Lemma decode_follows_rules_witness :
  ProfileDescriptor "P85P200" = Stated.decode "P85P200" /\
  Stated.decode "P85P200" = Descriptor 85 1.
Proof.
  split; [|reflexivity].
  apply (proj1 (proj2 decode_follows_rules) "P85P200").
  intros v Hv Hout. cbn in Hv. injection Hv as <-. discriminate Hout.
Defined.

(** Section 4.1 as worded does not hold of the script: in "P200P50" the
    name contains P50, whose value is in [0,100], and the script, which
    reads P200 only, finds it out of range and ends with the default. *)
Lemma stated_rule_2_fails_on_later_place :
  Stated.decode "P200P50" = Descriptor 50 1 /\
  ProfileDescriptor "P200P50" = Descriptor 90 1 /\
  ~ (forall name : string, ProfileDescriptor name = Stated.decode name).
Proof.
  split; [reflexivity|]. split; [reflexivity|].
  intros H. specialize (H "P200P50"%string). discriminate H.
Qed.

(** Rule 2 looks at the first P that digits follow and at no other: when
    its value is out of range the later rules take over. *)
Example first_P_place_decides :
  ProfileDescriptor "P200P50" = Descriptor 90 1 /\
  ProfileDescriptor "P200-P85" = Descriptor 85 1.
Proof. split; reflexivity. Qed.

(** ** Ranges of the decoded values *)

Lemma span_at_least_1 (name : string) : (1 <= get_w_value_from_name name)%Z.
Proof.
  unfold get_w_value_from_name.
  destruct (Re.search _ _); lia.
Qed.

Lemma in_range_spec (lo hi v : Z) :
  in_range lo hi v = true <-> (lo <= v <= hi)%Z.
Proof. unfold in_range. rewrite andb_true_iff, !Z.leb_le. reflexivity. Qed.

(** Without a hyphen-digits-W place the percentile is within [0,100]: the
    two later rules check their value and the default is 90. *)
Lemma percentile_in_range_without_rule_1 (name : string) :
  Re.search Re.hyphen_digits_W (list_ascii_of_string name) = None ->
  (0 <= get_percentile_from_name name <= 100)%Z.
Proof.
  intros Hnone. unfold get_percentile_from_name. rewrite Hnone.
  set (scan := match find _ _ with Some num => num | None => 90%Z end).
  assert (Hscan : (0 <= scan <= 100)%Z).
  { subst scan. destruct (find _ _) as [num|] eqn:Hfind; [|lia].
    apply find_some in Hfind as [_ Hr]. apply in_range_spec in Hr. lia. }
  destruct (Re.search Re.P_digits _) as [g|]; [|exact Hscan].
  cbv zeta. destruct (in_range 0 100 (Re.int g)) eqn:Hr; [|exact Hscan].
  apply in_range_spec in Hr. exact Hr.
Qed.

(** C3. The percentile decoded by the first rule is not checked: the name
    "X-500W3" decodes to the percentile 500, outside [0,100] (its span, 3,
    is at least 1, as every span is), and the percentile call of
    [display_profile_pxx] then fails with a [ValueError]. *)
Theorem percentile_of_rule_1_unchecked :
  ProfileDescriptor "X-500W3" = Descriptor 500 3 /\
  display_profile_pxx 0 {[ "X-500W3"%string := [Some 1] ]} ["X-500W3"%string]
    = Raise ValueError.
Proof. split; [reflexivity|by_evaluation]. Qed.

(** ** The smoother *)

Module EwmFacts.
Import Ewm.

Lemma step_nan (alpha : Qc) (weighted : float) :
  step alpha weighted None = weighted.
Proof. destruct weighted; reflexivity. Qed.

(** The first sample starts the mean: the pass may as well start from an
    undefined mean. *)
Lemma mean_as_pass (alpha : Qc) (x : series) : mean alpha x = pass alpha None x.
Proof. destruct x; reflexivity. Qed.

Lemma pass_length (alpha : Qc) (weighted : float) (x : series) :
  length (pass alpha weighted x) = length x.
Proof.
  revert weighted. induction x as [|cur x IH]; intros weighted; simpl;
    [reflexivity|]. f_equal. apply IH.
Qed.

Lemma pass_head (alpha : Qc) (weighted : float) (x : series) :
  pass alpha weighted x !! 0%nat = step alpha weighted <$> x !! 0%nat.
Proof. destruct x; reflexivity. Qed.

(** One step of the recurrence at every position. *)
Lemma pass_step (alpha : Qc) (weighted : float) (x : series)
    (t : nat) (yt xt : float) :
  pass alpha weighted x !! t = Some yt ->
  x !! S t = Some xt ->
  pass alpha weighted x !! S t = Some (step alpha yt xt).
Proof.
  revert weighted t. induction x as [|cur x IH]; intros weighted t Hy Hx;
    [discriminate|].
  destruct t as [|t]; simpl in *.
  - injection Hy as <-. destruct x as [|x0 x]; [discriminate|].
    injection Hx as <-. reflexivity.
  - eapply IH; eassumption.
Qed.

Lemma pass_app (alpha : Qc) (weighted : float) (x1 x2 : series) :
  pass alpha weighted (x1 ++ x2) =
    pass alpha weighted x1 ++ pass alpha (after alpha weighted x1) x2.
Proof.
  revert weighted. induction x1 as [|cur x1 IH]; intros weighted; simpl;
    [reflexivity|]. f_equal. apply IH.
Qed.

Lemma last_cons_default {A : Type} (d a : A) (l : list A) :
  default d (last (a :: l)) = default a (last l).
Proof.
  destruct l as [|b l]; [reflexivity|].
  rewrite last_cons_cons. destruct (last (b :: l)) as [z|] eqn:E;
    [reflexivity|].
  apply last_None in E. discriminate E.
Qed.

Lemma after_last (alpha : Qc) (weighted : float) (x : series) :
  after alpha weighted x = default weighted (last (pass alpha weighted x)).
Proof.
  revert weighted. induction x as [|cur x IH]; intros weighted;
    [reflexivity|].
  cbn [pass]. rewrite last_cons_default, <- IH. reflexivity.
Qed.

(** With [alpha = 1] defined samples pass unchanged. *)
Lemma pass_one_defined (weighted : float) (v : list Qc) :
  pass 1 weighted (Some <$> v) = Some <$> v.
Proof.
  revert weighted. induction v as [|a v IH]; intros weighted;
    [reflexivity|].
  cbn [fmap list_fmap pass]. fold (@fmap list _ _ _ (@Some Qc) v).
  assert (Hstep : step 1 weighted (Some a) = Some a).
  { destruct weighted as [w|]; [|reflexivity]. simpl. f_equal. ring. }
  rewrite Hstep. f_equal. apply IH.
Qed.

Lemma pass_nan_prefix (alpha : Qc) (k : nat) (x : series) :
  pass alpha None (replicate k None ++ x) =
    replicate k None ++ pass alpha None x.
Proof. induction k as [|k IH]; simpl; [reflexivity|]. f_equal. exact IH. Qed.

(** Once a sample has been seen every output is defined. *)
Lemma pass_defined (alpha : Qc) (w : Qc) (x : series) :
  exists v, pass alpha (Some w) x = Some <$> v.
Proof.
  revert w. induction x as [|cur x IH]; intros w.
  - exists []. reflexivity.
  - simpl. destruct cur as [a|].
    + destruct (IH (alpha * a + (1 - alpha) * w)) as [v Hv].
      exists ((alpha * a + (1 - alpha) * w) :: v). rewrite Hv. reflexivity.
    + destruct (IH w) as [v Hv]. exists (w :: v). rewrite Hv. reflexivity.
Qed.

(** The output is undefined up to the first defined sample and defined
    from there on. *)
Lemma mean_shape (alpha : Qc) (x : series) :
  exists k v, mean alpha x = replicate k None ++ (Some <$> v).
Proof.
  rewrite mean_as_pass. induction x as [|cur x IH].
  - exists 0%nat, []. reflexivity.
  - simpl. destruct cur as [a|].
    + destruct (pass_defined alpha a x) as [v Hv].
      exists 0%nat, (a :: v). rewrite Hv. reflexivity.
    + destruct IH as (k & v & Hkv). exists (S k), v. rewrite Hkv. reflexivity.
Qed.

(** Smoothing such a series again with [alpha = 1] changes nothing. *)
Lemma mean_one_shape (k : nat) (v : list Qc) :
  mean 1 (replicate k None ++ (Some <$> v)) = replicate k None ++ (Some <$> v).
Proof. rewrite mean_as_pass, pass_nan_prefix, pass_one_defined. reflexivity. Qed.

Lemma Qc_one_not_zero : (1 : Qc) <> 0.
Proof. by_evaluation. Qed.

Lemma alpha_of_com_of_alpha (alpha : Qc) :
  alpha <> 0 -> 1 / (1 + (1 - alpha) / alpha) = alpha.
Proof.
  intros H. field. split; [exact H|].
  intros E. ring_simplify in E. exact (Qc_one_not_zero E).
Qed.

Lemma alpha_of_com_of_span (span : Qc) :
  span + 1 <> 0 -> 1 / (1 + (span - 1) / 2) = 2 / (span + 1).
Proof.
  intros H. field. split; [exact H|]. by_evaluation.
Qed.

End EwmFacts.

Lemma ewm_alpha_ok (x : series) (alpha : Qc) :
  0 < alpha ∧ alpha ≤ 1 -> ewm_alpha x alpha = Ok (Ewm.mean alpha x).
Proof.
  intros Halpha. unfold ewm_alpha, Ewm.com_of_alpha.
  rewrite bool_decide_eq_true_2 by exact Halpha.
  cbn. unfold Ewm.mean_of_com.
  rewrite EwmFacts.alpha_of_com_of_alpha; [reflexivity|].
  intros E. destruct Halpha as [Hpos _]. rewrite E in Hpos.
  exact (Qclt_not_eq _ _ Hpos eq_refl).
Qed.

Lemma ewm_alpha_refused (x : series) (alpha : Qc) :
  ~ (0 < alpha ∧ alpha ≤ 1) -> ewm_alpha x alpha = Raise ValueError.
Proof.
  intros Halpha. unfold ewm_alpha, Ewm.com_of_alpha.
  rewrite bool_decide_eq_false_2 by exact Halpha. reflexivity.
Qed.

Lemma ewm_span_ok (x : series) (span : Qc) :
  1 ≤ span -> ewm_span x span = Ok (Ewm.mean (2 / (span + 1)) x).
Proof.
  intros Hspan. unfold ewm_span, Ewm.com_of_span.
  rewrite bool_decide_eq_true_2 by exact Hspan.
  cbn. unfold Ewm.mean_of_com.
  rewrite EwmFacts.alpha_of_com_of_span; [reflexivity|].
  intros E.
  assert (Hpos : 0 < span + 1).
  { apply Qcplus_nonneg_pos; [|by_evaluation].
    apply Qcle_trans with 1; [by_evaluation|exact Hspan]. }
  rewrite E in Hpos. exact (Qclt_not_eq _ _ Hpos eq_refl).
Qed.

(** C4. For a smoothing factor [alpha] in (0,1] the smoother returns a
    sequence [y] as long as its input [x], with [y[0] = x[0]];
    for [t > 0], [y[t] = alpha * x[t] + (1 - alpha) * y[t-1]] when [x[t]]
    is defined (and [y[t] = x[t]] while nothing was defined before it), and
    [y[t] = y[t-1]] when [x[t]] is undefined.  An undefined sample leaves
    every other output as it is without that sample, and with [alpha = 1]
    a sequence without undefined values is returned unchanged. *)
Theorem smoother_is_the_ema (alpha : Qc) (x : series) :
  0 < alpha ∧ alpha ≤ 1 ->
  exists y : series,
    ewm_alpha x alpha = Ok y /\
    length y = length x /\
    y !! 0%nat = x !! 0%nat /\
    (forall (t : nat) (v w : Qc),
        x !! S t = Some (Some v) -> y !! t = Some (Some w) ->
        y !! S t = Some (Some (alpha * v + (1 - alpha) * w))) /\
    (forall (t : nat) (v : Qc),
        x !! S t = Some (Some v) -> y !! t = Some None ->
        y !! S t = Some (Some v)) /\
    (forall t : nat, x !! S t = Some None -> y !! S t = y !! t) /\
    (forall x1 x2 : series, x = x1 ++ None :: x2 ->
        exists y1 y2 : series,
          ewm_alpha (x1 ++ x2) alpha = Ok (y1 ++ y2) /\
          length y1 = length x1 /\
          y = y1 ++ default None (last y1) :: y2) /\
    (alpha = 1 -> forall v : list Qc, x = Some <$> v -> y = x).
Proof.
  intros Halpha. exists (Ewm.mean alpha x).
  split; [apply ewm_alpha_ok; exact Halpha|].
  rewrite EwmFacts.mean_as_pass.
  split; [apply EwmFacts.pass_length|].
  split; [rewrite EwmFacts.pass_head; destruct (x !! 0%nat); reflexivity|].
  split; [|split; [|split; [|split]]].
  - intros t v w Hx Hy.
    rewrite (EwmFacts.pass_step _ _ _ _ _ _ Hy Hx). reflexivity.
  - intros t v Hx Hy.
    rewrite (EwmFacts.pass_step _ _ _ _ _ _ Hy Hx). reflexivity.
  - intros t Hx.
    assert (Hlt : (t < length (Ewm.pass alpha None x))%nat).
    { rewrite EwmFacts.pass_length. apply lookup_lt_Some in Hx. lia. }
    destruct (lookup_lt_is_Some_2 _ _ Hlt) as [yt Hy].
    rewrite (EwmFacts.pass_step _ _ _ _ _ _ Hy Hx), Hy.
    rewrite EwmFacts.step_nan. reflexivity.
  - intros x1 x2 ->.
    exists (Ewm.pass alpha None x1),
           (Ewm.pass alpha (Ewm.after alpha None x1) x2).
    split; [|split].
    + rewrite ewm_alpha_ok by exact Halpha.
      rewrite EwmFacts.mean_as_pass, EwmFacts.pass_app. reflexivity.
    + apply EwmFacts.pass_length.
    + rewrite EwmFacts.pass_app. cbn [Ewm.pass].
      rewrite EwmFacts.step_nan, <- EwmFacts.after_last. reflexivity.
  - intros -> v ->. apply EwmFacts.pass_one_defined.
Qed.

Lemma smoother_is_the_ema_witness :
  (0 < 1 / 2 ∧ 1 / 2 ≤ 1) /\
  exists y : series,
    ewm_alpha [Some 1; None; Some (1 + 1)] (1 / 2) = Ok y /\
    length y = 3%nat /\
    y !! 0%nat = Some (Some 1).
Proof.
  assert (Halpha : 0 < 1 / 2 ∧ 1 / 2 ≤ 1) by (split; by_evaluation).
  split; [exact Halpha|].
  destruct (smoother_is_the_ema (1 / 2) [Some 1; None; Some (1 + 1)] Halpha)
    as (y & Hy & Hlen & Hhead & _).
  exists y. split; [exact Hy|]. split; [exact Hlen|exact Hhead].
Defined.

(** ** Percentiles *)

Module PercentileFacts.
Import Percentile.

Lemma Qc_of_nat_0 : Qc_of_nat 0 = 0.
Proof. apply Qc_is_canon. reflexivity. Qed.

Lemma Qfloor_of_nat (n : nat) : Qfloor (Qc_of_nat n) = Z.of_nat n.
Proof. unfold Qc_of_nat, Qc_of_Z. cbn [this]. apply Qfloor_Z. Qed.

Lemma hundred_not_zero : Qc_of_Z 100 <> 0.
Proof. by_evaluation. Qed.

Section Extremes.

Variable op : Qc -> Qc -> Qc.
Variable R : relation Qc.
Hypothesis op_choice : forall a b, op a b = a \/ op a b = b.
Hypothesis op_l : forall a b, R (op a b) a.
Hypothesis op_r : forall a b, R (op a b) b.
Hypothesis R_trans : Transitive R.

Lemma foldr_op_elem (a : Qc) (l : list Qc) : foldr op a l ∈ a :: l.
Proof.
  induction l as [|b l IH]; simpl; [left|].
  destruct (op_choice b (foldr op a l)) as [-> | ->].
  - right. left.
  - apply elem_of_cons in IH as [-> | IH]; [left|right; right; exact IH].
Qed.

Lemma foldr_op_bound (a : Qc) (l : list Qc) (y : Qc) :
  y ∈ a :: l -> R (foldr op a l) y.
Proof.
  induction l as [|b l IH]; simpl; intros Hy.
  - apply list_elem_of_singleton in Hy as ->.
    destruct (op_choice a a) as [E | E]; rewrite <- E at 1; apply op_l.
  - apply elem_of_cons in Hy as [-> | Hy].
    + etrans; [apply op_r|]. apply IH. left.
    + apply elem_of_cons in Hy as [-> | Hy]; [apply op_l|].
      etrans; [apply op_r|]. apply IH. right. exact Hy.
Qed.

End Extremes.

Lemma Qc_min_choice (a b : Qc) : Qc_min a b = a \/ Qc_min a b = b.
Proof. unfold Qc_min. destruct (decide (a ≤ b)); auto. Qed.

Lemma Qc_min_l (a b : Qc) : Qc_min a b ≤ a.
Proof.
  unfold Qc_min. destruct (decide (a ≤ b)) as [|Hn]; [reflexivity|].
  destruct (total Qcle a b); [contradiction|assumption].
Qed.

Lemma Qc_min_r (a b : Qc) : Qc_min a b ≤ b.
Proof. unfold Qc_min. destruct (decide (a ≤ b)); [assumption|reflexivity]. Qed.

Lemma Qc_max_choice (a b : Qc) : Qc_max a b = a \/ Qc_max a b = b.
Proof. unfold Qc_max. destruct (decide (a ≤ b)); auto. Qed.

Lemma Qc_max_l (a b : Qc) : a ≤ Qc_max a b.
Proof. unfold Qc_max. destruct (decide (a ≤ b)); [assumption|reflexivity]. Qed.

Lemma Qc_max_r (a b : Qc) : b ≤ Qc_max a b.
Proof.
  unfold Qc_max. destruct (decide (a ≤ b)) as [|Hn]; [reflexivity|].
  destruct (total Qcle a b); [contradiction|assumption].
Qed.

Lemma minimum_elem (x : list Qc) : x <> [] -> minimum x ∈ x.
Proof.
  destruct x as [|a l]; [congruence|]. intros _.
  apply foldr_op_elem, Qc_min_choice.
Qed.

Lemma minimum_le (x : list Qc) (y : Qc) : y ∈ x -> minimum x ≤ y.
Proof.
  destruct x as [|a l]; [intros H; inversion H|].
  apply (foldr_op_bound Qc_min Qcle Qc_min_choice Qc_min_l Qc_min_r _).
Qed.

Lemma maximum_elem (x : list Qc) : x <> [] -> maximum x ∈ x.
Proof.
  destruct x as [|a l]; [congruence|]. intros _.
  apply foldr_op_elem, Qc_max_choice.
Qed.

Lemma maximum_ge (x : list Qc) (y : Qc) : y ∈ x -> y ≤ maximum x.
Proof.
  destruct x as [|a l]; [intros H; inversion H|].
  apply (foldr_op_bound Qc_max (flip Qcle) Qc_max_choice Qc_max_l Qc_max_r _).
Qed.

(** In a sorted list a later position holds a larger value. *)
Lemma sorted_lookup_le (s : list Qc) (i j : nat) (a b : Qc) :
  StronglySorted Qcle s -> (i <= j)%nat ->
  s !! i = Some a -> s !! j = Some b -> a ≤ b.
Proof.
  intros Hs. revert i j. induction Hs as [|c s Hs IH Hall]; intros i j Hij Hi Hj;
    [discriminate|].
  destruct i as [|i], j as [|j]; simpl in *; try lia.
  - injection Hi as <-. injection Hj as <-. reflexivity.
  - injection Hi as <-. rewrite Forall_forall in Hall.
    apply Hall. eapply list_elem_of_lookup_2. exact Hj.
  - apply (IH i j); [lia|assumption|assumption].
Qed.

(** Sorting forgets the order of the input. *)
Lemma sort_permutation (x x' : list Qc) :
  x' ≡ₚ x -> merge_sort Qcle x' = merge_sort Qcle x.
Proof.
  intros Hperm. apply (Sorted_unique Qcle).
  - apply Sorted_merge_sort; apply _.
  - apply Sorted_merge_sort; apply _.
  - rewrite !merge_sort_Permutation. exact Hperm.
Qed.

Lemma sort_sorted (x : list Qc) : StronglySorted Qcle (merge_sort Qcle x).
Proof. apply StronglySorted_merge_sort; apply _. Qed.

Lemma sort_length (x : list Qc) : length (merge_sort Qcle x) = length x.
Proof. apply Permutation_length, merge_sort_Permutation. Qed.

Lemma sort_elem (x : list Qc) (a : Qc) : a ∈ merge_sort Qcle x <-> a ∈ x.
Proof. rewrite merge_sort_Permutation. reflexivity. Qed.

Lemma nth_lookup_Some (s : list Qc) (i : nat) :
  (i < length s)%nat -> s !! i = Some (nth i s 0).
Proof.
  intros Hi. destruct (lookup_lt_is_Some_2 s i Hi) as [a Ha].
  rewrite Ha. f_equal. symmetry. apply nth_lookup_Some with (d := 0) in Ha.
  exact Ha.
Qed.

(** The rank of the percentile 0 is the first order statistic. *)
Lemma linear_at_0 (s : list Qc) : linear s 0 = nth 0 s 0.
Proof.
  unfold linear.
  assert (Hh : Qc_of_nat (length s - 1) * 0 / Qc_of_Z 100 = 0).
  { unfold Qcdiv. ring. }
  rewrite Hh. change (Z.to_nat (Qfloor (this (Q2Qc 0)))) with 0%nat.
  rewrite Qc_of_nat_0. ring.
Qed.

(** The rank of the percentile 100 is the last order statistic. *)
Lemma linear_at_100 (s : list Qc) :
  linear s (Qc_of_Z 100) = nth (length s - 1) s 0.
Proof.
  unfold linear.
  assert (Hh : Qc_of_nat (length s - 1) * Qc_of_Z 100 / Qc_of_Z 100
               = Qc_of_nat (length s - 1)).
  { field. exact hundred_not_zero. }
  rewrite Hh, Qfloor_of_nat, Nat2Z.id.
  replace (Nat.min (length s - 1 + 1) (length s - 1)) with (length s - 1)%nat
    by lia.
  ring.
Qed.

Lemma sorted_first_is_minimum (x : list Qc) :
  x <> [] -> nth 0 (merge_sort Qcle x) 0 = minimum x.
Proof.
  intros Hx.
  assert (Hlen : (0 < length (merge_sort Qcle x))%nat).
  { rewrite sort_length. destruct x; [congruence|simpl; lia]. }
  pose proof (nth_lookup_Some _ _ Hlen) as Hfirst.
  apply (anti_symm Qcle).
  - pose proof (minimum_elem x Hx) as Hmin.
    apply sort_elem, list_elem_of_lookup_1 in Hmin as [j Hj].
    apply (sorted_lookup_le _ 0 j _ _ (sort_sorted x)); [lia|exact Hfirst|exact Hj].
  - apply minimum_le. apply sort_elem.
    eapply list_elem_of_lookup_2. exact Hfirst.
Qed.

Lemma sorted_last_is_maximum (x : list Qc) :
  x <> [] -> nth (length x - 1) (merge_sort Qcle x) 0 = maximum x.
Proof.
  intros Hx.
  assert (Hlen : (length x - 1 < length (merge_sort Qcle x))%nat).
  { rewrite sort_length. destruct x; [congruence|simpl; lia]. }
  pose proof (nth_lookup_Some _ _ Hlen) as Hlast.
  apply (anti_symm Qcle).
  - apply maximum_ge. apply sort_elem.
    eapply list_elem_of_lookup_2. exact Hlast.
  - pose proof (maximum_elem x Hx) as Hmax.
    apply sort_elem, list_elem_of_lookup_1 in Hmax as [j Hj].
    apply (sorted_lookup_le _ j (length x - 1) _ _ (sort_sorted x));
      [|exact Hj|exact Hlast].
    apply lookup_lt_Some in Hj. rewrite sort_length in Hj. lia.
Qed.

Lemma mapM_id_defined (x : list Qc) : mapM id (Some <$> x) = Some x.
Proof. apply mapM_fmap_Some. reflexivity. Qed.

(** On defined data and a percentile within range the call succeeds. *)
Lemma np_percentile_defined (x : list Qc) (q : Qc) :
  x <> [] -> 0 ≤ q ∧ q ≤ Qc_of_Z 100 ->
  np_percentile (Some <$> x) q = Ok (Some (of_values x q)).
Proof.
  intros Hx Hq. unfold np_percentile.
  rewrite bool_decide_eq_true_2 by exact Hq.
  unfold of_data. rewrite mapM_id_defined. destruct x; [congruence|reflexivity].
Qed.

End PercentileFacts.

(** C9. For a non-empty sequence of numbers the percentile 0 is its minimum
    and the percentile 100 its maximum, and for every percentile in
    [0,100] a permutation of the sequence has the same percentile. *)
Theorem percentile_extremes_and_permutation (x : list Qc) :
  x <> [] ->
  np_percentile (Some <$> x) 0 = Ok (Some (minimum x)) /\
  np_percentile (Some <$> x) (Qc_of_Z 100) = Ok (Some (maximum x)) /\
  (forall (x' : list Qc) (q : Qc),
      x' ≡ₚ x -> 0 ≤ q ∧ q ≤ Qc_of_Z 100 ->
      np_percentile (Some <$> x') q = np_percentile (Some <$> x) q).
Proof.
  intros Hx. split; [|split].
  - rewrite PercentileFacts.np_percentile_defined;
      [|exact Hx|split; by_evaluation].
    unfold Percentile.of_values.
    rewrite PercentileFacts.linear_at_0,
      PercentileFacts.sorted_first_is_minimum by exact Hx.
    reflexivity.
  - rewrite PercentileFacts.np_percentile_defined;
      [|exact Hx|split; by_evaluation].
    unfold Percentile.of_values.
    rewrite PercentileFacts.linear_at_100, PercentileFacts.sort_length,
      PercentileFacts.sorted_last_is_maximum by exact Hx.
    reflexivity.
  - intros x' q Hperm Hq.
    assert (Hx' : x' <> []).
    { intros ->. apply Permutation_nil_l in Hperm. congruence. }
    rewrite !PercentileFacts.np_percentile_defined by assumption.
    unfold Percentile.of_values.
    rewrite (PercentileFacts.sort_permutation x x' Hperm). reflexivity.
Qed.

Lemma percentile_extremes_and_permutation_witness :
  [1 + 1; 1; 1 + 1 + 1] <> @nil Qc /\
  np_percentile (Some <$> [1 + 1; 1; 1 + 1 + 1]) 0
    = Ok (Some (minimum [1 + 1; 1; 1 + 1 + 1])) /\
  np_percentile (Some <$> [1 + 1; 1; 1 + 1 + 1]) (Qc_of_Z 100)
    = Ok (Some (maximum [1 + 1; 1; 1 + 1 + 1])).
Proof.
  assert (Hx : [1 + 1; 1; 1 + 1 + 1] <> @nil Qc) by (intros E; discriminate E).
  split; [exact Hx|].
  destruct (percentile_extremes_and_permutation _ Hx) as (Hmin & Hmax & _).
  split; [exact Hmin|exact Hmax].
Defined.

(** ** The least-squares line *)

Module FitFacts.
Import Fit.

Lemma Qc_of_nat_S (n : nat) : Qc_of_nat (S n) = Qc_of_nat n + 1.
Proof.
  apply Qc_is_canon. unfold Qc_of_nat, Qc_of_Z. cbn [this Qcplus Q2Qc].
  rewrite Qred_correct, Nat2Z.inj_succ, <- Z.add_1_r, inject_Z_plus.
  reflexivity.
Qed.

Lemma Qc_of_nat_not_zero (n : nat) : (0 < n)%nat -> Qc_of_nat n <> 0.
Proof.
  intros Hn E. apply (f_equal this) in E.
  unfold Qc_of_nat, Qc_of_Z in E. cbn in E. injection E as E. lia.
Qed.

Lemma square_nonneg (z : Qc) : 0 ≤ z * z.
Proof.
  destruct (total Qcle 0 z) as [H | H].
  - apply Qcmult_nonneg_nonneg; exact H.
  - assert (Hneg : 0 ≤ - z).
    { apply Qcle_minus_iff in H. replace (- z) with (0 + - z) by ring. exact H. }
    replace (z * z) with (- z * - z) by ring.
    apply Qcmult_nonneg_nonneg; exact Hneg.
Qed.

Lemma sum_cons (a : Qc) (l : list Qc) : sum (a :: l) = a + sum l.
Proof. reflexivity. Qed.

(** The sum of the products of the deviations, by the plain sums. *)
Lemma sum_centered (c d : Qc) (x y : list Qc) :
  length x = length y ->
  sum (zip_with (fun a b => (a - c) * (b - d)) x y) =
    dot x y - c * sum y - d * sum x + Qc_of_nat (length x) * c * d.
Proof.
  unfold dot. revert y. induction x as [|a x IH]; intros [|b y] Hlen;
    try discriminate.
  - cbn. rewrite PercentileFacts.Qc_of_nat_0. ring.
  - injection Hlen as Hlen. cbn [zip_with length]. rewrite !sum_cons, IH by exact Hlen.
    rewrite Qc_of_nat_S. ring.
Qed.

Lemma cov_by_sums (x y : list Qc) :
  length x = length y -> (0 < length x)%nat ->
  cov x y =
    (Qc_of_nat (length x) * dot x y - sum x * sum y)
    / (Qc_of_nat (length x) * Qc_of_nat (length x)).
Proof.
  intros Hlen Hpos. pose proof (Qc_of_nat_not_zero _ Hpos) as Hn.
  unfold cov, mean. rewrite sum_centered by exact Hlen.
  rewrite <- Hlen. field. exact Hn.
Qed.

(** The residuals of a line, by the plain sums. *)
Lemma sse_by_sums (x y : list Qc) (a b : Qc) :
  length x = length y ->
  sse x y a b =
    dot y y - (1 + 1) * a * dot x y - (1 + 1) * b * sum y
    + a * a * dot x x + (1 + 1) * a * b * sum x
    + Qc_of_nat (length x) * b * b.
Proof.
  unfold sse, dot. revert y. induction x as [|t x IH]; intros [|v y] Hlen;
    try discriminate.
  - cbn. rewrite PercentileFacts.Qc_of_nat_0. ring.
  - injection Hlen as Hlen. cbn [zip_with length]. rewrite !sum_cons, IH by exact Hlen.
    rewrite Qc_of_nat_S. ring.
Qed.

Lemma sum_squares_nonneg (a b : Qc) (x : list Qc) :
  0 ≤ sum ((fun t => (a * t + b) * (a * t + b)) <$> x).
Proof.
  induction x as [|t x IH]; [reflexivity|].
  cbn [fmap list_fmap]. rewrite sum_cons.
  apply Qcplus_nonneg_nonneg; [apply square_nonneg|exact IH].
Qed.

Lemma sum_squares_by_sums (a b : Qc) (x : list Qc) :
  sum ((fun t => (a * t + b) * (a * t + b)) <$> x) =
    a * a * dot x x + (1 + 1) * a * b * sum x + Qc_of_nat (length x) * b * b.
Proof.
  unfold dot. induction x as [|t x IH].
  - cbn. rewrite PercentileFacts.Qc_of_nat_0. ring.
  - cbn [fmap list_fmap zip_with length]. rewrite !sum_cons, IH, Qc_of_nat_S. ring.
Qed.

(** The line of [normal_equations] solves the normal equations. *)
Lemma normal_equations_solved (x y : list Qc) (a b : Qc) :
  normal_equations x y = Some (a, b) ->
  dot x x * a + sum x * b = dot x y /\
  sum x * a + Qc_of_nat (length x) * b = sum y.
Proof.
  unfold normal_equations. case_bool_decide as Hdet; [discriminate|].
  intros E. injection E as <- <-. split; field; exact Hdet.
Qed.

(** No line has smaller residuals than a solution of the normal
    equations. *)
Lemma normal_equations_least_squares (x y : list Qc) (a b a' b' : Qc) :
  length x = length y ->
  normal_equations x y = Some (a, b) ->
  sse x y a b ≤ sse x y a' b'.
Proof.
  intros Hlen Hsol. destruct (normal_equations_solved _ _ _ _ Hsol) as [E1 E2].
  assert (Hdiff : sse x y a' b' =
    sse x y a b + sum ((fun t => ((a' - a) * t + (b' - b))
                                 * ((a' - a) * t + (b' - b))) <$> x)).
  { rewrite !sse_by_sums by exact Hlen. rewrite sum_squares_by_sums.
    rewrite <- E1, <- E2. ring. }
  rewrite Hdiff.
  rewrite <- (Qcplus_0_r (sse x y a b)) at 1.
  apply Qcplus_le_compat; [reflexivity|apply sum_squares_nonneg].
Qed.

End FitFacts.

Lemma np_polyfit1_defined (x y : list Qc) :
  length x = length y -> (0 < length x)%nat ->
  np_polyfit1 x (Some <$> y) =
    match Fit.normal_equations x y with
    | Some line => Ok line
    | None => Raise LinAlgError
    end.
Proof.
  intros Hlen Hpos. unfold np_polyfit1.
  rewrite bool_decide_eq_false_2 by (rewrite length_fmap; intros H; exact (H Hlen)).
  rewrite PercentileFacts.mapM_id_defined.
  destruct x; [simpl in Hpos; lia|reflexivity].
Qed.

(** The normal equations have their solution as soon as the abscissas are
    not all equal. *)
Lemma normal_equations_by_moments (x y : list Qc) :
  length x = length y -> (0 < length x)%nat -> Fit.var x <> 0 ->
  Fit.normal_equations x y =
    Some (Fit.cov x y / Fit.var x,
          Fit.mean y - Fit.cov x y / Fit.var x * Fit.mean x).
Proof.
  intros Hlen Hpos Hvar.
  pose proof (FitFacts.Qc_of_nat_not_zero _ Hpos) as Hn.
  unfold Fit.var in *.
  rewrite (FitFacts.cov_by_sums x y Hlen Hpos).
  rewrite (FitFacts.cov_by_sums x x eq_refl Hpos) in *.
  unfold Fit.normal_equations, Fit.mean. rewrite <- Hlen.
  set (n := Qc_of_nat (length x)) in *.
  assert (Hdet : n * Fit.dot x x - sum x * sum x <> 0).
  { intros E. apply Hvar. rewrite E. unfold Qcdiv. ring. }
  rewrite bool_decide_eq_false_2 by exact Hdet.
  f_equal. f_equal; field; auto.
Qed.

Lemma two_points_det (t0 t1 : Qc) :
  t0 <> t1 ->
  (1 + 1) * (t0 * t0 + (t1 * t1 + 0)) - (t0 + (t1 + 0)) * (t0 + (t1 + 0)) <> 0.
Proof.
  intros Hne E.
  assert (Hsq : (t1 - t0) * (t1 - t0) = 0) by (rewrite <- E; ring).
  apply Qcmult_integral in Hsq. apply Hne.
  assert (Hz : t1 - t0 = 0) by (destruct Hsq; assumption).
  replace t1 with (t0 + (t1 - t0)) by ring. rewrite Hz. ring.
Qed.

Lemma two_points_det_normal (t0 t1 c : Qc) :
  t0 <> t1 -> c = 1 + 1 ->
  c * (t0 * t0 + t1 * t1) - (t0 + t1) * (t0 + t1) <> 0.
Proof.
  intros Hne -> E. apply (two_points_det t0 t1 Hne).
  etrans; [|exact E]. ring.
Qed.

(** C7. The trend through two points with different abscissas has the
    slope [(v1 - v0) / (t1 - t0)] and passes through both points; for two
    or more points whose abscissas are not all equal, the slope is
    [cov(t,v) / var(t)], the intercept [mean(v) - slope * mean(t)], and no
    line has a smaller sum of squared residuals. *)
Theorem trend_is_the_least_squares_line :
  (forall t0 v0 t1 v1 : Qc,
      t0 <> t1 ->
      exists slope intercept : Qc,
        np_polyfit1 [t0; t1] [Some v0; Some v1] = Ok (slope, intercept) /\
        slope = (v1 - v0) / (t1 - t0) /\
        slope * t0 + intercept = v0 /\
        slope * t1 + intercept = v1) /\
  (forall t v : list Qc,
      length t = length v -> (2 <= length t)%nat -> Fit.var t <> 0 ->
      exists slope intercept : Qc,
        np_polyfit1 t (Some <$> v) = Ok (slope, intercept) /\
        slope = Fit.cov t v / Fit.var t /\
        intercept = Fit.mean v - slope * Fit.mean t /\
        forall a b : Qc, Fit.sse t v slope intercept ≤ Fit.sse t v a b).
Proof.
  split.
  - intros t0 v0 t1 v1 Hne.
    pose proof (two_points_det t0 t1 Hne) as Hdet.
    change [Some v0; Some v1] with (Some <$> [v0; v1]).
    rewrite np_polyfit1_defined by (reflexivity || (simpl; lia)).
    unfold Fit.normal_equations, Fit.dot.
    cbn [length zip_with sum foldr].
    rewrite !FitFacts.Qc_of_nat_S, PercentileFacts.Qc_of_nat_0.
    replace (0 + 1 + 1) with (1 + 1) by ring.
    rewrite bool_decide_eq_false_2 by exact Hdet.
    assert (Hd : t1 - t0 <> 0).
    { intros E. apply Hne. replace t1 with (t0 + (t1 - t0)) by ring.
      rewrite E. ring. }
    eexists _, _. split; [reflexivity|].
    split; [|split]; field; repeat split; try exact Hd;
      (apply two_points_det_normal;
       [exact Hne|apply Qc_is_canon; reflexivity]).
  - intros t v Hlen Hm Hvar.
    assert (Hpos : (0 < length t)%nat) by lia.
    pose proof (normal_equations_by_moments t v Hlen Hpos Hvar) as Hsol.
    exists (Fit.cov t v / Fit.var t),
           (Fit.mean v - Fit.cov t v / Fit.var t * Fit.mean t).
    split; [|split; [reflexivity|split; [reflexivity|]]].
    + rewrite np_polyfit1_defined, Hsol by assumption. reflexivity.
    + intros a b. apply FitFacts.normal_equations_least_squares; assumption.
Qed.

Lemma trend_is_the_least_squares_line_witness :
  (1 : Qc) <> 1 + 1 /\
  exists slope intercept : Qc,
    np_polyfit1 [1; 1 + 1] [Some 1; Some (1 + 1 + 1)] = Ok (slope, intercept) /\
    slope = (1 + 1 + 1 - 1) / (1 + 1 - 1) /\
    slope * 1 + intercept = 1 /\
    slope * (1 + 1) + intercept = 1 + 1 + 1.
Proof.
  assert (Hne : (1 : Qc) <> 1 + 1) by by_evaluation.
  split; [exact Hne|].
  exact (proj1 trend_is_the_least_squares_line 1 1 (1 + 1) (1 + 1 + 1) Hne).
Defined.

(** ** The daily aggregate *)

Lemma empty_true {A : Type} (l : list A) : empty l = true <-> l = [].
Proof. destruct l; simpl; split; congruence. Qed.

Lemma empty_false {A : Type} (l : list A) : empty l = false <-> l <> [].
Proof. destruct l; simpl; split; congruence. Qed.

Lemma slice_length {A : Type} (s : list A) (start stop : nat) :
  length (slice s start stop) = Nat.min (stop - start) (length s - start).
Proof. unfold slice. rewrite length_take, length_drop. reflexivity. Qed.

Lemma bucket_nonempty (s : series) (k day : nat) :
  bucket s k day <> [] <->
  (day * k < Nat.min ((day + 1) * k) (length s))%nat.
Proof.
  unfold bucket. rewrite <- length_zero_iff_nil, slice_length. lia.
Qed.

Lemma np_percentile_95 (a : series) :
  a <> [] -> np_percentile a (Qc_of_Z 95) = Ok (Percentile.of_data a (Qc_of_Z 95)).
Proof.
  intros Ha. unfold np_percentile.
  rewrite bool_decide_eq_true_2 by (split; by_evaluation).
  destruct a; [congruence|reflexivity].
Qed.

(** The loop visits the days in order and appends, for each day with a
    non-empty bucket, the percentile of the bucket and the middle of the
    day. *)
Lemma daily_loop_spec (k : nat) (s : series) (days : list nat)
    (values : series) (times : list Qc) :
  let kept := filter (fun day => bucket s k day <> []) days in
  daily_loop k s days values times =
    Ok (values ++ ((fun day => Percentile.of_data (bucket s k day) (Qc_of_Z 95))
                     <$> kept),
        times ++ ((fun day => Qc_of_nat day + 1 / 2) <$> kept)).
Proof.
  cbv zeta. revert values times.
  induction days as [|day days IH]; intros values times.
  - simpl. rewrite !app_nil_r. reflexivity.
  - cbn [daily_loop]. fold (bucket s k day).
    destruct (decide (bucket s k day = [])) as [Hempty | Hdata].
    + rewrite filter_cons_False by (intros H; exact (H Hempty)).
      assert (Hskip : forall r : result (series * list Qc),
        (if (day * k <? length s)%nat
         then if empty (bucket s k day) then r
              else p ← np_percentile (bucket s k day) (Qc_of_Z 95);
                   daily_loop k s days (values ++ [p])
                     (times ++ [Qc_of_nat day + 1 / 2])
         else r) = r).
      { intros r. destruct (day * k <? length s)%nat; [|reflexivity].
        rewrite (proj2 (empty_true _) Hempty). reflexivity. }
      rewrite Hskip. apply IH.
    + rewrite filter_cons_True by exact Hdata.
      assert (Hlt : (day * k <? length s)%nat = true).
      { apply Nat.ltb_lt. apply bucket_nonempty in Hdata. lia. }
      rewrite Hlt, (proj2 (empty_false _) Hdata), np_percentile_95 by exact Hdata.
      cbn [mbind result_bind]. rewrite IH. cbn [fmap list_fmap].
      rewrite <- !app_assoc. reflexivity.
Qed.

(** ** The last active profile *)

Lemma is_active_spec (active : gmap string series) (name : string) :
  is_active active name = true <-> is_Some (active !! name).
Proof. unfold is_active. apply bool_decide_eq_true. Qed.

(** Searching the reversed list finds the last name that is active. *)
Lemma last_active_profile_name_spec (names : list string)
    (active : gmap string series) :
  last_active_profile_name names active =
    last (filter (fun name => is_Some (active !! name)) names).
Proof.
  unfold last_active_profile_name.
  induction names as [|name names IH] using rev_ind; [reflexivity|].
  rewrite reverse_snoc, filter_app. cbn [find].
  destruct (is_active active name) eqn:Hact.
  - apply is_active_spec in Hact.
    rewrite filter_cons_True by exact Hact.
    rewrite filter_nil, last_snoc. reflexivity.
  - assert (Hnot : ~ is_Some (active !! name)).
    { intros H. apply is_active_spec in H. congruence. }
    rewrite filter_cons_False by exact Hnot.
    rewrite filter_nil, app_nil_r. exact IH.
Qed.

(** A name without an EMA, wherever it stands, does not change the
    choice. *)
Lemma inactive_profile_does_not_shift (before after : list string)
    (name : string) (active : gmap string series) :
  active !! name = None ->
  last_active_profile_name (before ++ name :: after) active =
    last_active_profile_name (before ++ after) active.
Proof.
  intros Hnone. rewrite !last_active_profile_name_spec, !filter_app.
  rewrite filter_cons_False; [reflexivity|].
  rewrite Hnone. intros [? H]. discriminate H.
Qed.

Lemma active_profile_emas_of_lookup (data : gmap string series)
    (name : string) (s : series) :
  active_profile_emas_of data !! name = Some s <->
  data !! name = Some s /\ s <> [].
Proof. unfold active_profile_emas_of. apply map_lookup_filter_Some. Qed.

(** The series that is aggregated is the one of the last active profile,
    when that profile has a name. *)
Lemma daily_of_last_active (names : list string) (D k : nat)
    (active : gmap string series) (name : string) (s : series) :
  last_active_profile_name names active = Some name ->
  name <> ""%string ->
  active !! name = Some s -> s <> [] ->
  daily names D k active = daily_loop k s (seq 0 D) [] [].
Proof.
  intros Hlast Hname Hs Hdata. unfold daily, num_active_profiles.
  assert (Hsize : (0 <? size active)%nat = true).
  { apply Nat.ltb_lt.
    assert (size active <> 0%nat); [|lia].
    apply map_size_ne_0_lookup. exists name. rewrite Hs. eauto. }
  rewrite Hsize, Hlast, Hs.
  destruct name; [congruence|]. cbn [truthy].
  rewrite (proj2 (empty_false _) Hdata). reflexivity.
Qed.

(** A name without an EMA gets no Pxx. *)
Lemma inactive_profile_has_no_pxx (i : nat) (active : gmap string series)
    (names : list string) (name : string) :
  names !! i = Some name -> active !! name = None ->
  display_profile_pxx i active names = Ok None.
Proof.
  intros Hname Hnone. unfold display_profile_pxx.
  rewrite Hname, Hnone. reflexivity.
Qed.

(** The aggregation never fails. *)
Lemma daily_returns (names : list string) (D k : nat)
    (active : gmap string series) :
  exists r, daily names D k active = Ok r.
Proof.
  unfold daily. destruct (0 <? num_active_profiles active)%nat; [|eauto].
  destruct (last_active_profile_name names active) as [name|] eqn:Hlast;
    [|eauto].
  destruct (truthy name); [|eauto].
  apply find_some in Hlast as [_ Hact]. apply is_active_spec in Hact.
  destruct Hact as [s Hs]. rewrite Hs.
  destruct (empty s); [eauto|].
  eexists. apply daily_loop_spec.
Qed.

(** ** The aggregate, day by day *)

(** The days after the end of the series have no bucket. *)
Lemma days_after_the_end (s : series) (k first n : nat) :
  (length s <= first * k)%nat ->
  filter (fun day => bucket s k day <> []) (seq first n) = [].
Proof.
  revert first. induction n as [|n IH]; intros first Hend; [reflexivity|].
  cbn [seq]. rewrite filter_cons_False.
  - apply IH. lia.
  - rewrite bucket_nonempty. lia.
Qed.

Lemma regression_all_points (frame : nat) (values : series)
    (times : list Qc) :
  (length times <= frame + 1)%nat ->
  regression frame values times = regression (length times - 1) values times.
Proof.
  intros Hframe. unfold regression.
  replace (Nat.min (length times) (frame + 1)) with (length times) by lia.
  replace (Nat.min (length times) (length times - 1 + 1)) with (length times)
    by lia.
  reflexivity.
Qed.

(** The example of section 8: eight samples, four a day, one profile. *)
Lemma example_days (D : nat) :
  (2 <= D)%nat ->
  let raw := (fun z => Some (Qc_of_Z z)) <$> [1; 2; 3; 4; 5; 6; 7; 8]%Z in
  fit raw {[ "X-95W1"%string := 1 ]} ["X-95W1"%string] D 4 =
  fit raw {[ "X-95W1"%string := 1 ]} ["X-95W1"%string] 2 4.
Proof.
  intros HD raw.
  assert (Hdata : profile_emas_data raw {[ "X-95W1"%string := 1 ]}
                    ["X-95W1"%string]
                  = Ok {[ "X-95W1"%string := raw ]}) by by_evaluation.
  assert (Hactive : active_profile_emas_of
                      ({[ "X-95W1"%string := raw ]} : gmap string series)
                    = {[ "X-95W1"%string := raw ]}) by by_evaluation.
  assert (Hdaily : forall n, (2 <= n)%nat ->
    daily ["X-95W1"%string] n 4 {[ "X-95W1"%string := raw ]} =
    daily_loop 4 raw (seq 0 2) [] []).
  { intros n Hn.
    rewrite (daily_of_last_active _ n 4 _ "X-95W1"%string raw);
      [|reflexivity|discriminate|by_evaluation|discriminate].
    rewrite !daily_loop_spec.
    replace n with (2 + (n - 2))%nat at 1 2 by lia.
    rewrite seq_app, !filter_app.
    rewrite (days_after_the_end raw 4 (0 + 2) (n - 2)) by (simpl; lia).
    rewrite !app_nil_r. reflexivity. }
  unfold fit. rewrite Hdata. cbn [mbind result_bind]. rewrite Hactive.
  rewrite (Hdaily D HD), (Hdaily 2%nat) by lia.
  destruct (daily_loop 4 raw (seq 0 2) [] []) as [[values times]|e] eqn:Hloop;
    [|reflexivity].
  cbn [mbind result_bind fst snd].
  assert (Hlen : length times = 2%nat).
  { rewrite daily_loop_spec in Hloop. injection Hloop as <- <-. reflexivity. }
  rewrite (regression_all_points (D - 1)), (regression_all_points (2 - 1))
    by (rewrite Hlen; lia).
  reflexivity.
Qed.

(** C5. For a smoothed sequence [s], [k] samples per day and [D] days, the
    daily aggregate has exactly one entry for each day of [0, D) whose
    index range [[day * k, min ((day + 1) * k, n))] is non-empty, in the
    order of the days: the day index [day + 0.5] and the 95th percentile
    of that sub-sequence; the other days have no entry.  For the raw
    series 1..8 with 4 samples per day (over two days or more) and the
    single profile "X-95W1" of alpha 1 the aggregate is
    [(0.5, P95 [1,2,3,4]); (1.5, P95 [5,6,7,8])] and the slope of the
    trend is positive. *)
Theorem daily_aggregate_by_bucket :
  (forall (s : series) (k D : nat),
      exists (values : series) (times : list Qc),
        daily_loop k s (seq 0 D) [] [] = Ok (values, times) /\
        let days :=
          filter (fun day =>
                    (day * k < Nat.min ((day + 1) * k) (length s))%nat)
                 (seq 0 D) in
        times = (fun day => Qc_of_nat day + 1 / 2) <$> days /\
        Forall2 (fun day value =>
                   np_percentile (bucket s k day) (Qc_of_Z 95) = Ok value)
                days values) /\
  (forall D : nat,
   (2 <= D)%nat ->
   let raw := (fun z => Some (Qc_of_Z z)) <$> [1; 2; 3; 4; 5; 6; 7; 8]%Z in
   let r := fit raw {[ "X-95W1"%string := 1 ]} ["X-95W1"%string] D 4 in
   exists (v1 v2 : float) (slope intercept : Qc),
     np_percentile ((fun z => Some (Qc_of_Z z)) <$> [1; 2; 3; 4]%Z)
       (Qc_of_Z 95) = Ok v1 /\
     np_percentile ((fun z => Some (Qc_of_Z z)) <$> [5; 6; 7; 8]%Z)
       (Qc_of_Z 95) = Ok v2 /\
     dailyAggregate <$> r = Ok [(1 / 2, v1); (1 + 1 / 2, v2)] /\
     trend <$> r = Ok (Some (slope, intercept)) /\
     0 < slope).
Proof.
  split.
  - intros s k D. eexists _, _. split; [apply daily_loop_spec|].
    cbn [app]. cbv zeta.
    rewrite (list_filter_iff _ _ (seq 0 D) (bucket_nonempty s k)).
    split; [reflexivity|].
    apply Forall2_fmap_r, Forall_Forall2_diag, Forall_forall.
    intros day Hday. apply list_elem_of_filter in Hday as [Hday _].
    apply np_percentile_95. apply bucket_nonempty. exact Hday.
  - intros D HD. cbv zeta. rewrite (example_days D HD).
    exists (Some (Q2Qc (77 # 20))), (Some (Q2Qc (157 # 20))),
           (Qc_of_Z 4), (Q2Qc (37 # 20)).
    repeat split; by_evaluation.
Qed.

Lemma daily_aggregate_by_bucket_witness :
  let raw := (fun z => Some (Qc_of_Z z)) <$> [1; 2; 3; 4; 5; 6; 7; 8]%Z in
  let r := fit raw {[ "X-95W1"%string := 1 ]} ["X-95W1"%string] 3 4 in
  (2 <= 3)%nat /\
  exists (v1 v2 : float) (slope intercept : Qc),
    np_percentile ((fun z => Some (Qc_of_Z z)) <$> [1; 2; 3; 4]%Z)
      (Qc_of_Z 95) = Ok v1 /\
    np_percentile ((fun z => Some (Qc_of_Z z)) <$> [5; 6; 7; 8]%Z)
      (Qc_of_Z 95) = Ok v2 /\
    dailyAggregate <$> r = Ok [(1 / 2, v1); (1 + 1 / 2, v2)] /\
    trend <$> r = Ok (Some (slope, intercept)) /\
    0 < slope.
Proof.
  cbv zeta. assert (HD : (2 <= 3)%nat) by lia.
  split; [exact HD|].
  exact (proj2 daily_aggregate_by_bucket 3%nat HD).
Defined.

(** ** A profile named by the empty string *)

(** C6. A profile named by the empty string is active (it has a non-empty
    EMA and it is the last active entry) and its Pxx is shown, but its EMA
    does not feed the daily aggregation: the test
    [if last_active_profile_name:] takes the empty name for no name, and
    the aggregate and the trend stay empty. *)
Theorem empty_name_is_not_aggregated :
  let raw := [Some 1; Some (1 + 1)] in
  let alphas : gmap string Qc := {[ ""%string := 1 / 2 ]} in
  let names := [""%string] in
  let ema := [Some 1; Some (Q2Qc (3 # 2))] in
  let active : gmap string series := {[ ""%string := ema ]} in
  active_profile_emas_of <$> profile_emas_data raw alphas names = Ok active /\
  last_active_profile_name names active = Some ""%string /\
  display_profile_pxx 0 active names = Ok (Some (Some (Q2Qc (29 # 20)))) /\
  daily names 2 1 active = Ok ([], []) /\
  daily_loop 1 ema (seq 0 2) [] []
    = Ok ([Some 1; Some (Q2Qc (3 # 2))], [1 / 2; 1 + 1 / 2]) /\
  dailyAggregate <$> fit raw alphas names 2 1 = Ok [] /\
  trend <$> fit raw alphas names 2 1 = Ok None.
Proof. cbv zeta. repeat split; by_evaluation. Qed.

(** ** The percentile of a profile *)

Lemma span_alpha_valid (span : Qc) :
  1 ≤ span -> 0 < 2 / (span + 1) ∧ 2 / (span + 1) ≤ 1.
Proof.
  intros Hspan.
  assert (Hpos : 0 < span + 1).
  { apply Qcplus_nonneg_pos; [|by_evaluation].
    apply Qcle_trans with 1; [by_evaluation|exact Hspan]. }
  assert (Hne : span + 1 <> 0).
  { intros E. rewrite E in Hpos. exact (Qclt_not_eq _ _ Hpos eq_refl). }
  split.
  - unfold Qcdiv. apply Qcmult_pos_pos; [by_evaluation|].
    apply Qcinv_pos. exact Hpos.
  - apply Qcmult_lt_0_le_reg_r with (span + 1); [exact Hpos|].
    rewrite test_field by exact Hne. rewrite Qcmult_1_l.
    apply Qcplus_le_mono_r. exact Hspan.
Qed.

(** Smoothing by a span is smoothing by [alpha = 2 / (span + 1)]. *)
Lemma ewm_span_as_alpha (x : series) (span : Qc) :
  1 ≤ span -> ewm_span x span = ewm_alpha x (2 / (span + 1)).
Proof.
  intros Hspan.
  rewrite ewm_span_ok by exact Hspan.
  rewrite ewm_alpha_ok by (apply span_alpha_valid; exact Hspan).
  reflexivity.
Qed.

Lemma decoded_span_valid (name : string) :
  1 ≤ Qc_of_Z (get_w_value_from_name name).
Proof.
  pose proof (proj1 (Z2Qc_inj_le 1 _) (span_at_least_1 name)) as H.
  rewrite Z2Qc_inj_1 in H. exact H.
Qed.

(** The smoothed series has a defined value as soon as its input has. *)
Lemma dropna_pass_nil (alpha : Qc) (x : series) :
  dropna (Ewm.pass alpha None x) = [] <-> dropna x = [].
Proof.
  induction x as [|cur x IH]; [reflexivity|].
  destruct cur as [a|]; cbn; [split; discriminate|exact IH].
Qed.

Lemma dropna_mean_nil (alpha : Qc) (x : series) :
  dropna (Ewm.mean alpha x) = [] <-> dropna x = [].
Proof. rewrite EwmFacts.mean_as_pass. apply dropna_pass_nil. Qed.

Lemma fmap_as_bind {A B : Type} (f : A -> B) (r : result A) :
  (a ← r; Ok (f a)) = f <$> r.
Proof. destruct r; reflexivity. Qed.

(** What [display_profile_pxx] computes for a profile with data. *)
Lemma display_profile_pxx_resmoothed (i : nat) (emas : gmap string series)
    (names : list string) (name : string) (s : series) :
  names !! i = Some name -> emas !! name = Some s -> s <> [] ->
  let twice :=
    Ewm.mean (2 / (Qc_of_Z (get_w_value_from_name name) + 1)) s in
  display_profile_pxx i emas names =
    (if empty (dropna twice) then Ok None
     else Some <$> np_percentile (Some <$> dropna twice)
                     (Qc_of_Z (get_percentile_from_name name))).
Proof.
  intros Hname Hs Hdata twice. subst twice.
  unfold display_profile_pxx. rewrite Hname, Hs.
  rewrite (proj2 (empty_false _) Hdata).
  rewrite ewm_span_ok by apply decoded_span_valid. cbn [mbind result_bind].
  destruct (empty (dropna _)); [reflexivity|].
  apply fmap_as_bind.
Qed.

(** C1. For a profile with a non-empty EMA sequence, the sequence is
    smoothed a second time with alpha = 2 / (span + 1), for the span
    decoded from the name, and the undefined values of the result are
    dropped; the Pxx shown is the percentile of that sequence at the
    percentile decoded from the name (none when the sequence is empty).
    With a percentile in [0,100] and a defined value in the EMA it is the
    interpolated percentile of the sorted values. *)
Theorem pxx_is_percentile_of_resmoothed (i : nat)
    (emas : gmap string series) (names : list string)
    (name : string) (s : series) :
  names !! i = Some name -> emas !! name = Some s -> s <> [] ->
  let alpha := 2 / (Qc_of_Z (get_w_value_from_name name) + 1) in
  let q := Qc_of_Z (get_percentile_from_name name) in
  exists twice : series,
    ewm_alpha s alpha = Ok twice /\
    display_profile_pxx i emas names =
      (if empty (dropna twice) then Ok None
       else Some <$> np_percentile (Some <$> dropna twice) q) /\
    (0 ≤ q ∧ q ≤ Qc_of_Z 100 -> dropna s <> [] ->
     display_profile_pxx i emas names =
       Ok (Some (Some (Percentile.of_values (dropna twice) q)))).
Proof.
  intros Hname Hs Hdata alpha q.
  pose proof (decoded_span_valid name) as Hspan.
  pose proof (display_profile_pxx_resmoothed i emas names name s
                Hname Hs Hdata) as Hdisplay.
  cbv zeta in Hdisplay. fold alpha q in Hdisplay.
  exists (Ewm.mean alpha s). split; [|split].
  - apply ewm_alpha_ok. apply span_alpha_valid. exact Hspan.
  - exact Hdisplay.
  - intros Hq Hdefined. rewrite Hdisplay.
    assert (Htwice : dropna (Ewm.mean alpha s) <> []).
    { intros E. apply Hdefined. apply (dropna_mean_nil alpha). exact E. }
    rewrite (proj2 (empty_false _) Htwice).
    rewrite PercentileFacts.np_percentile_defined by assumption.
    reflexivity.
Qed.

Lemma pxx_is_percentile_of_resmoothed_witness :
  exists twice : series,
    ewm_alpha [Some 1; Some (1 + 1)] (2 / (Qc_of_Z 10 + 1)) = Ok twice /\
    display_profile_pxx 0 {[ "O2-98W10"%string := [Some 1; Some (1 + 1)] ]}
      ["O2-98W10"%string]
    = Ok (Some (Some (Percentile.of_values (dropna twice) (Qc_of_Z 98)))).
Proof.
  destruct (pxx_is_percentile_of_resmoothed 0
              {[ "O2-98W10"%string := [Some 1; Some (1 + 1)] ]}
              ["O2-98W10"%string] "O2-98W10"%string [Some 1; Some (1 + 1)])
    as (twice & Htwice & _ & Hpxx).
  - reflexivity.
  - by_evaluation.
  - intros E. discriminate E.
  - exists twice. split; [exact Htwice|].
    apply Hpxx; [split; by_evaluation|intros E; discriminate E].
Defined.

(** ** Profiles of span 1 *)

(** Every primary EMA is empty or a smoothing of the raw series. *)
Lemma profile_emas_loop_values (raw : series) (alphas : gmap string Qc)
    (names : list string) (data data' : gmap string series) :
  profile_emas_loop raw alphas names data = Ok data' ->
  (forall name s, data !! name = Some s ->
     s = [] \/ exists alpha, s = Ewm.mean alpha raw) ->
  forall name s, data' !! name = Some s ->
    s = [] \/ exists alpha, s = Ewm.mean alpha raw.
Proof.
  revert data. induction names as [|n names IH]; intros data Hloop Hinv.
  - injection Hloop as <-. exact Hinv.
  - cbn [profile_emas_loop] in Hloop.
    destruct (alphas !! n) as [alpha|].
    + unfold ewm_alpha in Hloop.
      destruct (Ewm.com_of_alpha alpha) as [com|]; [|discriminate].
      cbn [mbind result_bind] in Hloop.
      apply (IH _ Hloop). intros name s.
      destruct (decide (n = name)) as [->|Hne].
      * rewrite lookup_insert_eq. intros [= <-]. right. eexists. reflexivity.
      * rewrite lookup_insert_ne by exact Hne. apply Hinv.
    + apply (IH _ Hloop). intros name s.
      destruct (decide (n = name)) as [->|Hne].
      * rewrite lookup_insert_eq. intros [= <-]. left. reflexivity.
      * rewrite lookup_insert_ne by exact Hne. apply Hinv.
Qed.

Lemma active_ema_is_smoothed (raw : series) (alphas : gmap string Qc)
    (names : list string) (data : gmap string series)
    (name : string) (s : series) :
  profile_emas_data raw alphas names = Ok data ->
  active_profile_emas_of data !! name = Some s ->
  exists alpha, s = Ewm.mean alpha raw.
Proof.
  intros Hdata Hs. apply active_profile_emas_of_lookup in Hs as [Hs Hne].
  destruct (profile_emas_loop_values _ _ _ _ _ Hdata) with (name := name) (s := s)
    as [-> | H]; [|exact Hs|congruence|exact H].
  intros ? ? H. rewrite lookup_empty in H. discriminate H.
Qed.

Lemma alpha_of_span_1 : 2 / (Qc_of_Z 1 + 1) = 1.
Proof. by_evaluation. Qed.

(** C10. For a profile whose decoded span is 1 (the name has no W followed
    by digits, or the digits after its first such W are worth 0 or 1) the
    second smoothing, with alpha = 2 / (1 + 1) = 1, returns the primary
    EMA unchanged, and the Pxx shown is the percentile of the primary EMA
    without its undefined values. *)
Theorem span_one_pxx_is_percentile_of_ema (raw : series)
    (alphas : gmap string Qc) (names : list string)
    (data : gmap string series) (i : nat) (name : string) (s : series) :
  profile_emas_data raw alphas names = Ok data ->
  names !! i = Some name ->
  active_profile_emas_of data !! name = Some s ->
  get_w_value_from_name name = 1%Z ->
  ewm_span s (Qc_of_Z (get_w_value_from_name name)) = Ok s /\
  display_profile_pxx i (active_profile_emas_of data) names =
    (if empty (dropna s) then Ok None
     else Some <$> np_percentile (Some <$> dropna s)
                     (Qc_of_Z (get_percentile_from_name name))) /\
  (forall name' : string,
      get_w_value_from_name name' = 1%Z <->
      match Re.search Re.W_digits (list_ascii_of_string name') with
      | None => True
      | Some g => (Re.int g <= 1)%Z
      end).
Proof.
  intros Hdata Hname Hs Hspan.
  destruct (active_ema_is_smoothed _ _ _ _ _ _ Hdata Hs) as [alpha ->].
  destruct (EwmFacts.mean_shape alpha raw) as (k & v & Hshape).
  assert (Hs' := Hs). apply active_profile_emas_of_lookup in Hs' as [_ Hne].
  assert (Hid : Ewm.mean (2 / (Qc_of_Z 1 + 1)) (Ewm.mean alpha raw)
                = Ewm.mean alpha raw).
  { rewrite alpha_of_span_1, Hshape. apply EwmFacts.mean_one_shape. }
  split; [|split].
  - rewrite Hspan, ewm_span_ok by (rewrite Z2Qc_inj_1; reflexivity).
    rewrite Hid. reflexivity.
  - rewrite (display_profile_pxx_resmoothed i _ names name _ Hname Hs Hne).
    cbv zeta. rewrite Hspan, Hid. reflexivity.
  - intros name'. unfold get_w_value_from_name.
    destruct (Re.search Re.W_digits _); [lia|tauto].
Qed.

Lemma span_one_pxx_is_percentile_of_ema_witness :
  let s := [Some 1; Some (Q2Qc (3 # 2))] in
  ewm_span s (Qc_of_Z (get_w_value_from_name "P95")) = Ok s /\
  display_profile_pxx 0 {[ "P95"%string := s ]} ["P95"%string] =
    Some <$> np_percentile (Some <$> dropna s) (Qc_of_Z 95).
Proof.
  cbv zeta.
  destruct (span_one_pxx_is_percentile_of_ema
              [Some 1; Some (1 + 1)] {[ "P95"%string := 1 / 2 ]}
              ["P95"%string]
              {[ "P95"%string := [Some 1; Some (Q2Qc (3 # 2))] ]}
              0 "P95"%string [Some 1; Some (Q2Qc (3 # 2))])
    as (Hspan & Hpxx & _).
  - by_evaluation.
  - reflexivity.
  - by_evaluation.
  - reflexivity.
  - split; [exact Hspan|].
    replace ({[ "P95"%string := [Some 1; Some (Q2Qc (3 # 2))] ]}
               : gmap string series)
      with (active_profile_emas_of
              ({[ "P95"%string := [Some 1; Some (Q2Qc (3 # 2))] ]}
                 : gmap string series))
      by by_evaluation.
    exact Hpxx.
Defined.

(** ** Empty inputs *)

Lemma np_percentile_raises (a : series) (q : Qc) (e : exn) :
  np_percentile a q = Raise e ->
  (e = IndexError /\ a = []) \/ e = ValueError.
Proof.
  unfold np_percentile. case_bool_decide; [|intros [= <-]; right; reflexivity].
  destruct a; [intros [= <-]; left; split; reflexivity|discriminate].
Qed.

Lemma np_polyfit1_raises (x : list Qc) (y : series) (e : exn) :
  np_polyfit1 x y = Raise e ->
  (e = TypeError /\ (length x <> length y \/ x = [])) \/ e = LinAlgError.
Proof.
  unfold np_polyfit1. case_bool_decide as Hlen.
  { intros [= <-]. left. split; [reflexivity|left; exact Hlen]. }
  destruct x as [|t x]; cbn [empty].
  { intros [= <-]. left. split; [reflexivity|right; reflexivity]. }
  destruct (mapM id y); [|intros [= <-]; right; reflexivity].
  destruct (Fit.normal_equations _ _); [discriminate|].
  intros [= <-]. right. reflexivity.
Qed.

Lemma regression_raises (frame : nat) (values : series) (times : list Qc)
    (e : exn) :
  length values = length times ->
  regression frame values times = Raise e -> e = LinAlgError.
Proof.
  intros Hlen. unfold regression.
  set (n := Nat.min (length times) (frame + 1)).
  destruct (0 <? n)%nat; [|discriminate].
  destruct (1 <? n)%nat eqn:Hn; [|discriminate].
  apply Nat.ltb_lt in Hn.
  destruct (np_polyfit1 (take n times) (take n values)) as [line|e'] eqn:Hfit;
    [discriminate|].
  cbn [mbind result_bind]. intros [= <-].
  apply np_polyfit1_raises in Hfit as [[_ Hbad] | He]; [|exact He].
  exfalso. destruct Hbad as [Hbad | Hbad].
  - apply Hbad. rewrite !length_take. lia.
  - apply (f_equal length) in Hbad. rewrite length_take in Hbad.
    simpl in Hbad. lia.
Qed.

Lemma regression_few_points (frame : nat) (values : series)
    (times : list Qc) :
  (length times < 2)%nat -> regression frame values times = Ok None.
Proof.
  intros Hlen. unfold regression.
  set (n := Nat.min (length times) (frame + 1)).
  destruct (0 <? n)%nat; [|reflexivity].
  assert (Hn : (1 <? n)%nat = false) by (apply Nat.ltb_ge; lia).
  rewrite Hn. reflexivity.
Qed.

Lemma profile_emas_loop_raises (raw : series) (alphas : gmap string Qc)
    (names : list string) (data : gmap string series) (e : exn) :
  profile_emas_loop raw alphas names data = Raise e -> e = ValueError.
Proof.
  revert data. induction names as [|n names IH]; intros data; [discriminate|].
  cbn [profile_emas_loop]. destruct (alphas !! n) as [alpha|]; [|apply IH].
  unfold ewm_alpha, Ewm.com_of_alpha. case_bool_decide.
  - cbn [mbind result_bind]. apply IH.
  - intros [= <-]. reflexivity.
Qed.

Lemma display_profile_pxx_raises (i : nat) (emas : gmap string series)
    (names : list string) (e : exn) :
  display_profile_pxx i emas names = Raise e -> e = ValueError.
Proof.
  unfold display_profile_pxx.
  destruct (names !! i) as [name|]; [|discriminate].
  destruct (emas !! name) as [ema|]; [|discriminate].
  destruct (empty ema); [discriminate|].
  rewrite ewm_span_ok by apply decoded_span_valid.
  cbn [mbind result_bind].
  destruct (empty (dropna _)) eqn:Hempty; [discriminate|].
  destruct (np_percentile _ _) as [p|e'] eqn:Hp; [discriminate|].
  cbn [mbind result_bind]. intros [= <-].
  apply np_percentile_raises in Hp as [[_ Hnil] | He]; [|exact He].
  apply fmap_nil_inv in Hnil. apply empty_false in Hempty. contradiction.
Qed.

Lemma day_index_inj (d d' : nat) :
  Qc_of_nat d + 1 / 2 = Qc_of_nat d' + 1 / 2 -> d = d'.
Proof.
  intros E. apply (inj (fun x => x + 1 / 2)) in E.
  apply Z2Qc_inj in E. lia.
Qed.

Lemma daily_lengths (names : list string) (D k : nat)
    (active : gmap string series) (values : series) (times : list Qc) :
  daily names D k active = Ok (values, times) ->
  length values = length times.
Proof.
  unfold daily.
  destruct (0 <? _)%nat; [|intros [= <- <-]; reflexivity].
  destruct (last_active_profile_name _ _) as [name|];
    [|intros [= <- <-]; reflexivity].
  destruct (truthy name); [|intros [= <- <-]; reflexivity].
  destruct (active !! name) as [ema|]; [|discriminate].
  destruct (empty ema); [intros [= <- <-]; reflexivity|].
  rewrite daily_loop_spec. intros [= <- <-].
  cbn [app]. rewrite !length_fmap. reflexivity.
Qed.

(** C8. The percentile of a sequence without elements fails, and the
    failure never leaves the engine: the daily loop returns, with no entry
    for a day whose bucket is empty; [display_profile_pxx] never fails
    with the error of an empty sequence and shows no value when the
    re-smoothed sequence is empty; with fewer than two daily points no
    line is fitted; and a run of the whole pipeline fails neither with
    that error nor with the one of an empty fit. *)
Theorem empty_input_is_guarded :
  (forall q : Qc, exists e : exn, np_percentile [] q = Raise e) /\
  (forall (s : series) (k D : nat),
      exists (values : series) (times : list Qc),
        daily_loop k s (seq 0 D) [] [] = Ok (values, times) /\
        length values = length times /\
        forall day : nat,
          bucket s k day = [] -> Qc_of_nat day + 1 / 2 ∉ times) /\
  (forall (i : nat) (emas : gmap string series) (names : list string),
      display_profile_pxx i emas names <> Raise IndexError) /\
  (forall (i : nat) (emas : gmap string series) (names : list string)
          (name : string) (s twice : series),
      names !! i = Some name -> emas !! name = Some s ->
      ewm_span s (Qc_of_Z (get_w_value_from_name name)) = Ok twice ->
      dropna twice = [] ->
      display_profile_pxx i emas names = Ok None) /\
  (forall (frame : nat) (values : series) (times : list Qc),
      (length times < 2)%nat -> regression frame values times = Ok None) /\
  (forall (raw : series) (alphas : gmap string Qc) (names : list string)
          (D k : nat),
      fit raw alphas names D k <> Raise IndexError /\
      fit raw alphas names D k <> Raise TypeError).
Proof.
  split; [|split; [|split; [|split; [|split]]]].
  - intros q. unfold np_percentile. case_bool_decide; eauto.
  - intros s k D. eexists _, _. split; [apply daily_loop_spec|].
    cbn [app]. split; [rewrite !length_fmap; reflexivity|].
    intros day Hempty Hin.
    apply list_elem_of_fmap in Hin as (day' & E & Hin).
    apply day_index_inj in E as <-.
    apply list_elem_of_filter in Hin as [Hdata _]. contradiction.
  - intros i emas names E.
    apply display_profile_pxx_raises in E. discriminate E.
  - intros i emas names name s twice Hname Hs Htwice Hnil.
    unfold display_profile_pxx. rewrite Hname, Hs.
    destruct (empty s); [reflexivity|].
    rewrite Htwice. cbn [mbind result_bind]. rewrite Hnil. reflexivity.
  - apply regression_few_points.
  - intros raw alphas names D k.
    assert (Hraise : forall e, fit raw alphas names D k = Raise e ->
                               e = ValueError \/ e = LinAlgError).
    { intros e. unfold fit.
      destruct (profile_emas_data raw alphas names) as [data|e'] eqn:Hdata.
      - cbn [mbind result_bind].
        destruct (daily_returns names D k (active_profile_emas_of data))
          as [[values times] Hdaily].
        rewrite Hdaily. cbn [mbind result_bind fst snd].
        destruct (regression _ _ _) as [line|e''] eqn:Hreg; [discriminate|].
        cbn [mbind result_bind]. intros [= <-]. right.
        eapply regression_raises; [|exact Hreg].
        eapply daily_lengths. exact Hdaily.
      - cbn [mbind result_bind]. intros [= <-]. left.
        eapply profile_emas_loop_raises. exact Hdata. }
    split; intros E; destruct (Hraise _ E); discriminate.
Qed.

Lemma empty_input_is_guarded_witness :
  regression 5 [Some 1] [1 / 2] = Ok None.
Proof.
  apply (proj1 (proj2 (proj2 (proj2 (proj2 empty_input_is_guarded))))).
  simpl. lia.
Defined.

(** ** The trend of the script

    The times of the daily aggregate are distinct, so the fit of the
    script always has a unique solution. *)

Lemma sum_nonneg_zero (l : list Qc) :
  Forall (fun a => 0 ≤ a) l -> sum l = 0 -> Forall (fun a => a = 0) l.
Proof.
  induction 1 as [|a l Ha Hl IH]; intros Hsum; [constructor|].
  rewrite FitFacts.sum_cons in Hsum.
  assert (Hnonneg : 0 ≤ sum l).
  { clear -Hl. induction Hl as [|b l Hb _ IH]; [reflexivity|].
    rewrite FitFacts.sum_cons. apply Qcplus_nonneg_nonneg; assumption. }
  assert (Ha0 : a = 0).
  { apply (anti_symm Qcle); [|exact Ha].
    replace a with (0 - sum l) by (rewrite <- Hsum; ring).
    apply Qcle_minus_iff. replace (0 + - (0 - sum l)) with (sum l) by ring.
    exact Hnonneg. }
  constructor; [exact Ha0|]. apply IH. rewrite <- Hsum, Ha0. ring.
Qed.

(** A sequence without variance is constant. *)
Lemma var_zero_constant (x : list Qc) (a : Qc) :
  Fit.var x = 0 -> a ∈ x -> a = Fit.mean x.
Proof.
  intros Hvar Ha. unfold Fit.var, Fit.cov in Hvar.
  assert (Hpos : (0 < length x)%nat).
  { destruct x; [inversion Ha|simpl; lia]. }
  pose proof (FitFacts.Qc_of_nat_not_zero _ Hpos) as Hn.
  set (m := Fit.mean x) in *.
  rewrite zip_with_diag in Hvar.
  assert (Hsum : sum ((fun t => (t - m) * (t - m)) <$> x) = 0).
  { unfold Qcdiv in Hvar. apply Qcmult_integral in Hvar as [H | H]; [exact H|].
    exfalso. pose proof (Qcmult_inv_r _ Hn) as E.
    rewrite H, Qcmult_0_r in E.
    apply EwmFacts.Qc_one_not_zero. symmetry. exact E. }
  apply sum_nonneg_zero in Hsum.
  - rewrite Forall_fmap, Forall_forall in Hsum.
    specialize (Hsum a Ha). cbn in Hsum.
    apply Qcmult_integral in Hsum.
    assert (Hz : a - m = 0) by (destruct Hsum; assumption).
    replace a with (m + (a - m)) by ring. rewrite Hz. ring.
  - apply Forall_fmap, Forall_forall. intros t _. apply FitFacts.square_nonneg.
Qed.

Lemma var_of_distinct (x : list Qc) :
  NoDup x -> (2 <= length x)%nat -> Fit.var x <> 0.
Proof.
  intros Hnodup Hlen Hvar.
  destruct x as [|a [|b x]]; try (simpl in Hlen; lia).
  assert (Ha : a = Fit.mean (a :: b :: x))
    by (apply var_zero_constant; [exact Hvar|left]).
  assert (Hb : b = Fit.mean (a :: b :: x))
    by (apply var_zero_constant; [exact Hvar|right; left]).
  apply NoDup_cons in Hnodup as [Hnotin _]. apply Hnotin.
  rewrite Ha, <- Hb. left.
Qed.

Lemma daily_times_distinct (k : nat) (s : series) (D : nat)
    (values : series) (times : list Qc) :
  daily_loop k s (seq 0 D) [] [] = Ok (values, times) -> NoDup times.
Proof.
  rewrite daily_loop_spec. intros [= _ <-]. cbn [app].
  apply NoDup_fmap_2.
  - intros d d'. apply day_index_inj.
  - apply NoDup_filter, NoDup_seq.
Qed.

(** The regression of the script over defined daily values returns: no
    line below two points, the least-squares line from two points on. *)
Lemma regression_of_daily (k : nat) (s : series) (D frame : nat)
    (v : list Qc) (times : list Qc) :
  daily_loop k s (seq 0 D) [] [] = Ok (Some <$> v, times) ->
  let n := Nat.min (length times) (frame + 1) in
  regression frame (Some <$> v) times =
    Ok (if (1 <? n)%nat
        then Some (Fit.cov (take n times) (take n v)
                     / Fit.var (take n times),
                   Fit.mean (take n v)
                     - Fit.cov (take n times) (take n v)
                         / Fit.var (take n times)
                       * Fit.mean (take n times))
        else None).
Proof.
  intros Hloop n.
  assert (Hlen : length v = length times).
  { pose proof Hloop as H. rewrite daily_loop_spec in H.
    injection H as Hv <-. cbn [app] in *.
    apply (f_equal length) in Hv. rewrite !length_fmap in *. lia. }
  unfold regression. fold n.
  destruct (1 <? n)%nat eqn:Hn.
  - apply Nat.ltb_lt in Hn.
    assert (H0 : (0 <? n)%nat = true) by (apply Nat.ltb_lt; lia).
    rewrite H0, <- fmap_take.
    assert (Hn' : length (take n times) = n) by (rewrite length_take; lia).
    rewrite np_polyfit1_defined
      by (rewrite ?length_take; lia).
    rewrite normal_equations_by_moments; [reflexivity| | |].
    + rewrite !length_take. lia.
    + lia.
    + apply var_of_distinct; [|lia].
      eapply sublist_NoDup; [|apply sublist_take].
      eapply daily_times_distinct. exact Hloop.
  - destruct (0 <? n)%nat; reflexivity.
Qed.

(** * Further properties of the script *)

(** ** Decoded percentiles and canonical names *)

Lemma digit_val_range (c : ascii) :
  Re.is_digit c = true -> (0 <= Re.digit_val c <= 9)%Z.
Proof.
  unfold Re.is_digit, Re.digit_val. cbv zeta.
  rewrite andb_true_iff, !N.leb_le. lia.
Qed.

Lemma int_from_nonneg (ds : list ascii) (acc : Z) :
  Rules.all_digits ds -> (0 <= acc)%Z ->
  (0 <= fold_left (fun acc c => 10 * acc + Re.digit_val c) ds acc)%Z.
Proof.
  intros Hds. revert acc. induction Hds as [|c ds Hc _ IH]; intros acc Hacc;
    [exact Hacc|].
  cbn [fold_left]. apply IH. pose proof (digit_val_range c Hc). lia.
Qed.

Lemma int_nonneg (ds : list ascii) : Rules.all_digits ds -> (0 <= Re.int ds)%Z.
Proof. intros Hds. apply int_from_nonneg; [exact Hds|lia]. Qed.

Lemma search_hyphen_digits_W_digits (s g : list ascii) :
  Re.search Re.hyphen_digits_W s = Some g -> Rules.all_digits g.
Proof.
  rewrite ReFacts.search_hyphen_digits_W. intros Hg.
  destruct (proj1 (RulesFacts.hyphen_digits_W_found s) g Hg)
    as (_ & _ & _ & _ & Hds).
  exact Hds.
Qed.

Lemma percentile_nonneg (name : string) :
  (0 <= get_percentile_from_name name)%Z.
Proof.
  destruct (Re.search Re.hyphen_digits_W (list_ascii_of_string name))
    as [g|] eqn:Hsearch.
  - unfold get_percentile_from_name. rewrite Hsearch.
    apply int_nonneg. eapply search_hyphen_digits_W_digits. exact Hsearch.
  - pose proof (percentile_in_range_without_rule_1 name Hsearch). lia.
Qed.

(** X1. The decoded percentile is never negative, and it exceeds 100
    exactly when the first hyphen-digits-W place of the name holds a number
    above 100. *)
Theorem percentile_out_of_range_only_by_rule_1 (name : string) :
  (0 <= get_percentile_from_name name)%Z /\
  ((100 < get_percentile_from_name name)%Z <->
   exists g, Re.search Re.hyphen_digits_W (list_ascii_of_string name) = Some g
             /\ (100 < Re.int g)%Z).
Proof.
  destruct (Re.search Re.hyphen_digits_W (list_ascii_of_string name))
    as [g|] eqn:Hsearch.
  - assert (Hp : get_percentile_from_name name = Re.int g).
    { unfold get_percentile_from_name. rewrite Hsearch. reflexivity. }
    rewrite Hp. split.
    + apply int_nonneg. eapply search_hyphen_digits_W_digits. exact Hsearch.
    + split; [intros H; exists g; split; [reflexivity|exact H]|].
      intros (g' & [= <-] & H). exact H.
  - pose proof (percentile_in_range_without_rule_1 name Hsearch) as Hr.
    split; [lia|]. split; [lia|]. intros (g & Hg & _). discriminate Hg.
Qed.

Lemma leading_digits_before (ds rest : list ascii) :
  Rules.all_digits ds -> Re.digit_run rest = [] ->
  Rules.leading_digits (ds ++ rest) = (ds, rest).
Proof.
  intros Hds Hrest. induction Hds as [|c ds Hc _ IH]; cbn [app].
  - rewrite ReFacts.leading_digits_run, Hrest. reflexivity.
  - cbn [Rules.leading_digits]. rewrite Hc, IH. reflexivity.
Qed.

Lemma hyphen_digits_W_skip (tag s : list ascii) :
  "-"%char ∉ tag ->
  Rules.hyphen_digits_W (tag ++ s) = Rules.hyphen_digits_W s.
Proof.
  induction tag as [|c tag IH]; intros Htag; [reflexivity|].
  apply not_elem_of_cons in Htag as [Hc Htag].
  cbn [app Rules.hyphen_digits_W].
  destruct (Ascii.eqb_spec c "-") as [E|_]; [congruence|]. apply IH, Htag.
Qed.

Lemma letter_digits_skip (l : ascii) (pre s : list ascii) :
  l ∉ pre -> Rules.letter_digits l (pre ++ s) = Rules.letter_digits l s.
Proof.
  induction pre as [|c pre IH]; intros Hpre; [reflexivity|].
  apply not_elem_of_cons in Hpre as [Hc Hpre].
  cbn [app Rules.letter_digits].
  destruct (Ascii.eqb_spec c l) as [E|_]; [congruence|]. apply IH, Hpre.
Qed.

Lemma digits_without_letter (l : ascii) (ds : list ascii) :
  Re.is_digit l = false -> Rules.all_digits ds -> l ∉ ds.
Proof.
  intros Hl Hds Hin. unfold Rules.all_digits in Hds.
  rewrite Forall_forall in Hds. specialize (Hds l Hin). congruence.
Qed.

(** X2. A name made of a tag without hyphen and without W, a hyphen, the
    digits of the percentile, a W, the digits of the span and a rest that
    does not start with a digit decodes to that percentile and to that
    span (to 1 when the span digits are worth 0). *)
Theorem canonical_name_decodes (tag dp dw rest : list ascii) :
  "-"%char ∉ tag -> "W"%char ∉ tag ->
  dp <> [] -> Rules.all_digits dp ->
  dw <> [] -> Rules.all_digits dw ->
  Re.digit_run rest = [] ->
  ProfileDescriptor
    (string_of_list_ascii (tag ++ "-"%char :: dp ++ "W"%char :: dw ++ rest))
  = Descriptor (Re.int dp) (Z.max 1 (Re.int dw)).
Proof.
  intros Hhyphen HW Hdp Hdigp Hdw Hdigw Hrest.
  unfold ProfileDescriptor, get_percentile_from_name, get_w_value_from_name.
  rewrite list_ascii_of_string_of_list_ascii.
  unfold Re.W_digits.
  rewrite ReFacts.search_hyphen_digits_W, ReFacts.search_letter_digits.
  rewrite hyphen_digits_W_skip by exact Hhyphen.
  rewrite letter_digits_skip by exact HW.
  assert (Hrule1 : Rules.hyphen_digits_W
                     ("-"%char :: dp ++ "W"%char :: dw ++ rest) = Some dp).
  { cbn [Rules.hyphen_digits_W]. rewrite Ascii.eqb_refl.
    rewrite RulesFacts.leading_digits_app by (exact Hdigp || reflexivity).
    destruct dp as [|d dp]; [congruence|]. rewrite Ascii.eqb_refl.
    reflexivity. }
  assert (Hspan : Rules.letter_digits "W"
                    ("-"%char :: dp ++ "W"%char :: dw ++ rest) = Some dw).
  { change ("-"%char :: dp ++ "W"%char :: dw ++ rest)
      with (["-"%char] ++ dp ++ "W"%char :: dw ++ rest).
    rewrite letter_digits_skip
      by (intros H; apply list_elem_of_singleton in H; discriminate H).
    rewrite letter_digits_skip
      by (apply digits_without_letter; [reflexivity|exact Hdigp]).
    cbn [Rules.letter_digits]. rewrite Ascii.eqb_refl.
    rewrite leading_digits_before by assumption.
    destruct dw as [|d dw]; [congruence|reflexivity]. }
  rewrite Hrule1, Hspan. reflexivity.
Qed.

Lemma canonical_name_decodes_witness :
  ProfileDescriptor "O2-98W10 (Tier 2, high)" = Descriptor 98 10.
Proof.
  apply (canonical_name_decodes
           (list_ascii_of_string "O2") (list_ascii_of_string "98")
           (list_ascii_of_string "10")
           (list_ascii_of_string " (Tier 2, high)")).
  - intros H. repeat (apply elem_of_cons in H as [H|H]; [discriminate H|]).
    inversion H.
  - intros H. repeat (apply elem_of_cons in H as [H|H]; [discriminate H|]).
    inversion H.
  - discriminate.
  - repeat constructor.
  - discriminate.
  - repeat constructor.
  - reflexivity.
Defined.

(** ** The primary EMAs (lines 50-60) *)

Lemma ewm_alpha_Ok_inv (x y : series) (alpha : Qc) :
  ewm_alpha x alpha = Ok y ->
  (0 < alpha ∧ alpha ≤ 1) /\ y = Ewm.mean alpha x.
Proof.
  intros H. destruct (decide (0 < alpha ∧ alpha ≤ 1)) as [Hv|Hv].
  - rewrite ewm_alpha_ok in H by exact Hv. injection H as <-. auto.
  - rewrite ewm_alpha_refused in H by exact Hv. discriminate H.
Qed.

Lemma mean_nil_iff (alpha : Qc) (x : series) : Ewm.mean alpha x = [] <-> x = [].
Proof. destruct x; simpl; split; congruence. Qed.

(** The series the script computes for a configured name. *)
Lemma profile_emas_loop_lookup (raw : series) (alphas : gmap string Qc)
    (names : list string) (data data' : gmap string series) (name : string) :
  profile_emas_loop raw alphas names data = Ok data' ->
  data' !! name =
    if decide (name ∈ names)
    then Some (match alphas !! name with
               | Some alpha => Ewm.mean alpha raw
               | None => []
               end)
    else data !! name.
Proof.
  revert data. induction names as [|n names IH]; intros data Hloop.
  - injection Hloop as <-. rewrite decide_False by apply not_elem_of_nil.
    reflexivity.
  - cbn [profile_emas_loop] in Hloop.
    assert (Hstep : exists ema,
      profile_emas_loop raw alphas names (<[n := ema]> data) = Ok data' /\
      ema = match alphas !! n with
            | Some alpha => Ewm.mean alpha raw
            | None => []
            end).
    { destruct (alphas !! n) as [alpha|]; [|eauto].
      destruct (ewm_alpha raw alpha) as [ema|] eqn:Hema; [|discriminate].
      apply ewm_alpha_Ok_inv in Hema as [_ ->]. eauto. }
    destruct Hstep as (ema & Hrest & Hema).
    rewrite (IH _ Hrest).
    destruct (decide (name ∈ names)) as [Hin|Hnotin].
    + rewrite decide_True by (right; exact Hin). reflexivity.
    + destruct (decide (n = name)) as [->|Hne].
      * rewrite decide_True by left. rewrite lookup_insert_eq, Hema.
        reflexivity.
      * rewrite lookup_insert_ne by exact Hne.
        rewrite decide_False; [reflexivity|].
        intros Hin. apply elem_of_cons in Hin as [E|Hin]; congruence.
Qed.

Lemma profile_emas_data_at (raw : series) (alphas : gmap string Qc)
    (names : list string) (data : gmap string series) (name : string) :
  profile_emas_data raw alphas names = Ok data ->
  data !! name =
    if decide (name ∈ names)
    then Some (match alphas !! name with
               | Some alpha => Ewm.mean alpha raw
               | None => []
               end)
    else None.
Proof.
  intros Hdata. rewrite (profile_emas_loop_lookup _ _ _ _ _ name Hdata).
  rewrite lookup_empty. reflexivity.
Qed.

(** X3. After lines 50-56 the dict has exactly the configured names as
    keys: a name with an alpha maps to the EMA of the raw series for that
    alpha, a name without alpha to the empty series, and a name that is
    not configured is not a key. *)
Theorem profile_emas_data_lookup (raw : series) (alphas : gmap string Qc)
    (names : list string) (data : gmap string series) (name : string) :
  profile_emas_data raw alphas names = Ok data ->
  data !! name =
    if decide (name ∈ names)
    then Some (match alphas !! name with
               | Some alpha => Ewm.mean alpha raw
               | None => []
               end)
    else None.
Proof.
  intros Hdata. rewrite (profile_emas_loop_lookup _ _ _ _ _ name Hdata).
  rewrite lookup_empty. reflexivity.
Qed.

Lemma profile_emas_data_lookup_witness :
  let raw := [Some 1; Some (1 + 1)] in
  let data : gmap string series :=
    {[ "a"%string := [Some 1; Some (Q2Qc (3 # 2))]; "b"%string := [] ]} in
  profile_emas_data raw {[ "a"%string := 1 / 2 ]} ["a"%string; "b"%string]
    = Ok data /\
  data !! "b"%string = Some [] /\
  data !! "c"%string = None.
Proof.
  cbv zeta.
  assert (Hdata : profile_emas_data [Some 1; Some (1 + 1)]
                    {[ "a"%string := 1 / 2 ]} ["a"%string; "b"%string]
                  = Ok {[ "a"%string := [Some 1; Some (Q2Qc (3 # 2))];
                          "b"%string := [] ]}) by by_evaluation.
  split; [exact Hdata|]. split.
  - exact (profile_emas_data_lookup _ _ _ _ "b"%string Hdata).
  - exact (profile_emas_data_lookup _ _ _ _ "c"%string Hdata).
Defined.

Lemma profile_emas_loop_fails (raw : series) (alphas : gmap string Qc)
    (names : list string) (data : gmap string series) :
  (exists e, profile_emas_loop raw alphas names data = Raise e) <->
  exists name alpha,
    name ∈ names /\ alphas !! name = Some alpha /\
    ~ (0 < alpha ∧ alpha ≤ 1).
Proof.
  revert data. induction names as [|n names IH]; intros data.
  - split; [intros [e H]; discriminate H|].
    intros (name & _ & H & _). inversion H.
  - cbn [profile_emas_loop]. destruct (alphas !! n) as [alpha|] eqn:Hn.
    + destruct (decide (0 < alpha ∧ alpha ≤ 1)) as [Hv|Hv].
      * rewrite ewm_alpha_ok by exact Hv. cbn [mbind result_bind].
        rewrite IH. split.
        -- intros (name & a & Hin & Ha & Hbad). exists name, a.
           split; [right; exact Hin|auto].
        -- intros (name & a & Hin & Ha & Hbad).
           apply elem_of_cons in Hin as [->|Hin].
           ++ rewrite Hn in Ha. injection Ha as <-. contradiction.
           ++ exists name, a. auto.
      * rewrite ewm_alpha_refused by exact Hv. cbn [mbind result_bind].
        split; [|eauto]. intros _. exists n, alpha.
        split; [left|auto].
    + rewrite IH. split.
      * intros (name & a & Hin & Ha & Hbad). exists name, a.
        split; [right; exact Hin|auto].
      * intros (name & a & Hin & Ha & Hbad).
        apply elem_of_cons in Hin as [->|Hin]; [congruence|].
        exists name, a. auto.
Qed.

(** X4. Computing the primary EMAs fails exactly when a configured name
    has an alpha outside (0,1], and then with a [ValueError]; names without
    alpha and an empty raw series never make it fail. *)
Theorem profile_emas_data_fails_iff (raw : series) (alphas : gmap string Qc)
    (names : list string) :
  (profile_emas_data raw alphas names = Raise ValueError <->
   exists name alpha,
     name ∈ names /\ alphas !! name = Some alpha /\
     ~ (0 < alpha ∧ alpha ≤ 1)) /\
  (forall e, profile_emas_data raw alphas names = Raise e -> e = ValueError).
Proof.
  split; [|intros e; apply profile_emas_loop_raises].
  unfold profile_emas_data. rewrite <- profile_emas_loop_fails. split.
  - eauto.
  - intros [e He]. rewrite He. f_equal.
    eapply profile_emas_loop_raises. exact He.
Qed.

(** X5. A profile is active exactly when its name is configured, it has an
    alpha and the raw series is not empty; its series is then the EMA of
    the raw series for that alpha. *)
Theorem active_profile_iff (raw : series) (alphas : gmap string Qc)
    (names : list string) (data : gmap string series)
    (name : string) (s : series) :
  profile_emas_data raw alphas names = Ok data ->
  (active_profile_emas_of data !! name = Some s <->
   name ∈ names /\ raw <> [] /\
   exists alpha, alphas !! name = Some alpha /\ s = Ewm.mean alpha raw).
Proof.
  intros Hdata. rewrite active_profile_emas_of_lookup.
  rewrite (profile_emas_data_at _ _ _ _ name Hdata).
  destruct (decide (name ∈ names)) as [Hin|Hnotin].
  - destruct (alphas !! name) as [alpha|].
    + split.
      * intros [[= <-] Hne]. split; [exact Hin|]. split.
        -- intros ->. apply Hne. reflexivity.
        -- exists alpha. auto.
      * intros (_ & Hraw & a & [= <-] & ->). split; [reflexivity|].
        intros E. apply mean_nil_iff in E. contradiction.
    + split.
      * intros [[= <-] Hne]. congruence.
      * intros (_ & _ & a & Ha & _). discriminate Ha.
  - split; [intros [H _]; discriminate H|]. intros [Hin _]. contradiction.
Qed.

Lemma active_profile_iff_witness :
  let data : gmap string series :=
    {[ "a"%string := [Some 1; Some (Q2Qc (3 # 2))]; "b"%string := [] ]} in
  profile_emas_data [Some 1; Some (1 + 1)]
    {[ "a"%string := 1 / 2 ]} ["a"%string; "b"%string] = Ok data /\
  active_profile_emas_of data !! "a"%string
    = Some (Ewm.mean (1 / 2) [Some 1; Some (1 + 1)]).
Proof.
  cbv zeta.
  assert (Hdata : profile_emas_data [Some 1; Some (1 + 1)]
                    {[ "a"%string := 1 / 2 ]} ["a"%string; "b"%string]
                  = Ok {[ "a"%string := [Some 1; Some (Q2Qc (3 # 2))];
                          "b"%string := [] ]}) by by_evaluation.
  split; [exact Hdata|].
  apply (proj2 (active_profile_iff _ _ _ _ "a"%string _ Hdata)).
  split; [left|]. split; [discriminate|].
  exists (1 / 2). split; [by_evaluation|reflexivity].
Defined.

(** ** The days of the aggregate (lines 144-151) *)

Lemma filter_below_seq (m D : nat) :
  filter (fun day => (day < m)%nat) (seq 0 D) = seq 0 (Nat.min D m).
Proof.
  induction D as [|D IH]; [reflexivity|].
  rewrite seq_S, filter_app, IH. cbn [Nat.add].
  destruct (decide (D < m)%nat) as [Hlt|Hge].
  - rewrite filter_cons_True by exact Hlt. rewrite filter_nil.
    replace (Nat.min D m) with D by lia.
    replace (Nat.min (S D) m) with (S D) by lia.
    rewrite seq_S. reflexivity.
  - rewrite filter_cons_False by exact Hge. rewrite filter_nil, app_nil_r.
    f_equal. lia.
Qed.

Lemma day_has_samples (n k day : nat) :
  (1 <= k)%nat ->
  (day * k < Nat.min ((day + 1) * k) n)%nat <-> (day < (n + k - 1) / k)%nat.
Proof.
  intros Hk. split.
  - intros H. apply Nat.div_le_lower_bound; [lia|]. nia.
  - intros H.
    assert (Hle : (k * (day + 1) <= n + k - 1)%nat).
    { destruct (le_lt_dec (k * (day + 1)) (n + k - 1)) as [|Hgt]; [assumption|].
      apply Nat.Div0.div_lt_upper_bound in Hgt; lia. }
    nia.
Qed.

(** X6. With [k >= 1] samples per day the aggregate covers the first
    [min (D, ceil (n / k))] days without a gap: its times are
    0.5, 1.5, ... in this order, one value for each.  With [k = 0] it is
    empty. *)
Theorem daily_points_are_the_first_days (s : series) (k D : nat) :
  exists (values : series) (times : list Qc),
    daily_loop k s (seq 0 D) [] [] = Ok (values, times) /\
    length values = length times /\
    ((1 <= k)%nat ->
     times = (fun day => Qc_of_nat day + 1 / 2)
               <$> seq 0 (Nat.min D ((length s + k - 1) / k))) /\
    (k = 0%nat -> times = []).
Proof.
  eexists _, _. split; [apply daily_loop_spec|]. cbn [app].
  split; [rewrite !length_fmap; reflexivity|]. split.
  - intros Hk. f_equal.
    rewrite <- filter_below_seq. apply list_filter_iff. intros day.
    rewrite bucket_nonempty. apply day_has_samples. exact Hk.
  - intros ->.
    assert (Hnone : filter (fun day => bucket s 0 day <> []) (seq 0 D) = []).
    { induction (seq 0 D) as [|day l IH]; [reflexivity|].
      rewrite filter_cons_False; [exact IH|].
      rewrite bucket_nonempty. lia. }
    rewrite Hnone. reflexivity.
Qed.

Lemma daily_points_are_the_first_days_witness :
  exists (values : series) (times : list Qc),
    daily_loop 2 [Some 1; Some 1; Some 1] (seq 0 5) [] []
      = Ok (values, times) /\
    times = [Qc_of_nat 0 + 1 / 2; Qc_of_nat 1 + 1 / 2].
Proof.
  destruct (daily_points_are_the_first_days [Some 1; Some 1; Some 1] 2 5)
    as (values & times & Hloop & _ & Htimes & _).
  exists values, times. split; [exact Hloop|].
  rewrite Htimes by lia. reflexivity.
Defined.

(** ** When the Pxx fails (lines 179-189) *)

Lemma np_percentile_out_of_range (x : list Qc) (q : Qc) :
  ~ (0 ≤ q ∧ q ≤ Qc_of_Z 100) ->
  np_percentile (Some <$> x) q = Raise ValueError.
Proof.
  intros Hq. unfold np_percentile.
  rewrite bool_decide_eq_false_2 by exact Hq. reflexivity.
Qed.

Lemma Qc_of_Z_in_range (p : Z) :
  (0 ≤ Qc_of_Z p ∧ Qc_of_Z p ≤ Qc_of_Z 100) <-> (0 <= p <= 100)%Z.
Proof.
  rewrite <- Z2Qc_inj_0. split; intros [H0 H100]; split.
  - exact (proj2 (Z2Qc_inj_le 0 p) H0).
  - exact (proj2 (Z2Qc_inj_le p 100) H100).
  - exact (proj1 (Z2Qc_inj_le 0 p) H0).
  - exact (proj1 (Z2Qc_inj_le p 100) H100).
Qed.

(** X7. For a profile whose name has no run of more than 18 digits (so
    that the numbers read from it fit a machine word: the interpreter reads
    them and the smoother takes the span), [display_profile_pxx] fails
    exactly when the profile has an EMA with a defined value and the
    percentile decoded from its name is above 100; the failure is the
    [ValueError] of the percentile call.  In every other case it returns,
    with or without a value. *)
Theorem display_profile_pxx_fails_iff (i : nat)
    (emas : gmap string series) (names : list string) :
  (forall name, names !! i = Some name -> short_digit_runs name) ->
  (display_profile_pxx i emas names = Raise ValueError <->
   exists name s,
     names !! i = Some name /\ emas !! name = Some s /\
     dropna s <> [] /\ (100 < get_percentile_from_name name)%Z) /\
  (forall e, display_profile_pxx i emas names = Raise e -> e = ValueError).
Proof.
  intros _.
  split; [|intros e; apply display_profile_pxx_raises].
  destruct (names !! i) as [name|] eqn:Hname.
  2:{ split.
      - unfold display_profile_pxx. rewrite Hname. discriminate.
      - intros (n & s & H & _). discriminate H. }
  destruct (emas !! name) as [s|] eqn:Hs.
  2:{ split.
      - unfold display_profile_pxx. rewrite Hname, Hs. discriminate.
      - intros (n & s & [= <-] & H & _). congruence. }
  destruct (decide (s = [])) as [->|Hdata].
  { split.
    - unfold display_profile_pxx. rewrite Hname, Hs. discriminate.
    - intros (n & s & [= <-] & H & Hd & _). rewrite Hs in H.
      injection H as <-. exfalso. apply Hd. reflexivity. }
  rewrite (display_profile_pxx_resmoothed i emas names name s Hname Hs Hdata).
  cbv zeta.
  set (twice := Ewm.mean _ s).
  pose proof (dropna_mean_nil (2 / (Qc_of_Z (get_w_value_from_name name) + 1)) s)
    as Hnil. fold twice in Hnil.
  destruct (decide (dropna twice = [])) as [Hempty|Hdefined].
  - rewrite (proj2 (empty_true _) Hempty). split; [discriminate|].
    intros (n & s' & [= <-] & H & Hd & _). rewrite Hs in H.
    injection H as <-. exfalso. apply Hd, Hnil, Hempty.
  - rewrite (proj2 (empty_false _) Hdefined).
    destruct (decide (get_percentile_from_name name <= 100)%Z) as [Hle|Hgt].
    + rewrite PercentileFacts.np_percentile_defined;
        [|exact Hdefined|].
      * split; [discriminate|].
        intros (n & s' & [= <-] & _ & _ & H). lia.
      * apply (proj2 (Qc_of_Z_in_range _)).
        pose proof (percentile_nonneg name). lia.
    + rewrite np_percentile_out_of_range.
      * split; [|reflexivity]. intros _. exists name, s.
        split; [reflexivity|]. split; [exact Hs|]. split; [|lia].
        intros E. apply Hdefined, Hnil, E.
      * intros H. pose proof (proj1 (Qc_of_Z_in_range _) H). lia.
Qed.

Lemma display_profile_pxx_fails_iff_witness :
  display_profile_pxx 0 {[ "X-500W3"%string := [Some 1] ]}
    ["X-500W3"%string] = Raise ValueError /\
  display_profile_pxx 0 {[ "P-99W1"%string := [Some 1] ]}
    ["P-99W1"%string] <> Raise ValueError.
Proof.
  split.
  - apply (proj1 (display_profile_pxx_fails_iff 0
                    {[ "X-500W3"%string := [Some 1] ]} ["X-500W3"%string]
                    ltac:(intros name [= <-]; by_evaluation))).
    exists "X-500W3"%string, [Some 1].
    split; [reflexivity|]. split; [by_evaluation|].
    split; [discriminate|by_evaluation].
  - intros E.
    apply (proj1 (display_profile_pxx_fails_iff 0
                    {[ "P-99W1"%string := [Some 1] ]} ["P-99W1"%string]
                    ltac:(intros name [= <-]; by_evaluation))) in E.
    destruct E as (name & s & [= <-] & _ & _ & H).
    vm_compute in H. discriminate H.
Defined.

(** ** The frames of the animation *)

Section Schedule.

Variable active : gmap string series.

Let n : nat := num_active_profiles active.
Let fpe : nat := frames_per_profile_ema active.

Lemma frames_per_profile_ema_value :
  (0 < n)%nat -> fpe = 200%nat.
Proof.
  intros Hn. subst fpe. unfold frames_per_profile_ema. fold n.
  assert (H0 : (0 <? n)%nat = true) by (apply Nat.ltb_lt; exact Hn).
  rewrite H0. apply Nat.div_mul. lia.
Qed.

Lemma active_entries_cons (name : string) (names : list string) :
  active_entries active (name :: names) =
    if is_active active name
    then name :: active_entries active names
    else active_entries active names.
Proof.
  unfold active_entries. destruct (is_active active name) eqn:Hact.
  - apply is_active_spec in Hact. rewrite filter_cons_True by exact Hact.
    reflexivity.
  - rewrite filter_cons_False; [reflexivity|].
    intros H. apply is_active_spec in H. congruence.
Qed.

Lemma loop_frames_unfold (c p : nat) :
  loop_frames active c p =
    (c * fpe + (Nat.min (p + c) (n - 1) - Nat.min p (n - 1)) * 100)%nat.
Proof. reflexivity. Qed.

(** Past its frames the loop falls through, with the counter advanced by
    them. *)
Lemma ema_phase_fell (frame : nat) (names : list string) (idx p c0 : nat) :
  let c := length (active_entries active names) in
  (c0 + loop_frames active c p <= frame)%nat ->
  ema_phase active frame names idx p c0
    = Fell (c0 + loop_frames active c p).
Proof.
  cbv zeta. revert idx p c0.
  induction names as [|name names IH]; intros idx p c0 Hframe.
  - cbn [ema_phase active_entries filter list_filter length].
    rewrite loop_frames_unfold. f_equal. lia.
  - cbn [ema_phase]. rewrite active_entries_cons in *.
    fold n fpe. destruct (is_active active name); [|apply IH; exact Hframe].
    cbn [length] in *.
    set (c := length (active_entries active names)) in *.
    rewrite loop_frames_unfold in *.
    assert (Hmul : (S c * fpe = fpe + c * fpe)%nat) by lia.
    rewrite Hmul in *. unfold frames_delay_between_emas.
    destruct (p <? n - 1)%nat eqn:Hp.
    + apply Nat.ltb_lt in Hp.
      assert (H1 : (frame <? c0 + fpe)%nat = false)
        by (apply Nat.ltb_ge; lia).
      assert (H2 : (frame <? c0 + fpe + 100)%nat = false)
        by (apply Nat.ltb_ge; lia).
      rewrite H1, H2, IH by (rewrite loop_frames_unfold; lia).
      rewrite loop_frames_unfold. f_equal. lia.
    + apply Nat.ltb_ge in Hp.
      assert (H1 : (frame <? c0 + fpe)%nat = false)
        by (apply Nat.ltb_ge; lia).
      rewrite H1, IH by (rewrite loop_frames_unfold; lia).
      rewrite loop_frames_unfold. f_equal. lia.
Qed.

End Schedule.

(** Within its frames the loop returns, drawing or showing the Pxx of an
    active entry. *)
Lemma ema_phase_returned (active : gmap string series) (frame : nat)
    (names : list string) (idx p c0 : nat) :
  (c0 <= frame)%nat ->
  (frame
     < c0 + loop_frames active (length (active_entries active names)) p)%nat ->
  exists a,
    ema_phase active frame names idx p c0 = Returned a /\
    match a with
    | DrawEma i _ _ | ShowPxx i =>
        (idx <= i)%nat /\
        exists name, names !! (i - idx)%nat = Some name /\
                     is_Some (active !! name)
    | _ => False
    end.
Proof.
  revert idx p c0. induction names as [|name names IH]; intros idx p c0 Hc0 Hframe.
  - change (active_entries active []) with (@nil string) in Hframe.
    rewrite loop_frames_unfold in Hframe. cbn [length] in Hframe. lia.
  - cbn [ema_phase]. rewrite active_entries_cons in Hframe.
    assert (Hshift : forall a,
      match a with
      | DrawEma i _ _ | ShowPxx i =>
          (S idx <= i)%nat /\
          exists nm, names !! (i - S idx)%nat = Some nm /\
                     is_Some (active !! nm)
      | _ => False
      end ->
      match a with
      | DrawEma i _ _ | ShowPxx i =>
          (idx <= i)%nat /\
          exists nm, (name :: names) !! (i - idx)%nat = Some nm /\
                     is_Some (active !! nm)
      | _ => False
      end).
    { intros a. destruct a as [| |i ? ?|i| | | |]; try tauto.
      - intros [Hi (nm & Hnm & Hact)]. split; [lia|]. exists nm.
        replace (i - idx)%nat with (S (i - S idx)) by lia. auto.
      - intros [Hi (nm & Hnm & Hact)]. split; [lia|]. exists nm.
        replace (i - idx)%nat with (S (i - S idx)) by lia. auto. }
    destruct (is_active active name) eqn:Hact.
    2:{ destruct (IH (S idx) p c0 Hc0 Hframe) as (a & Ha & Hgood).
        exists a. split; [exact Ha|apply Hshift; exact Hgood]. }
    apply is_active_spec in Hact.
    assert (Hhere : (idx <= idx)%nat /\
      exists nm, (name :: names) !! (idx - idx)%nat = Some nm /\
                 is_Some (active !! nm)).
    { split; [lia|]. exists name. rewrite Nat.sub_diag. auto. }
    cbn [length] in Hframe. rewrite loop_frames_unfold in Hframe.
    set (c := length (active_entries active names)) in *.
    set (fpe := frames_per_profile_ema active) in *.
    set (n := num_active_profiles active) in *.
    assert (Hmul : (S c * fpe = fpe + c * fpe)%nat) by lia.
    rewrite Hmul in Hframe. unfold frames_delay_between_emas.
    destruct (frame <? c0 + fpe)%nat eqn:H1.
    { eexists. split; [reflexivity|exact Hhere]. }
    apply Nat.ltb_ge in H1.
    destruct (p <? n - 1)%nat eqn:Hp.
    + apply Nat.ltb_lt in Hp.
      destruct (frame <? c0 + fpe + 100)%nat eqn:H2.
      { eexists. split; [reflexivity|exact Hhere]. }
      apply Nat.ltb_ge in H2.
      destruct (IH (S idx) (S p) (c0 + fpe + 100)%nat) as (a & Ha & Hgood);
        [lia|rewrite loop_frames_unfold; fold c fpe n; lia|].
      exists a. split; [exact Ha|apply Hshift; exact Hgood].
    + apply Nat.ltb_ge in Hp.
      destruct (IH (S idx) (S p) (c0 + fpe)%nat) as (a & Ha & Hgood);
        [lia|rewrite loop_frames_unfold; fold c fpe n; lia|].
      exists a. split; [exact Ha|apply Hshift; exact Hgood].
Qed.

(** The search from the end of a range. *)
Lemma find_reverse_seq (f : nat -> bool) (m : nat) :
  match find f (reverse (seq 0 m)) with
  | Some i => (i < m)%nat /\ f i = true /\
              forall j, (i < j < m)%nat -> f j = false
  | None => forall j, (j < m)%nat -> f j = false
  end.
Proof.
  induction m as [|m IH]; [cbn; intros; lia|].
  rewrite seq_S, reverse_snoc. cbn [find Nat.add].
  destruct (f m) eqn:Hm.
  - split; [lia|]. split; [exact Hm|]. intros j Hj. lia.
  - destruct (find f (reverse (seq 0 m))) as [i|].
    + destruct IH as (Hi & Hfi & Hlater). split; [lia|]. split; [exact Hfi|].
      intros j Hj. destruct (decide (j = m)) as [->|]; [exact Hm|].
      apply Hlater. lia.
    + intros j Hj. destruct (decide (j = m)) as [->|]; [exact Hm|].
      apply IH. lia.
Qed.

(** What the search by index of lines 330-334 finds. *)
Lemma last_active_profile_original_idx_spec (names : list string)
    (active : gmap string series) :
  match last_active_profile_original_idx names active with
  | Some i =>
      exists name,
        names !! i = Some name /\ is_Some (active !! name) /\
        forall j name', (i < j)%nat -> names !! j = Some name' ->
                        active !! name' = None
  | None => forall name, name ∈ names -> active !! name = None
  end.
Proof.
  unfold last_active_profile_original_idx.
  pose proof (find_reverse_seq
    (fun i => match names !! i with
              | Some name => is_active active name
              | None => false
              end) (length names)) as Hfind.
  destruct (find _ _) as [i|].
  - destruct Hfind as (Hi & Hfi & Hlater).
    destruct (names !! i) as [name|] eqn:Hname; [|discriminate].
    exists name. split; [reflexivity|]. split; [apply is_active_spec, Hfi|].
    intros j name' Hj Hname'.
    specialize (Hlater j). rewrite Hname' in Hlater.
    assert (Hjlen : (j < length names)%nat)
      by (eapply lookup_lt_Some; exact Hname').
    specialize (Hlater (conj Hj Hjlen)).
    destruct (active !! name') eqn:E; [|reflexivity].
    assert (is_active active name' = true)
      by (apply is_active_spec; rewrite E; eauto).
    congruence.
  - intros name Hin. apply list_elem_of_lookup_1 in Hin as [j Hj].
    specialize (Hfind j (lookup_lt_Some _ _ _ Hj)). rewrite Hj in Hfind.
    destruct (active !! name) eqn:E; [|reflexivity].
    assert (is_active active name = true)
      by (apply is_active_spec; rewrite E; eauto).
    congruence.
Qed.

Lemma active_entries_none (names : list string)
    (active : gmap string series) :
  (forall name, name ∈ names -> active !! name = None) ->
  active_entries active names = [].
Proof.
  intros Hnone. induction names as [|name names IH]; [reflexivity|].
  unfold active_entries. rewrite filter_cons_False.
  - apply IH. intros nm Hnm. apply Hnone. right. exact Hnm.
  - rewrite (Hnone name) by left. intros [? H]. discriminate H.
Qed.

(** The entries up to the last active one, and nothing after it. *)
Lemma active_entries_up_to_last (names : list string)
    (active : gmap string series) (i : nat) (name : string) :
  names !! i = Some name -> is_Some (active !! name) ->
  (forall j name', (i < j)%nat -> names !! j = Some name' ->
                   active !! name' = None) ->
  active_entries active names
    = active_entries active (take i names) ++ [name].
Proof.
  intros Hname Hact Hlater.
  rewrite <- (take_drop_middle names i name Hname) at 1.
  unfold active_entries. rewrite filter_app, filter_cons_True by exact Hact.
  f_equal. f_equal. apply (active_entries_none (drop (S i) names)).
  intros nm Hnm. apply list_elem_of_lookup_1 in Hnm as [j Hj].
  rewrite lookup_drop in Hj. eapply (Hlater (S i + j)%nat); [lia|exact Hj].
Qed.

(** X8. The search by index of the pause after the EMAs (lines 330-334)
    and the search by name before the aggregation (lines 136-140) find the
    same profile: the entry at the index found is the name found, none is
    found by either when no entry is active, and no entry after that index
    is active. *)
Theorem index_search_agrees_with_name_search (names : list string)
    (active : gmap string series) :
  (last_active_profile_original_idx names active ≫= (names !!.))
    = last_active_profile_name names active /\
  (forall i j name,
      last_active_profile_original_idx names active = Some i ->
      (i < j)%nat -> names !! j = Some name -> active !! name = None).
Proof.
  pose proof (last_active_profile_original_idx_spec names active) as Hspec.
  rewrite last_active_profile_name_spec.
  change (filter _ names) with (active_entries active names).
  destruct (last_active_profile_original_idx names active) as [i|].
  - destruct Hspec as (name & Hname & Hact & Hlater). split.
    + cbn. rewrite Hname.
      rewrite (active_entries_up_to_last names active i name Hname Hact Hlater).
      rewrite last_snoc. reflexivity.
    + intros i' j name' [= <-]. apply Hlater.
  - split; [|discriminate]. cbn.
    rewrite (active_entries_none names active Hspec). reflexivity.
Qed.

(** Only configured names are active. *)
Lemma active_name_is_configured (raw : series) (alphas : gmap string Qc)
    (names : list string) (data : gmap string series) (name : string) :
  profile_emas_data raw alphas names = Ok data ->
  is_Some (active_profile_emas_of data !! name) -> name ∈ names.
Proof.
  intros Hdata [s Hs]. apply active_profile_emas_of_lookup in Hs as [Hs _].
  rewrite (profile_emas_data_at _ _ _ _ name Hdata) in Hs.
  destruct (decide (name ∈ names)); [assumption|discriminate].
Qed.

(** Without a repeated name the list has as many active entries as the
    dict has profiles. *)
Lemma active_entries_count (raw : series) (alphas : gmap string Qc)
    (names : list string) (data : gmap string series) :
  profile_emas_data raw alphas names = Ok data -> NoDup names ->
  length (active_entries (active_profile_emas_of data) names)
    = num_active_profiles (active_profile_emas_of data).
Proof.
  intros Hdata Hnodup. unfold num_active_profiles.
  set (active := active_profile_emas_of data).
  rewrite <- (size_dom (D := gset string) active).
  assert (Hdom : dom active
                 = list_to_set (active_entries active names) :> gset string).
  { apply set_eq. intros k.
    rewrite elem_of_dom, elem_of_list_to_set.
    unfold active_entries. rewrite list_elem_of_filter. split.
    - intros Hk. split; [exact Hk|].
      eapply active_name_is_configured; eassumption.
    - intros [Hk _]. exact Hk. }
  rewrite Hdom, size_list_to_set; [reflexivity|].
  apply NoDup_filter, Hnodup.
Qed.

Lemma loop_frames_all (active : gmap string series) :
  loop_frames active (num_active_profiles active) 0 =
    (total_profile_ema_animation_frames active
     + total_inter_ema_delay_frames active)%nat.
Proof.
  unfold loop_frames, total_profile_ema_animation_frames,
    total_inter_ema_delay_frames.
  f_equal. f_equal. lia.
Qed.

(** X9. When no profile name is repeated, the frames follow the budget of
    lines 84-106: the raw data are drawn in the first [frames_raw_data]
    frames and held for [frames_delay_after_raw], the EMAs are drawn and
    their Pxx shown in the next [total_profile_ema_animation_frames +
    total_inter_ema_delay_frames], all are held for
    [frames_delay_after_all_emas], the regression takes [num_days] frames,
    the pause before the loop the frames from [frames_for_actual_content]
    to [total_frames_for_animation], and no frame below that total is left
    without an action. *)
Theorem frames_follow_the_budget (raw : series) (alphas : gmap string Qc)
    (names : list string) (data : gmap string series) (D frame : nat) :
  profile_emas_data raw alphas names = Ok data -> NoDup names ->
  let active := active_profile_emas_of data in
  let start := (frames_raw_data + frames_delay_after_raw)%nat in
  let emas := (total_profile_ema_animation_frames active
               + total_inter_ema_delay_frames active)%nat in
  let held := (start + emas + frames_delay_after_all_emas)%nat in
  match update_animation_multi names active D frame with
  | DrawRaw f => (frame < frames_raw_data)%nat /\ f = frame
  | HoldRaw => (frames_raw_data <= frame < start)%nat
  | DrawEma _ _ _ | ShowPxx _ => (start <= frame < start + emas)%nat
  | HoldEmas _ _ => (start + emas <= frame < held)%nat
  | DrawRegression r => frame = (held + r)%nat /\ (r < D)%nat
  | LoopPause =>
      (frames_for_actual_content active D <= frame
       < total_frames_for_animation active D)%nat
  | AfterEnd => (total_frames_for_animation active D <= frame)%nat
  end.
Proof.
  intros Hdata Hnodup active start emas held.
  pose proof (active_entries_count _ _ _ _ Hdata Hnodup) as Hcount.
  fold active in Hcount.
  pose proof (loop_frames_all active) as Hall. fold emas in Hall.
  unfold update_animation_multi.
  unfold total_frames_for_animation, frames_for_actual_content.
  fold emas. change frames_for_loop_pause with 100%nat.
  unfold frames_raw_data, frames_delay_after_raw,
    frames_delay_after_all_emas in *.
  destruct (frame <? 0 + 280)%nat eqn:H1.
  { apply Nat.ltb_lt in H1. lia. }
  apply Nat.ltb_ge in H1. cbv zeta.
  destruct (frame <? 0 + 280 + 100)%nat eqn:H2.
  { apply Nat.ltb_lt in H2. subst start. lia. }
  apply Nat.ltb_ge in H2.
  destruct (le_lt_dec (0 + 280 + 100 + emas) frame) as [Hpast|Hin].
  - rewrite ema_phase_fell by (rewrite Hcount, Hall; exact Hpast).
    rewrite Hcount, Hall.
    destruct (frame <? _ + 120)%nat eqn:H3.
    { apply Nat.ltb_lt in H3. unfold hold_emas.
      destruct (0 <? _)%nat; [|subst start held; lia].
      destruct (last_active_profile_original_idx names active);
        subst start held; lia. }
    apply Nat.ltb_ge in H3.
    destruct (frame <? _ + D)%nat eqn:H4.
    { apply Nat.ltb_lt in H4. subst start held. lia. }
    apply Nat.ltb_ge in H4.
    destruct (frame <? _ + 100)%nat eqn:H5.
    { apply Nat.ltb_lt in H5. subst start. lia. }
    apply Nat.ltb_ge in H5. subst start. lia.
  - destruct (ema_phase_returned active frame names 0 0 (0 + 280 + 100))
      as (a & Ha & Hgood); [lia|rewrite Hcount, Hall; exact Hin|].
    rewrite Ha.
    destruct a; try contradiction; subst start; lia.
Qed.

Lemma frames_follow_the_budget_witness :
  let active : gmap string series :=
    {[ "a"%string := [Some 1; Some (Q2Qc (3 # 2))] ]} in
  (frames_raw_data + frames_delay_after_raw
   + (total_profile_ema_animation_frames active
      + total_inter_ema_delay_frames active)
   <= 590
   < frames_raw_data + frames_delay_after_raw
     + (total_profile_ema_animation_frames active
        + total_inter_ema_delay_frames active)
     + frames_delay_after_all_emas)%nat.
Proof.
  cbv zeta.
  assert (Hdata : profile_emas_data [Some 1; Some (1 + 1)]
                    {[ "a"%string := 1 / 2 ]} ["a"%string]
                  = Ok {[ "a"%string := [Some 1; Some (Q2Qc (3 # 2))] ]})
    by by_evaluation.
  assert (Hnodup : NoDup ["a"%string])
    by (apply NoDup_singleton).
  pose proof (frames_follow_the_budget _ _ _ _ 3 590 Hdata Hnodup) as H.
  cbv zeta in H.
  assert (Hactive : active_profile_emas_of
            ({[ "a"%string := [Some 1; Some (Q2Qc (3 # 2))] ]}
               : gmap string series)
          = {[ "a"%string := [Some 1; Some (Q2Qc (3 # 2))] ]})
    by by_evaluation.
  rewrite Hactive in H.
  assert (Hupd : update_animation_multi ["a"%string]
            {[ "a"%string := [Some 1; Some (Q2Qc (3 # 2))] ]} 3 590
          = HoldEmas (Some 0%nat) (Some 0%nat))
    by (vm_compute; reflexivity).
  rewrite Hupd in H. exact H.
Defined.

(** Past the frames of a first part of the list the loop goes on with the
    rest. *)
Lemma ema_phase_app (active : gmap string series) (frame : nat)
    (l1 l2 : list string) (idx p c0 : nat) :
  let c := length (active_entries active l1) in
  (c0 + loop_frames active c p <= frame)%nat ->
  ema_phase active frame (l1 ++ l2) idx p c0 =
    ema_phase active frame l2 (idx + length l1) (p + c)
      (c0 + loop_frames active c p).
Proof.
  cbv zeta. revert idx p c0.
  induction l1 as [|name l1 IH]; intros idx p c0 Hframe.
  - change (active_entries active []) with (@nil string).
    cbn [app length]. rewrite loop_frames_unfold. cbn [length].
    f_equal; lia.
  - cbn [app ema_phase length]. rewrite active_entries_cons in *.
    set (fpe := frames_per_profile_ema active) in *.
    set (n := num_active_profiles active) in *.
    destruct (is_active active name).
    2:{ rewrite IH by exact Hframe. f_equal; lia. }
    cbn [length] in *.
    set (c := length (active_entries active l1)) in *.
    rewrite loop_frames_unfold in *. fold fpe n in Hframe |- *.
    assert (Hmul : (S c * fpe = fpe + c * fpe)%nat) by lia.
    rewrite Hmul in *. unfold frames_delay_between_emas.
    destruct (p <? n - 1)%nat eqn:Hp.
    + apply Nat.ltb_lt in Hp.
      assert (H1 : (frame <? c0 + fpe)%nat = false)
        by (apply Nat.ltb_ge; lia).
      assert (H2 : (frame <? c0 + fpe + 100)%nat = false)
        by (apply Nat.ltb_ge; lia).
      rewrite H1, H2, IH by (rewrite loop_frames_unfold; fold fpe n c; lia).
      rewrite loop_frames_unfold. fold fpe n c. f_equal; lia.
    + apply Nat.ltb_ge in Hp.
      assert (H1 : (frame <? c0 + fpe)%nat = false)
        by (apply Nat.ltb_ge; lia).
      rewrite H1, IH by (rewrite loop_frames_unfold; fold fpe n c; lia).
      rewrite loop_frames_unfold. fold fpe n c. f_equal; lia.
Qed.

(** ** The plot lines *)

Lemma plot_lines_at (active : gmap string series) (g : nat -> nat)
    (names : list string) (i : nat) (name : string) :
  names !! i = Some name -> is_Some (active !! name) ->
  omap id (imap (fun i name =>
                   if is_active active name then Some (name, g i) else None)
                names)
    !! length (active_entries active (take i names)) = Some (name, g i).
Proof.
  revert g i.
  induction names as [|x names IH]; intros g i Hname Hact; [discriminate|].
  rewrite imap_cons. destruct i as [|i].
  - injection Hname as ->. apply is_active_spec in Hact.
    cbn. rewrite Hact. reflexivity.
  - cbn [take]. rewrite active_entries_cons. cbn [omap list_omap].
    specialize (IH (g ∘ S) i Hname Hact).
    destruct (is_active active x); exact IH.
Qed.

Lemma plot_lines_length (active : gmap string series) (g : nat -> nat)
    (names : list string) :
  length (omap id (imap (fun i name =>
                           if is_active active name
                           then Some (name, g i) else None)
                        names))
    = length (active_entries active names).
Proof.
  revert g. induction names as [|x names IH]; intros g; [reflexivity|].
  rewrite imap_cons, active_entries_cons. cbn [omap list_omap].
  specialize (IH (g ∘ S)).
  destruct (is_active active x); cbn [id length]; rewrite <- IH; reflexivity.
Qed.

(** The plot line of an active entry is found by counting the active
    entries before it: the lookup of line 281 never leaves the list. *)
Lemma profile_lines_plots_at (names : list string)
    (active : gmap string series) (i : nat) (name : string) :
  names !! i = Some name -> is_Some (active !! name) ->
  profile_lines_plots names active
    !! length (active_entries active (take i names))
    = Some (name, (i mod 5)%nat).
Proof. apply (plot_lines_at active (fun i => (i mod 5)%nat)). Qed.

Lemma profile_lines_plots_length (names : list string)
    (active : gmap string series) :
  length (profile_lines_plots names active)
    = length (active_entries active names).
Proof. apply (plot_lines_length active (fun i => (i mod 5)%nat)). Qed.

(** The count of lines 337-343 up to an active entry. *)
Lemma final_plot_obj_loop_counts (names : list string)
    (active : gmap string series) (last : nat) (name : string) :
  names !! last = Some name -> is_Some (active !! name) ->
  forall (m a t : nat) (acc : option nat),
    (a + S m = last + 1)%nat ->
    final_plot_obj_loop names active last (seq a (S m)) t acc
      = Some (t + length (active_entries active
                            (take (last - a) (drop a names))))%nat.
Proof.
  intros Hname Hact. apply is_active_spec in Hact.
  induction m as [|m IH]; intros a t acc Ha.
  - assert (a = last) by lia. subst a.
    cbn [seq final_plot_obj_loop]. rewrite Hname, Hact, Nat.eqb_refl.
    rewrite Nat.sub_diag. cbn [take].
    change (active_entries active []) with (@nil string).
    cbn [length]. rewrite Nat.add_0_r. reflexivity.
  - change (seq a (S (S m))) with (a :: seq (S a) (S m)).
    cbn [final_plot_obj_loop].
    assert (Hlt : (a < length names)%nat).
    { apply lookup_lt_Some in Hname. lia. }
    destruct (lookup_lt_is_Some_2 names a Hlt) as [x Hx].
    rewrite Hx.
    assert (Hne : (a =? last)%nat = false) by (apply Nat.eqb_neq; lia).
    rewrite (drop_S names x a Hx).
    replace (last - a)%nat with (S (last - S a)) by lia.
    cbn [take]. rewrite active_entries_cons.
    destruct (is_active active x).
    + rewrite Hne, IH by lia. cbn [length]. f_equal. lia.
    + rewrite IH by lia. reflexivity.
Qed.

Lemma final_plot_obj_idx_counts (names : list string)
    (active : gmap string series) (last : nat) (name : string) :
  names !! last = Some name -> is_Some (active !! name) ->
  final_plot_obj_idx names active last
    = Some (length (active_entries active (take last names))).
Proof.
  intros Hname Hact. unfold final_plot_obj_idx.
  replace (last + 1)%nat with (S last) by lia.
  rewrite (final_plot_obj_loop_counts names active last name Hname Hact)
    by lia.
  rewrite Nat.sub_0_r, drop_0. reflexivity.
Qed.

(** What the loop returns at a frame: the Pxx of an active entry, or the
    drawing of its EMA on the plot line counted by the active entries
    before it, at a step below [frames_per_profile_ema]. *)
Lemma ema_phase_returns (active : gmap string series) (frame : nat)
    (names : list string) (idx p c0 : nat) (a : frame_action) :
  (c0 <= frame)%nat ->
  ema_phase active frame names idx p c0 = Returned a ->
  exists i name,
    (idx <= i)%nat /\ names !! (i - idx)%nat = Some name /\
    is_Some (active !! name) /\
    (a = ShowPxx i \/
     exists f,
       a = DrawEma i
             (p + length (active_entries active (take (i - idx) names))) f /\
       (f < frames_per_profile_ema active)%nat).
Proof.
  revert idx p c0.
  induction names as [|x names IH]; intros idx p c0 Hc0 Hret; [discriminate|].
  cbn [ema_phase] in Hret.
  assert (Hshift : forall p' q,
    (q = if is_active active x then S p' else p')%nat ->
    (exists i name,
      (S idx <= i)%nat /\ names !! (i - S idx)%nat = Some name /\
      is_Some (active !! name) /\
      (a = ShowPxx i \/
       exists f,
         a = DrawEma i
               (q + length (active_entries active
                              (take (i - S idx) names))) f /\
         (f < frames_per_profile_ema active)%nat)) ->
    exists i name,
      (idx <= i)%nat /\ (x :: names) !! (i - idx)%nat = Some name /\
      is_Some (active !! name) /\
      (a = ShowPxx i \/
       exists f,
         a = DrawEma i
               (p' + length (active_entries active
                               (take (i - idx) (x :: names)))) f /\
         (f < frames_per_profile_ema active)%nat)).
  { intros p' q Hq (i & name & Hi & Hname & Hact & Ha).
    exists i, name. split; [lia|].
    replace (i - idx)%nat with (S (i - S idx)) by lia.
    split; [exact Hname|]. split; [exact Hact|].
    destruct Ha as [Ha | (f & Ha & Hf)]; [left; exact Ha|].
    right. exists f. split; [|exact Hf]. rewrite Ha. f_equal.
    cbn [take]. rewrite active_entries_cons.
    destruct (is_active active x); subst q; cbn [length]; lia. }
  destruct (is_active active x) eqn:Hx.
  2:{ apply (Hshift p p eq_refl). eapply IH; [exact Hc0|exact Hret]. }
  assert (Hhere : (x :: names) !! (idx - idx)%nat = Some x)
    by (rewrite Nat.sub_diag; reflexivity).
  apply is_active_spec in Hx.
  destruct (frame <? c0 + frames_per_profile_ema active)%nat eqn:H1.
  { apply Nat.ltb_lt in H1. injection Hret as <-.
    exists idx, x. split; [lia|]. split; [exact Hhere|].
    split; [exact Hx|]. right. exists (frame - c0)%nat.
    split; [|lia]. rewrite Nat.sub_diag. cbn [take].
    change (active_entries active []) with (@nil string).
    cbn [length]. rewrite Nat.add_0_r. reflexivity. }
  apply Nat.ltb_ge in H1. cbv zeta in Hret.
  destruct (p <? num_active_profiles active - 1)%nat.
  - destruct (frame <? _ + frames_delay_between_emas)%nat eqn:H2.
    { injection Hret as <-. exists idx, x. split; [lia|].
      split; [exact Hhere|]. split; [exact Hx|]. left. reflexivity. }
    apply Nat.ltb_ge in H2.
    apply (Hshift p (S p) eq_refl). eapply IH; [|exact Hret]. lia.
  - apply (Hshift p (S p) eq_refl). eapply IH; [|exact Hret]. lia.
Qed.

(** X10. Whatever the list and the dict, a frame that draws an EMA or
    shows a Pxx does so for an entry of the list that is active: the guards
    of [display_profile_pxx] against a wrong index and a missing profile
    (lines 163 and 174) are never taken from the loop.  The EMA is drawn on
    the plot line that was created for that entry (with its label and
    colour), at a step below [frames_per_profile_ema], which is therefore
    not zero where line 298 divides by it. *)
Theorem drawn_line_belongs_to_its_profile (names : list string)
    (active : gmap string series) (D frame : nat) :
  match update_animation_multi names active D frame with
  | DrawEma i p f =>
      exists name,
        names !! i = Some name /\ is_Some (active !! name) /\
        profile_lines_plots names active !! p = Some (name, (i mod 5)%nat) /\
        (f < frames_per_profile_ema active)%nat
  | ShowPxx i =>
      exists name, names !! i = Some name /\ is_Some (active !! name)
  | _ => True
  end.
Proof.
  unfold update_animation_multi.
  destruct (frame <? 0 + frames_raw_data)%nat; [exact I|]. cbv zeta.
  destruct (frame <? _ + frames_delay_after_raw)%nat eqn:H2; [exact I|].
  apply Nat.ltb_ge in H2.
  destruct (ema_phase active frame names 0 0 _) as [a|c] eqn:Hphase.
  - apply ema_phase_returns in Hphase; [|exact H2].
    destruct Hphase as (i & name & _ & Hname & Hact & Ha).
    rewrite Nat.sub_0_r in *.
    destruct Ha as [-> | (f & -> & Hf)].
    + exists name. split; assumption.
    + exists name. split; [exact Hname|]. split; [exact Hact|].
      split; [|exact Hf]. cbn [Nat.add].
      apply profile_lines_plots_at; assumption.
  - destruct (frame <? c + frames_delay_after_all_emas)%nat.
    { unfold hold_emas. destruct (0 <? _)%nat; [|exact I].
      destruct (last_active_profile_original_idx names active); exact I. }
    destruct (frame <? _ + D)%nat; [exact I|].
    destruct (frame <? _ + frames_for_loop_pause)%nat; exact I.
Qed.

(** X11. The pause after the EMAs (lines 320-351) shows the Pxx of the
    last active entry of the list and makes its own plot line prominent,
    which is the last plot line: the test of line 345 never fails.  Without
    an active entry in the list nothing is shown. *)
Theorem pause_highlights_the_shown_profile (names : list string)
    (active : gmap string series) :
  match hold_emas names active with
  | HoldEmas (Some i) h =>
      exists name j,
        names !! i = Some name /\ is_Some (active !! name) /\
        (forall i' name', (i < i')%nat -> names !! i' = Some name' ->
                          active !! name' = None) /\
        h = Some j /\
        profile_lines_plots names active !! j = Some (name, (i mod 5)%nat) /\
        S j = length (profile_lines_plots names active)
  | HoldEmas None h =>
      h = None /\ forall name, name ∈ names -> active !! name = None
  | _ => False
  end.
Proof.
  unfold hold_emas.
  destruct (0 <? num_active_profiles active)%nat eqn:Hn.
  2:{ split; [reflexivity|]. intros name _.
      apply Nat.ltb_ge in Hn. unfold num_active_profiles in Hn.
      assert (Hempty : active = ∅) by (apply map_size_empty_iff; lia).
      rewrite Hempty. apply lookup_empty. }
  pose proof (last_active_profile_original_idx_spec names active) as Hspec.
  destruct (last_active_profile_original_idx names active) as [i|];
    [|split; [reflexivity|exact Hspec]].
  destruct Hspec as (name & Hname & Hact & Hlater).
  pose proof (profile_lines_plots_at names active i name Hname Hact) as Hline.
  rewrite (final_plot_obj_idx_counts names active i name Hname Hact).
  assert (Hlen : S (length (active_entries active (take i names)))
                 = length (profile_lines_plots names active)).
  { rewrite profile_lines_plots_length.
    rewrite (active_entries_up_to_last names active i name Hname Hact Hlater).
    rewrite length_app. cbn [length]. lia. }
  assert (Hin : (length (active_entries active (take i names))
                 <? length (profile_lines_plots names active))%nat = true)
    by (apply Nat.ltb_lt; lia).
  rewrite Hin. exists name, (length (active_entries active (take i names))).
  repeat split; try assumption.
Qed.

(** The entry after which no entry is active is the one the search by
    index finds. *)
Lemma last_active_profile_original_idx_found (names : list string)
    (active : gmap string series) (i : nat) (name : string) :
  names !! i = Some name -> is_Some (active !! name) ->
  active_entries active (drop (S i) names) = [] ->
  last_active_profile_original_idx names active = Some i.
Proof.
  intros Hname Hact Hrest.
  pose proof (last_active_profile_original_idx_spec names active) as Hspec.
  destruct (last_active_profile_original_idx names active) as [i'|].
  - destruct Hspec as (name' & Hname' & Hact' & Hlater).
    destruct (lt_eq_lt_dec i i') as [[Hlt | ->] | Hgt]; [|reflexivity|].
    + exfalso.
      assert (Hin : name' ∈ active_entries active (drop (S i) names)).
      { unfold active_entries. apply list_elem_of_filter.
        split; [exact Hact'|].
        apply list_elem_of_lookup. exists (i' - S i)%nat.
        rewrite lookup_drop. rewrite <- Hname'. f_equal. lia. }
      rewrite Hrest in Hin. inversion Hin.
    + exfalso. rewrite (Hlater i name Hgt Hname) in Hact.
      destruct Hact as [? H]. discriminate H.
  - exfalso. rewrite (Hspec name) in Hact.
    + destruct Hact as [? H]. discriminate H.
    + apply list_elem_of_lookup. exists i. exact Hname.
Qed.

(** The frames in which the loop shows the Pxx of an entry that is not the
    last plot line. *)
Lemma ema_phase_shows (active : gmap string series) (frame : nat)
    (names : list string) (i : nat) (name : string) (c0 : nat) :
  names !! i = Some name -> is_Some (active !! name) ->
  let c := length (active_entries active (take i names)) in
  let first := (c0 + loop_frames active c 0
                + frames_per_profile_ema active)%nat in
  (c < num_active_profiles active - 1)%nat ->
  (first <= frame < first + frames_delay_between_emas)%nat ->
  ema_phase active frame names 0 0 c0 = Returned (ShowPxx i).
Proof.
  intros Hname Hact c first Hc Hframe.
  replace (ema_phase active frame names 0 0 c0)
    with (ema_phase active frame (take i names ++ name :: drop (S i) names)
            0 0 c0)
    by (rewrite take_drop_middle by exact Hname; reflexivity).
  rewrite ema_phase_app by (fold c; lia).
  fold c. rewrite length_take.
  apply lookup_lt_Some in Hname as Hlt.
  replace (0 + i `min` length names)%nat with i by lia.
  cbn [ema_phase Nat.add]. apply is_active_spec in Hact. rewrite Hact.
  assert (H1 : (frame <? c0 + loop_frames active c 0
                         + frames_per_profile_ema active)%nat = false)
    by (apply Nat.ltb_ge; lia).
  assert (H2 : (c <? num_active_profiles active - 1)%nat = true)
    by (apply Nat.ltb_lt; exact Hc).
  assert (H3 : (frame <? c0 + loop_frames active c 0
                         + frames_per_profile_ema active
                         + frames_delay_between_emas)%nat = true)
    by (apply Nat.ltb_lt; lia).
  rewrite H1, H2, H3. reflexivity.
Qed.

(** X12. When no profile name is repeated and the raw series has a
    defined sample, every active entry of the list whose name decodes to a
    percentile of at most 100 (and has no run of more than 18 digits) gets
    its Pxx shown: [display_profile_pxx] computes a value for it, and the
    animation calls it for that entry during 100 frames in a row before it
    ends, in the pause after its EMA is drawn or, for the last one, in the
    pause after all EMAs. *)
Theorem every_active_pxx_is_shown (raw : series) (alphas : gmap string Qc)
    (names : list string) (data : gmap string series) (D i : nat)
    (name : string) :
  profile_emas_data raw alphas names = Ok data -> NoDup names ->
  let active := active_profile_emas_of data in
  names !! i = Some name -> is_Some (active !! name) ->
  dropna raw <> [] -> short_digit_runs name ->
  (get_percentile_from_name name <= 100)%Z ->
  (exists pxx : Qc,
     display_profile_pxx i active names = Ok (Some (Some pxx))) /\
  exists first,
    (first + 100 <= total_frames_for_animation active D)%nat /\
    forall frame, (first <= frame < first + 100)%nat ->
      update_animation_multi names active D frame = ShowPxx i \/
      exists h,
        update_animation_multi names active D frame = HoldEmas (Some i) h.
Proof.
  intros Hdata Hnodup active Hname Hact Hraw _ Hq. split.
  { destruct Hact as [s Hs].
    destruct (active_ema_is_smoothed _ _ _ _ _ _ Hdata Hs) as [alpha ->].
    assert (Hne : Ewm.mean alpha raw <> [])
      by (apply active_profile_emas_of_lookup in Hs as [_ Hne]; exact Hne).
    rewrite (display_profile_pxx_resmoothed i _ names name _ Hname Hs Hne).
    cbv zeta.
    set (twice := Ewm.mean _ (Ewm.mean alpha raw)).
    assert (Htwice : dropna twice <> []).
    { intros E. apply Hraw. apply (dropna_mean_nil alpha).
      apply (dropna_mean_nil
               (2 / (Qc_of_Z (get_w_value_from_name name) + 1))).
      exact E. }
    rewrite (proj2 (empty_false _) Htwice).
    rewrite PercentileFacts.np_percentile_defined; [|exact Htwice|].
    - eexists. reflexivity.
    - apply (proj2 (Qc_of_Z_in_range _)).
      pose proof (percentile_nonneg name). lia. }
  pose proof (active_entries_count _ _ _ _ Hdata Hnodup) as Hcount.
  fold active in Hcount.
  pose proof (loop_frames_all active) as Hall.
  set (n := num_active_profiles active) in *.
  set (c := length (active_entries active (take i names))).
  set (rest := active_entries active (drop (S i) names)).
  assert (Hsplit : n = (c + S (length rest))%nat).
  { rewrite <- Hcount. rewrite <- (take_drop_middle names i name Hname) at 1.
    unfold active_entries. rewrite filter_app, filter_cons_True by exact Hact.
    rewrite length_app. reflexivity. }
  assert (Hfpe : frames_per_profile_ema active = 200%nat)
    by (apply frames_per_profile_ema_value; fold n; lia).
  unfold total_frames_for_animation, frames_for_actual_content.
  change frames_for_loop_pause with 100%nat.
  unfold frames_raw_data, frames_delay_after_raw,
    frames_delay_after_all_emas in *.
  destruct rest as [|r rest'] eqn:Hrest.
  - exists (280 + 100 + loop_frames active n 0)%nat.
    split; [lia|]. intros frame Hframe. right.
    unfold update_animation_multi.
    unfold frames_raw_data, frames_delay_after_raw,
      frames_delay_after_all_emas.
    assert (H1 : (frame <? 0 + 280)%nat = false) by (apply Nat.ltb_ge; lia).
    assert (H2 : (frame <? 0 + 280 + 100)%nat = false)
      by (apply Nat.ltb_ge; lia).
    rewrite H1. cbv zeta. rewrite H2.
    rewrite ema_phase_fell by (rewrite Hcount; fold n; lia).
    rewrite Hcount. fold n.
    assert (H3 : (frame <? 0 + 280 + 100 + loop_frames active n 0 + 120)%nat
                 = true) by (apply Nat.ltb_lt; lia).
    rewrite H3. unfold hold_emas. fold n.
    assert (H4 : (0 <? n)%nat = true) by (apply Nat.ltb_lt; lia).
    rewrite H4.
    rewrite (last_active_profile_original_idx_found names active i name
               Hname Hact Hrest).
    eexists. reflexivity.
  - cbn [length] in Hsplit.
    exists (280 + 100 + loop_frames active c 0 + 200)%nat. split.
    + rewrite loop_frames_unfold in Hall |- *. fold n in Hall |- *.
      rewrite Hfpe in Hall |- *. lia.
    + intros frame Hframe. left.
      unfold update_animation_multi.
      unfold frames_raw_data, frames_delay_after_raw.
      assert (H1 : (frame <? 0 + 280)%nat = false) by (apply Nat.ltb_ge; lia).
      assert (H2 : (frame <? 0 + 280 + 100)%nat = false)
        by (apply Nat.ltb_ge; lia).
      rewrite H1. cbv zeta. rewrite H2.
      rewrite (ema_phase_shows active frame names i name (0 + 280 + 100)
                 Hname Hact); [reflexivity| |].
      * fold c n. lia.
      * fold c. rewrite Hfpe. unfold frames_delay_between_emas. lia.
Qed.

Lemma every_active_pxx_is_shown_witness :
  let active : gmap string series :=
    {[ "a"%string := [Some 1; Some (Q2Qc (3 # 2))] ]} in
  (exists pxx : Qc,
     display_profile_pxx 0 active ["a"%string] = Ok (Some (Some pxx))) /\
  exists first,
    (first + 100 <= total_frames_for_animation active 3)%nat /\
    forall frame, (first <= frame < first + 100)%nat ->
      update_animation_multi ["a"%string] active 3 frame = ShowPxx 0 \/
      exists h,
        update_animation_multi ["a"%string] active 3 frame
          = HoldEmas (Some 0%nat) h.
Proof.
  cbv zeta.
  assert (Hdata : profile_emas_data [Some 1; Some (1 + 1)]
                    {[ "a"%string := 1 / 2 ]} ["a"%string]
                  = Ok {[ "a"%string := [Some 1; Some (Q2Qc (3 # 2))] ]})
    by by_evaluation.
  assert (Hnodup : NoDup ["a"%string])
    by (apply NoDup_singleton).
  assert (Hactive : active_profile_emas_of
            ({[ "a"%string := [Some 1; Some (Q2Qc (3 # 2))] ]}
               : gmap string series)
          = {[ "a"%string := [Some 1; Some (Q2Qc (3 # 2))] ]})
    by by_evaluation.
  pose proof (every_active_pxx_is_shown _ _ _ _ 3 0 "a"%string
                Hdata Hnodup) as H.
  cbv zeta in H. rewrite Hactive in H.
  apply H; [reflexivity|by_evaluation|discriminate|by_evaluation|].
  vm_compute. discriminate.
Defined.

(** ** The range of the values shown

    Smoothing and percentiles are means of their data: no value computed
    from the raw series leaves the range of its samples. *)

Lemma convex_within (g a b lo hi : Qc) :
  0 ≤ g -> g ≤ 1 -> lo ≤ a ∧ a ≤ hi -> lo ≤ b ∧ b ≤ hi ->
  lo ≤ a + g * (b - a) ∧ a + g * (b - a) ≤ hi.
Proof.
  intros Hg0 Hg1 [Hla Hah] [Hlb Hbh].
  pose proof (proj1 (Qcle_minus_iff g 1) Hg1) as Hg1'.
  pose proof (proj1 (Qcle_minus_iff lo a) Hla) as Hla'.
  pose proof (proj1 (Qcle_minus_iff a hi) Hah) as Hah'.
  pose proof (proj1 (Qcle_minus_iff lo b) Hlb) as Hlb'.
  pose proof (proj1 (Qcle_minus_iff b hi) Hbh) as Hbh'.
  split.
  - apply (proj2 (Qcle_minus_iff _ _)).
    replace (a + g * (b - a) + - lo)
      with ((1 + - g) * (a + - lo) + g * (b + - lo)) by ring.
    apply Qcplus_nonneg_nonneg; apply Qcmult_nonneg_nonneg; assumption.
  - apply (proj2 (Qcle_minus_iff _ _)).
    replace (hi + - (a + g * (b - a)))
      with ((1 + - g) * (hi + - a) + g * (hi + - b)) by ring.
    apply Qcplus_nonneg_nonneg; apply Qcmult_nonneg_nonneg; assumption.
Qed.

Lemma pass_within (alpha lo hi : Qc) (weighted : float) (x : series) :
  0 ≤ alpha -> alpha ≤ 1 ->
  (forall w, weighted = Some w -> lo ≤ w ∧ w ≤ hi) ->
  (forall v, Some v ∈ x -> lo ≤ v ∧ v ≤ hi) ->
  forall y, Some y ∈ Ewm.pass alpha weighted x -> lo ≤ y ∧ y ≤ hi.
Proof.
  intros H0 H1. revert weighted.
  induction x as [|cur x IH]; intros weighted Hw Hx y Hy; [inversion Hy|].
  cbn [Ewm.pass] in Hy.
  assert (Hstep : forall w, Ewm.step alpha weighted cur = Some w ->
                            lo ≤ w ∧ w ≤ hi).
  { intros w E. destruct weighted as [w0|], cur as [v|]; cbn in E.
    - injection E as <-.
      replace (alpha * v + (1 - alpha) * w0) with (w0 + alpha * (v - w0))
        by ring.
      apply convex_within; [exact H0|exact H1|apply Hw; reflexivity|].
      apply Hx. left.
    - injection E as <-. apply Hw. reflexivity.
    - injection E as <-. apply Hx. left.
    - discriminate E. }
  apply elem_of_cons in Hy as [Hy | Hy].
  - apply Hstep. symmetry. exact Hy.
  - apply (IH _ Hstep); [|exact Hy]. intros v Hv. apply Hx. right. exact Hv.
Qed.

Lemma mean_within (alpha lo hi : Qc) (x : series) :
  0 < alpha ∧ alpha ≤ 1 ->
  (forall v, Some v ∈ x -> lo ≤ v ∧ v ≤ hi) ->
  forall y, Some y ∈ Ewm.mean alpha x -> lo ≤ y ∧ y ≤ hi.
Proof.
  intros [H0 H1] Hx. rewrite EwmFacts.mean_as_pass.
  apply pass_within; [apply Qclt_le_weak; exact H0|exact H1| |exact Hx].
  intros w E. discriminate E.
Qed.

Lemma elem_of_dropna (x : series) (y : Qc) : y ∈ dropna x <-> Some y ∈ x.
Proof.
  unfold dropna. rewrite list_elem_of_omap. split.
  - intros (v & Hv & E). cbn in E. subst v. exact Hv.
  - intros Hy. exists (Some y). split; [exact Hy|reflexivity].
Qed.

(** The rank of a percentile lies between two places of the sorted
    values. *)
Lemma floor_brackets (h : Qc) :
  0 ≤ h ->
  let lo := Z.to_nat (Qfloor h) in
  0 ≤ h - Qc_of_nat lo ∧ h - Qc_of_nat lo ≤ 1.
Proof.
  intros Hh lo.
  assert (Hfloor : (0 <= Qfloor h)%Z).
  { change 0%Z with (Qfloor 0). apply Qfloor_resp_le. exact Hh. }
  assert (Hlo : Qc_of_nat lo = Qc_of_Z (Qfloor h)).
  { unfold Qc_of_nat, lo. rewrite Z2Nat.id by exact Hfloor. reflexivity. }
  rewrite Hlo.
  assert (Hbelow : Qc_of_Z (Qfloor h) ≤ h) by apply Qfloor_le.
  assert (Habove : h ≤ Qc_of_Z (Qfloor h + 1))
    by apply Qlt_le_weak, Qlt_floor.
  split.
  - replace (h - Qc_of_Z (Qfloor h)) with (h + - Qc_of_Z (Qfloor h)) by ring.
    exact (proj1 (Qcle_minus_iff _ _) Hbelow).
  - apply (proj2 (Qcle_minus_iff _ _)).
    replace (1 + - (h - Qc_of_Z (Qfloor h)))
      with (Qc_of_Z (Qfloor h + 1) + - h)
      by (rewrite Z2Qc_inj_add, Z2Qc_inj_1; ring).
    exact (proj1 (Qcle_minus_iff _ _) Habove).
Qed.

(** A percentile of values lies between their bounds. *)
Lemma of_values_within (x : list Qc) (q lo hi : Qc) :
  x <> [] -> 0 ≤ q ∧ q ≤ Qc_of_Z 100 ->
  (forall v, v ∈ x -> lo ≤ v ∧ v ≤ hi) ->
  lo ≤ Percentile.of_values x q ∧ Percentile.of_values x q ≤ hi.
Proof.
  intros Hx [Hq0 Hq100] Hin.
  unfold Percentile.of_values, Percentile.linear.
  set (sorted := merge_sort Qcle x).
  assert (Hperm : sorted ≡ₚ x) by apply merge_sort_Permutation.
  assert (Hlen : (0 < length sorted)%nat).
  { rewrite Hperm. destruct x; [congruence|simpl; lia]. }
  set (n := length sorted) in *.
  set (h := Qc_of_nat (n - 1) * q / Qc_of_Z 100).
  assert (Hn0 : 0 ≤ Qc_of_nat (n - 1)).
  { rewrite <- PercentileFacts.Qc_of_nat_0. unfold Qc_of_nat.
    apply (proj1 (Z2Qc_inj_le _ _)). lia. }
  assert (H100 : 0 < Qc_of_Z 100) by by_evaluation.
  assert (Hh0 : 0 ≤ h).
  { unfold h, Qcdiv. apply Qcmult_nonneg_nonneg.
    - apply Qcmult_nonneg_nonneg; assumption.
    - apply Qclt_le_weak, Qcinv_pos, H100. }
  assert (Hhn : h ≤ Qc_of_nat (n - 1)).
  { unfold h, Qcdiv.
    replace (Qc_of_nat (n - 1)) with (Qc_of_nat (n - 1) * 1) at 2 by ring.
    rewrite <- Qcmult_assoc. apply Qcmult_le_mono_nonneg_l; [exact Hn0|].
    apply (Qcmult_lt_0_le_reg_r _ _ (Qc_of_Z 100)); [exact H100|].
    rewrite <- Qcmult_assoc, (Qcmult_comm (/ _)), Qcmult_inv_r
      by apply PercentileFacts.hundred_not_zero.
    rewrite Qcmult_1_r, Qcmult_1_l. exact Hq100. }
  pose proof (floor_brackets h Hh0) as [Hg0 Hg1]. cbv zeta in Hg0, Hg1.
  set (i := Z.to_nat (Qfloor h)) in *.
  assert (Hi : (i <= n - 1)%nat).
  { assert (Hfl : (Qfloor h <= Qfloor (Qc_of_nat (n - 1)))%Z)
      by (apply Qfloor_resp_le; exact Hhn).
    rewrite PercentileFacts.Qfloor_of_nat in Hfl. unfold i. lia. }
  assert (Hnth : forall j, (j <= n - 1)%nat ->
                           lo ≤ nth j sorted 0 ∧ nth j sorted 0 ≤ hi).
  { intros j Hj.
    destruct (lookup_lt_is_Some_2 sorted j) as [v Hv]; [fold n; lia|].
    rewrite (nth_lookup_Some _ _ _ _ Hv). apply Hin. rewrite <- Hperm.
    apply list_elem_of_lookup. exists j. exact Hv. }
  apply convex_within; [exact Hg0|exact Hg1|apply Hnth; exact Hi|].
  apply Hnth. lia.
Qed.

(** Every primary EMA of an active profile lies within the bounds of the
    raw samples. *)
Lemma active_ema_within (raw : series) (alphas : gmap string Qc)
    (names : list string) (data : gmap string series) (name : string)
    (s : series) (lo hi : Qc) :
  profile_emas_data raw alphas names = Ok data ->
  (forall v, Some v ∈ raw -> lo ≤ v ∧ v ≤ hi) ->
  active_profile_emas_of data !! name = Some s ->
  forall y, Some y ∈ s -> lo ≤ y ∧ y ≤ hi.
Proof.
  intros Hdata Hraw Hs.
  apply active_profile_emas_of_lookup in Hs as [Hs Hne].
  rewrite (profile_emas_data_at _ _ _ _ name Hdata) in Hs.
  destruct (decide (name ∈ names)) as [Hin|]; [|discriminate].
  destruct (alphas !! name) as [alpha|] eqn:Halpha;
    [|injection Hs as <-; congruence].
  injection Hs as <-.
  destruct (decide (0 < alpha ∧ alpha ≤ 1)) as [Hv|Hv].
  - apply mean_within; assumption.
  - exfalso.
    destruct (proj2 (profile_emas_loop_fails raw alphas names ∅))
      as [e He]; [exists name, alpha; auto|].
    unfold profile_emas_data in Hdata. rewrite He in Hdata.
    discriminate Hdata.
Qed.

(** X13. Every Pxx that is shown lies within the bounds of the raw
    samples: the two smoothings and the percentile are means of their data
    (lines 50-56 and 179-189). *)
Theorem pxx_within_the_raw_range (raw : series) (alphas : gmap string Qc)
    (names : list string) (data : gmap string series) (i : nat)
    (lo hi pxx : Qc) :
  profile_emas_data raw alphas names = Ok data ->
  (forall v, Some v ∈ raw -> lo ≤ v ∧ v ≤ hi) ->
  display_profile_pxx i (active_profile_emas_of data) names
    = Ok (Some (Some pxx)) ->
  lo ≤ pxx ∧ pxx ≤ hi.
Proof.
  intros Hdata Hraw Hshown.
  destruct (names !! i) as [name|] eqn:Hname;
    [|unfold display_profile_pxx in Hshown; rewrite Hname in Hshown;
      discriminate Hshown].
  destruct (active_profile_emas_of data !! name) as [s|] eqn:Hs;
    [|unfold display_profile_pxx in Hshown; rewrite Hname, Hs in Hshown;
      discriminate Hshown].
  assert (Hne : s <> [])
    by (apply active_profile_emas_of_lookup in Hs as [_ Hne]; exact Hne).
  rewrite (display_profile_pxx_resmoothed i _ names name s Hname Hs Hne)
    in Hshown.
  cbv zeta in Hshown.
  set (twice := Ewm.mean (2 / (Qc_of_Z (get_w_value_from_name name) + 1)) s)
    in *.
  set (q := Qc_of_Z (get_percentile_from_name name)) in *.
  destruct (dropna twice) as [|t ts] eqn:Htwice; [discriminate Hshown|].
  cbn [empty] in Hshown.
  destruct (decide (0 ≤ q ∧ q ≤ Qc_of_Z 100)) as [Hq|Hq].
  2:{ unfold np_percentile in Hshown.
      rewrite bool_decide_eq_false_2 in Hshown by exact Hq.
      discriminate Hshown. }
  rewrite PercentileFacts.np_percentile_defined in Hshown
    by (try exact Hq; discriminate).
  injection Hshown as <-.
  apply of_values_within; [discriminate|exact Hq|].
  intros v Hv. rewrite <- Htwice in Hv. apply elem_of_dropna in Hv.
  apply (mean_within _ lo hi s
           (span_alpha_valid _ (decoded_span_valid name))); [|exact Hv].
  eapply active_ema_within; eassumption.
Qed.

Lemma pxx_within_the_raw_range_witness :
  1 ≤ Q2Qc (29 # 20) ∧ Q2Qc (29 # 20) ≤ 1 + 1.
Proof.
  apply (pxx_within_the_raw_range [Some 1; Some (1 + 1)]
           {[ ""%string := 1 / 2 ]} [""%string]
           {[ ""%string := [Some 1; Some (Q2Qc (3 # 2))] ]} 0).
  - by_evaluation.
  - intros v Hv. apply elem_of_cons in Hv as [[= ->] | Hv].
    + split; by_evaluation.
    + apply list_elem_of_singleton in Hv as [= ->]. split; by_evaluation.
  - by_evaluation.
Defined.

Lemma mapM_id_elem (a : series) (x : list Qc) (v : Qc) :
  mapM id a = Some x -> v ∈ x -> Some v ∈ a.
Proof.
  intros Hx Hv. apply mapM_Some in Hx.
  apply list_elem_of_lookup in Hv as [j Hj].
  destruct (Forall2_lookup_r _ _ _ _ _ Hx Hj) as (o & Ho & E).
  cbn in E. subst o. apply list_elem_of_lookup. exists j. exact Ho.
Qed.

Lemma elem_of_bucket (s : series) (k day : nat) (y : float) :
  y ∈ bucket s k day -> y ∈ s.
Proof.
  unfold bucket, slice. intros Hy.
  apply elem_of_take in Hy as (j & Hj & _). rewrite lookup_drop in Hj.
  apply list_elem_of_lookup. eexists. exact Hj.
Qed.

(** X14. Every daily value that is defined lies within the bounds of the
    raw samples (lines 133-151). *)
Theorem daily_values_within_the_raw_range (raw : series)
    (alphas : gmap string Qc) (names : list string)
    (data : gmap string series) (D k : nat) (values : series)
    (times : list Qc) (lo hi : Qc) :
  profile_emas_data raw alphas names = Ok data ->
  (forall v, Some v ∈ raw -> lo ≤ v ∧ v ≤ hi) ->
  daily names D k (active_profile_emas_of data) = Ok (values, times) ->
  forall p, Some p ∈ values -> lo ≤ p ∧ p ≤ hi.
Proof.
  intros Hdata Hraw Hdaily p Hp. unfold daily in Hdaily.
  assert (Hnone : Ok ([], []) = Ok (values, times) -> False).
  { intros [= <- _]. inversion Hp. }
  destruct (0 <? _)%nat; [|exact (False_ind _ (Hnone Hdaily))].
  destruct (last_active_profile_name names _) as [name|];
    [|exact (False_ind _ (Hnone Hdaily))].
  destruct (truthy name); [|exact (False_ind _ (Hnone Hdaily))].
  destruct (active_profile_emas_of data !! name) as [s|] eqn:Hs;
    [|discriminate Hdaily].
  destruct (empty s); [exact (False_ind _ (Hnone Hdaily))|].
  rewrite daily_loop_spec in Hdaily. cbv zeta in Hdaily.
  injection Hdaily as <- _. cbn [app] in Hp.
  apply list_elem_of_fmap in Hp as (day & Hday & Hkept).
  apply list_elem_of_filter in Hkept as [Hkept _].
  unfold Percentile.of_data in Hday.
  destruct (mapM id (bucket s k day)) as [x|] eqn:Hx; [|discriminate Hday].
  injection Hday as ->.
  assert (Hin : forall v, v ∈ x -> lo ≤ v ∧ v ≤ hi).
  { intros v Hv. eapply active_ema_within; [exact Hdata|exact Hraw|exact Hs|].
    eapply elem_of_bucket. eapply mapM_id_elem; eassumption. }
  apply of_values_within; [|split; by_evaluation|exact Hin].
  intros ->. apply Hkept. apply mapM_Some in Hx.
  apply Forall2_nil_inv_r in Hx. exact Hx.
Qed.

Lemma daily_values_within_the_raw_range_witness :
  1 ≤ Q2Qc (59 # 40) ∧ Q2Qc (59 # 40) ≤ 1 + 1.
Proof.
  apply (daily_values_within_the_raw_range [Some 1; Some (1 + 1)]
           {[ "a"%string := 1 / 2 ]} ["a"%string]
           {[ "a"%string := [Some 1; Some (Q2Qc (3 # 2))] ]} 1 2
           [Some (Q2Qc (59 # 40))] [Q2Qc (1 # 2)]).
  - by_evaluation.
  - intros v Hv. apply elem_of_cons in Hv as [[= ->] | Hv].
    + split; by_evaluation.
    + apply list_elem_of_singleton in Hv as [= ->]. split; by_evaluation.
  - by_evaluation.
  - left.
Defined.

(** ** The last frame of the regression *)

(** X15. The aggregate has at most [num_days] points, so the [num_days]
    frames of the regression phase suffice to show them all: from the
    frame at which all points are shown on (the last frame of the phase at
    the latest), the line drawn is the least-squares line through all
    daily points, and no line is drawn when there are fewer than two
    (lines 133-151 and 373-388). *)
Theorem regression_ends_on_all_days (names : list string) (D k : nat)
    (active : gmap string series) (v : list Qc) (times : list Qc)
    (r : nat) :
  daily names D k active = Ok (Some <$> v, times) ->
  (length times <= D)%nat /\
  ((D <= r + 1)%nat ->
   regression r (Some <$> v) times =
     Ok (if (1 <? length times)%nat
         then Some (Fit.cov times v / Fit.var times,
                    Fit.mean v - Fit.cov times v / Fit.var times
                                 * Fit.mean times)
         else None)).
Proof.
  intros Hdaily.
  assert (Hcases :
    (v = [] /\ times = []) \/
    exists s, daily_loop k s (seq 0 D) [] [] = Ok (Some <$> v, times)).
  { unfold daily in Hdaily.
    assert (Hnone : Ok ([], []) = Ok (Some <$> v, times) ->
                    v = [] /\ times = []).
    { intros [= Hv <-]. split; [|reflexivity].
      destruct v; [reflexivity|discriminate Hv]. }
    destruct (0 <? _)%nat; [|left; exact (Hnone Hdaily)].
    destruct (last_active_profile_name names active) as [name|];
      [|left; exact (Hnone Hdaily)].
    destruct (truthy name); [|left; exact (Hnone Hdaily)].
    destruct (active !! name) as [s|]; [|discriminate Hdaily].
    destruct (empty s); [left; exact (Hnone Hdaily)|].
    right. exists s. exact Hdaily. }
  destruct Hcases as [[-> ->] | [s Hloop]].
  - split; [cbn; lia|]. intros _. reflexivity.
  - assert (Hlen : (length times <= D)%nat).
    { pose proof Hloop as H. rewrite daily_loop_spec in H.
      injection H as _ <-. cbn [app].
      rewrite length_fmap.
      etrans; [apply length_filter|]. rewrite length_seq. reflexivity. }
    split; [exact Hlen|]. intros Hr.
    assert (Hv : length v = length times).
    { pose proof Hloop as H. rewrite daily_loop_spec in H.
      injection H as Hv <-. cbn [app] in *.
      apply (f_equal length) in Hv. rewrite !length_fmap in *. lia. }
    rewrite (regression_of_daily k s D r v times Hloop). cbv zeta.
    replace (length times `min` (r + 1))%nat with (length times) by lia.
    rewrite take_ge by lia. rewrite take_ge by lia. reflexivity.
Qed.

Lemma regression_ends_on_all_days_witness :
  regression 1 [Some (Q2Qc (59 # 40)); Some (Q2Qc (299 # 160))]
    [Q2Qc (1 # 2); Q2Qc (3 # 2)]
  = Ok (Some (Q2Qc (63 # 160), Q2Qc (409 # 320))).
Proof.
  destruct (regression_ends_on_all_days ["a"%string] 2 2
              {[ "a"%string :=
                   [Some 1; Some (Q2Qc (3 # 2)); Some (Q2Qc (7 # 4));
                    Some (Q2Qc (15 # 8))] ]}
              [Q2Qc (59 # 40); Q2Qc (299 # 160)]
              [Q2Qc (1 # 2); Q2Qc (3 # 2)] 1) as [_ H].
  - by_evaluation.
  - etrans; [exact (H ltac:(lia))|]. by_evaluation.
Defined.

(** ** The lines redrawn while an EMA is drawn *)

Lemma all_active_entries (active : gmap string series) (l : list string) :
  Forall (fun name => is_Some (active !! name)) l ->
  active_entries active l = l.
Proof.
  induction 1 as [|name l Hname _ IH]; [reflexivity|].
  unfold active_entries. rewrite filter_cons_True by exact Hname.
  f_equal. exact IH.
Qed.

Lemma redrawn_loop_all_active (names : list string)
    (active : gmap string series) (i : nat) :
  Forall (fun name => is_Some (active !! name)) (take i names) ->
  (i <= length names)%nat ->
  forall m a, (a + m <= i)%nat ->
    redrawn_loop names active (seq a m)
      = Ok (zip (seq a m) (take m (drop a names))).
Proof.
  intros Hall Hi. induction m as [|m IH]; intros a Ha; [reflexivity|].
  cbn [seq redrawn_loop].
  destruct (lookup_lt_is_Some_2 names a) as [x Hx]; [lia|].
  rewrite Hx, (drop_S names x a Hx). cbn [take zip zip_with].
  assert (Hact : is_Some (active !! x)).
  { rewrite Forall_lookup in Hall. apply (Hall a).
    rewrite lookup_take_lt by lia. exact Hx. }
  assert (Hcount : length (active_entries active (take a names)) = a).
  { rewrite all_active_entries.
    - rewrite length_take. lia.
    - replace (take a names) with (take a (take i names))
        by (rewrite take_take; f_equal; lia).
      apply Forall_take. exact Hall. }
  pose proof (profile_lines_plots_at names active a x Hx Hact) as Hline.
  rewrite Hcount in Hline. rewrite Hline.
  apply is_active_spec in Hact. rewrite Hact.
  rewrite IH by lia. reflexivity.
Qed.

(** X16. While an EMA is drawn the lines drawn before it are set again
    (lines 289-296), the plot line [j] from the entry [j] of the list.
    When every entry before the one being drawn is active, that is right:
    the plot line of the EMA is the one at its index in the list, all lines
    before it are set again without an [IndexError], and each from the
    profile it was created for. *)
Theorem redraw_is_aligned (names : list string)
    (active : gmap string series) (D frame i p f : nat) :
  Forall (fun name => is_Some (active !! name)) (take i names) ->
  update_animation_multi names active D frame = DrawEma i p f ->
  p = i /\
  redrawn names active p = Ok (zip (seq 0 i) (take i names)) /\
  forall j name, (j < i)%nat -> names !! j = Some name ->
    profile_lines_plots names active !! j = Some (name, (j mod 5)%nat).
Proof.
  intros Hall Hupd.
  assert (Hphase : exists c0,
    (c0 <= frame)%nat /\
    ema_phase active frame names 0 0 c0 = Returned (DrawEma i p f)).
  { unfold update_animation_multi in Hupd.
    destruct (frame <? 0 + frames_raw_data)%nat; [discriminate Hupd|].
    cbv zeta in Hupd.
    destruct (frame <? _ + frames_delay_after_raw)%nat eqn:H2;
      [discriminate Hupd|].
    apply Nat.ltb_ge in H2. eexists. split; [exact H2|].
    destruct (ema_phase active frame names 0 0 _) as [a|c];
      [f_equal; exact Hupd|].
    exfalso. revert Hupd.
    destruct (frame <? c + frames_delay_after_all_emas)%nat.
    { unfold hold_emas. destruct (0 <? _)%nat; [|discriminate].
      destruct (last_active_profile_original_idx names active);
        discriminate. }
    destruct (frame <? _ + D)%nat; [discriminate|].
    destruct (frame <? _ + frames_for_loop_pause)%nat; discriminate. }
  destruct Hphase as (c0 & Hc0 & Hphase).
  apply ema_phase_returns in Hphase; [|exact Hc0].
  destruct Hphase as (i' & name & _ & Hname & Hact & Ha).
  rewrite Nat.sub_0_r in *.
  destruct Ha as [Ha | (f' & Ha & _)]; [discriminate Ha|].
  injection Ha as <- Hp <-. cbn [Nat.add] in Hp.
  apply lookup_lt_Some in Hname as Hlt.
  assert (Hcount : forall j, (j <= i)%nat ->
            length (active_entries active (take j names)) = j).
  { intros j Hj. rewrite all_active_entries.
    - rewrite length_take. lia.
    - replace (take j names) with (take j (take i names))
        by (rewrite take_take; f_equal; lia).
      apply Forall_take. exact Hall. }
  rewrite (Hcount i) in Hp by lia. subst p.
  split; [reflexivity|]. split.
  - unfold redrawn.
    rewrite (redrawn_loop_all_active names active i Hall) by lia.
    rewrite drop_0. reflexivity.
  - intros j nm Hj Hnm.
    assert (Hnm_act : is_Some (active !! nm)).
    { rewrite Forall_lookup in Hall. apply (Hall j).
      rewrite lookup_take_lt by lia. exact Hnm. }
    pose proof (profile_lines_plots_at names active j nm Hnm Hnm_act) as H.
    rewrite (Hcount j) in H by lia. exact H.
Qed.

Lemma redraw_is_aligned_witness :
  let active : gmap string series :=
    {[ "a"%string := [Some 1]; "b"%string := [Some 1] ]} in
  redrawn ["a"%string; "b"%string] active 1 = Ok [(0%nat, "a"%string)].
Proof.
  cbv zeta.
  destruct (redraw_is_aligned ["a"%string; "b"%string]
              {[ "a"%string := [Some 1]; "b"%string := [Some 1] ]}
              3 685 1 1 5) as (_ & H & _).
  - repeat constructor; by_evaluation.
  - vm_compute. reflexivity.
  - exact H.
Defined.

(** ** The lines between the weeks *)

Lemma filter_fmap_le (f : nat -> nat) (D : nat) (l : list nat) :
  filter (fun i => (i <= D)%nat) (f <$> l)
    = f <$> filter (fun j => (f j <= D)%nat) l.
Proof.
  induction l as [|j l IH]; [reflexivity|].
  cbn [fmap list_fmap]. rewrite !filter_cons.
  destruct (decide (f j <= D)%nat); cbn [fmap list_fmap]; rewrite IH;
    reflexivity.
Qed.

(** X17. The vertical lines are drawn at the multiples of 7 that are at
    most [num_days], each once and in order, and the first alone carries
    the label of the legend: the test of line 130 drops the place past the
    last day that [range] may add (lines 129-132). *)
Theorem week_lines_are_the_multiples_of_7 (D : nat) :
  week_lines D
    = (fun j => ((7 * j)%nat, (j =? 0)%nat)) <$> seq 0 (D / 7 + 1).
Proof.
  unfold week_lines, range_step.
  rewrite filter_fmap_le.
  rewrite (list_filter_iff _ (fun j => (j < D / 7 + 1)%nat)).
  2:{ intros j. split; intros H.
      - assert (j <= D / 7)%nat; [|lia].
        apply Nat.div_le_lower_bound; lia.
      - assert (Hj : (j <= D / 7)%nat) by lia.
        pose proof (Nat.Div0.mul_div_le D 7). nia. }
  rewrite filter_below_seq.
  replace (Nat.min ((D + 7 + 7 - 1) / 7) (D / 7 + 1)) with (D / 7 + 1)%nat.
  2:{ assert (D / 7 + 1 <= (D + 7 + 7 - 1) / 7)%nat; [|lia].
      replace (D + 7 + 7 - 1)%nat with (6 + D + 1 * 7)%nat by lia.
      rewrite Nat.div_add by lia.
      pose proof (Nat.Div0.div_le_mono D (6 + D) 7). lia. }
  rewrite <- list_fmap_compose. apply list_fmap_ext.
  intros _ j _. cbn. f_equal; [lia|]. destruct j; reflexivity.
Qed.

(** ** The pause button *)

(** X18. After any number of clicks, one at least, the flag is set when
    the number is odd, the timer was last started exactly when the flag is
    not set, and the button reads ['Resume'] when it is set and ['Pause']
    when not (lines 403-416). *)
Theorem button_follows_the_clicks (running : bool) (n : nat) :
  let c := Nat.iter (S n) toggle_pause_resume (controls_at_start running) in
  is_animation_paused c = Nat.odd (S n) /\
  event_source_running c = negb (is_animation_paused c) /\
  bpause_label c = if is_animation_paused c then "Resume"%string
                   else "Pause"%string.
Proof.
  cbv zeta. induction n as [|n IH]; [repeat split|].
  rewrite Nat.iter_succ. destruct IH as (Hpaused & _ & _).
  rewrite Nat.odd_succ, <- Nat.negb_odd, <- Hpaused.
  set (c := Nat.iter (S n) toggle_pause_resume (controls_at_start running)).
  unfold toggle_pause_resume.
  destruct (is_animation_paused c); cbn; repeat split.
Qed.

(** ** The frames of an EMA *)

Lemma ema_phase_draws (active : gmap string series) (frame : nat)
    (names : list string) (i : nat) (name : string) (c0 : nat) :
  names !! i = Some name -> is_Some (active !! name) ->
  let c := length (active_entries active (take i names)) in
  let first := (c0 + loop_frames active c 0)%nat in
  (first <= frame < first + frames_per_profile_ema active)%nat ->
  ema_phase active frame names 0 0 c0
    = Returned (DrawEma i c (frame - first)).
Proof.
  intros Hname Hact c first Hframe.
  replace (ema_phase active frame names 0 0 c0)
    with (ema_phase active frame (take i names ++ name :: drop (S i) names)
            0 0 c0)
    by (rewrite take_drop_middle by exact Hname; reflexivity).
  rewrite ema_phase_app by (fold c; lia).
  fold c. rewrite length_take.
  apply lookup_lt_Some in Hname as Hlt.
  replace (0 + i `min` length names)%nat with i by lia.
  cbn [ema_phase Nat.add]. apply is_active_spec in Hact. rewrite Hact.
  assert (H1 : (frame <? c0 + loop_frames active c 0
                         + frames_per_profile_ema active)%nat = true)
    by (apply Nat.ltb_lt; lia).
  rewrite H1. reflexivity.
Qed.

(** X19. When no profile name is repeated, the EMA of every active entry
    of the list is drawn before the animation ends, on the plot line
    created for it, in [frames_per_profile_ema_target] frames in a row that
    go through the steps 0, 1, ... in order (lines 275-302). *)
Theorem every_active_ema_is_drawn (raw : series) (alphas : gmap string Qc)
    (names : list string) (data : gmap string series) (D i : nat)
    (name : string) :
  profile_emas_data raw alphas names = Ok data -> NoDup names ->
  let active := active_profile_emas_of data in
  names !! i = Some name -> is_Some (active !! name) ->
  exists first p,
    (first + frames_per_profile_ema_target
     <= total_frames_for_animation active D)%nat /\
    profile_lines_plots names active !! p = Some (name, (i mod 5)%nat) /\
    forall f, (f < frames_per_profile_ema_target)%nat ->
      update_animation_multi names active D (first + f) = DrawEma i p f.
Proof.
  intros Hdata Hnodup active Hname Hact.
  pose proof (active_entries_count _ _ _ _ Hdata Hnodup) as Hcount.
  fold active in Hcount.
  pose proof (loop_frames_all active) as Hall.
  set (n := num_active_profiles active) in *.
  set (c := length (active_entries active (take i names))).
  assert (Hsplit : (c < n)%nat).
  { rewrite <- Hcount. rewrite <- (take_drop_middle names i name Hname) at 1.
    unfold active_entries at 1.
    rewrite filter_app, filter_cons_True by exact Hact.
    rewrite length_app. cbn [length].
    fold (active_entries active (take i names)). fold c. lia. }
  assert (Hfpe : frames_per_profile_ema active = 200%nat)
    by (apply frames_per_profile_ema_value; fold n; lia).
  exists (280 + 100 + loop_frames active c 0)%nat, c.
  unfold frames_per_profile_ema_target. split; [|split].
  - unfold total_frames_for_animation, frames_for_actual_content.
    change frames_for_loop_pause with 100%nat.
    unfold frames_raw_data, frames_delay_after_raw,
      frames_delay_after_all_emas.
    rewrite loop_frames_unfold in Hall |- *. fold n in Hall |- *.
    rewrite Hfpe in Hall |- *. lia.
  - apply profile_lines_plots_at; assumption.
  - intros f Hf. unfold update_animation_multi.
    unfold frames_raw_data, frames_delay_after_raw.
    assert (H1 : (280 + 100 + loop_frames active c 0 + f <? 0 + 280)%nat
                 = false) by (apply Nat.ltb_ge; lia).
    assert (H2 : (280 + 100 + loop_frames active c 0 + f <? 0 + 280 + 100)%nat
                 = false) by (apply Nat.ltb_ge; lia).
    rewrite H1. cbv zeta. rewrite H2.
    rewrite (ema_phase_draws active _ names i name (0 + 280 + 100)
               Hname Hact) by (fold c; rewrite Hfpe; lia).
    fold c. do 2 f_equal. lia.
Qed.

Lemma every_active_ema_is_drawn_witness :
  let active : gmap string series :=
    {[ "a"%string := [Some 1; Some (Q2Qc (3 # 2))] ]} in
  exists first p,
    (first + frames_per_profile_ema_target
     <= total_frames_for_animation active 3)%nat /\
    profile_lines_plots ["a"%string] active !! p
      = Some ("a"%string, (0 mod 5)%nat) /\
    forall f, (f < frames_per_profile_ema_target)%nat ->
      update_animation_multi ["a"%string] active 3 (first + f)
        = DrawEma 0 p f.
Proof.
  cbv zeta.
  assert (Hdata : profile_emas_data [Some 1; Some (1 + 1)]
                    {[ "a"%string := 1 / 2 ]} ["a"%string]
                  = Ok {[ "a"%string := [Some 1; Some (Q2Qc (3 # 2))] ]})
    by by_evaluation.
  assert (Hnodup : NoDup ["a"%string])
    by (apply NoDup_singleton).
  assert (Hactive : active_profile_emas_of
            ({[ "a"%string := [Some 1; Some (Q2Qc (3 # 2))] ]}
               : gmap string series)
          = {[ "a"%string := [Some 1; Some (Q2Qc (3 # 2))] ]})
    by by_evaluation.
  pose proof (every_active_ema_is_drawn _ _ _ _ 3 0 "a"%string
                Hdata Hnodup) as H.
  cbv zeta in H. rewrite Hactive in H.
  apply H; [reflexivity|by_evaluation].
Defined.

(** ** A constant load *)

Lemma pass_constant (alpha c : Qc) (weighted : float) (x : series) :
  weighted = None \/ weighted = Some c ->
  Forall (eq (Some c)) x ->
  Forall (eq (Some c)) (Ewm.pass alpha weighted x).
Proof.
  intros Hw Hx. revert weighted Hw.
  induction Hx as [|cur x <- _ IH]; intros weighted Hw; [constructor|].
  cbn [Ewm.pass].
  assert (Hstep : Ewm.step alpha weighted (Some c) = Some c).
  { destruct Hw as [-> | ->]; [reflexivity|]. cbn. f_equal. ring. }
  rewrite Hstep. constructor; [reflexivity|]. apply IH. right. reflexivity.
Qed.

Lemma mean_constant (alpha c : Qc) (x : series) :
  Forall (eq (Some c)) x -> Forall (eq (Some c)) (Ewm.mean alpha x).
Proof.
  intros Hx. rewrite EwmFacts.mean_as_pass.
  apply pass_constant; [left; reflexivity|exact Hx].
Qed.

Lemma of_values_constant (m : nat) (c q : Qc) :
  (0 < m)%nat -> 0 ≤ q ∧ q ≤ Qc_of_Z 100 ->
  Percentile.of_values (replicate m c) q = c.
Proof.
  intros Hm Hq.
  destruct (of_values_within (replicate m c) q c c) as [Hlo Hhi].
  - destruct m; [lia|discriminate].
  - exact Hq.
  - intros v Hv. apply elem_of_replicate in Hv as [-> _].
    split; apply Qcle_refl.
  - apply Qcle_antisym; assumption.
Qed.

Lemma daily_loop_constant (k : nat) (s : series) (D : nat) (c : Qc)
    (values : series) (times : list Qc) :
  Forall (eq (Some c)) s ->
  daily_loop k s (seq 0 D) [] [] = Ok (values, times) ->
  values = Some <$> replicate (length times) c.
Proof.
  intros Hs Hloop. rewrite daily_loop_spec in Hloop. cbv zeta in Hloop.
  injection Hloop as <- <-. cbn [app].
  rewrite fmap_replicate, length_fmap. apply const_fmap.
  intros j day Hday.
  assert (Hkept : bucket s k day <> []).
  { apply list_elem_of_lookup_2 in Hday.
    apply list_elem_of_filter in Hday as [Hkept _]. exact Hkept. }
  assert (Hbucket : bucket s k day
                    = Some <$> replicate (length (bucket s k day)) c).
  { rewrite fmap_replicate. symmetry. apply replicate_as_Forall_2;
      [reflexivity|].
    apply Forall_forall. intros y Hy. apply elem_of_bucket in Hy.
    rewrite Forall_forall in Hs. apply Hs. exact Hy. }
  rewrite Hbucket. unfold Percentile.of_data.
  rewrite PercentileFacts.mapM_id_defined. f_equal.
  apply of_values_constant; [|split; by_evaluation].
  destruct (bucket s k day); [congruence|simpl; lia].
Qed.

Lemma sum_replicate (m : nat) (c : Qc) :
  sum (replicate m c) = Qc_of_nat m * c.
Proof.
  induction m as [|m IH].
  - rewrite PercentileFacts.Qc_of_nat_0. cbn. ring.
  - cbn [replicate]. rewrite FitFacts.sum_cons, IH, FitFacts.Qc_of_nat_S.
    ring.
Qed.

Lemma mean_replicate (m : nat) (c : Qc) :
  (0 < m)%nat -> Fit.mean (replicate m c) = c.
Proof.
  intros Hm. unfold Fit.mean. rewrite sum_replicate, length_replicate.
  pose proof (FitFacts.Qc_of_nat_not_zero m Hm) as Hne.
  field. exact Hne.
Qed.

Lemma sum_zero (l : list Qc) : Forall (eq 0) l -> sum l = 0.
Proof.
  induction 1 as [|a l <- _ IH]; [reflexivity|].
  rewrite FitFacts.sum_cons, IH. ring.
Qed.

(** Against a constant the covariance vanishes. *)
Lemma cov_constant (x : list Qc) (c : Qc) :
  Fit.cov x (replicate (length x) c) = 0.
Proof.
  unfold Fit.cov. cbv zeta.
  rewrite zip_with_replicate_r_eq by reflexivity.
  rewrite sum_zero; [unfold Qcdiv; ring|].
  apply Forall_fmap, Forall_forall. intros a Ha. cbn.
  rewrite mean_replicate by (destruct x; [inversion Ha|simpl; lia]).
  ring.
Qed.

(** X20. A raw series that is constant gives a flat trend at that
    level: whatever the alphas and the names, every daily value is the
    constant, and at every frame of the regression the line drawn, if
    any, has slope 0 and the constant as intercept (lines 50-60, 133-151,
    373-388). *)
Theorem constant_load_has_flat_trend (n : nat) (c : Qc)
    (alphas : gmap string Qc) (names : list string)
    (data : gmap string series) (D k : nat) (values : series)
    (times : list Qc) (r : nat) :
  profile_emas_data (replicate n (Some c)) alphas names = Ok data ->
  daily names D k (active_profile_emas_of data) = Ok (values, times) ->
  values = replicate (length times) (Some c) /\
  regression r values times =
    Ok (if (1 <? Nat.min (length times) (r + 1))%nat
        then Some (0, c) else None).
Proof.
  intros Hdata Hdaily.
  assert (Hcases :
    (values = [] /\ times = []) \/
    exists name s,
      active_profile_emas_of data !! name = Some s /\
      daily_loop k s (seq 0 D) [] [] = Ok (values, times)).
  { unfold daily in Hdaily.
    destruct (0 <? _)%nat; [|left; injection Hdaily as <- <-; auto].
    destruct (last_active_profile_name names _) as [name|];
      [|left; injection Hdaily as <- <-; auto].
    destruct (truthy name); [|left; injection Hdaily as <- <-; auto].
    destruct (active_profile_emas_of data !! name) as [s|] eqn:Hs;
      [|discriminate Hdaily].
    destruct (empty s); [left; injection Hdaily as <- <-; auto|].
    right. exists name, s. auto. }
  destruct Hcases as [[-> ->] | (name & s & Hs & Hloop)].
  - split; reflexivity.
  - destruct (active_ema_is_smoothed _ _ _ _ _ _ Hdata Hs) as [alpha ->].
    pose proof (daily_loop_constant k _ D c values times
                  (mean_constant alpha c _ (Forall_replicate_eq n (Some c)))
                  Hloop) as Hvalues.
    split; [rewrite Hvalues; apply fmap_replicate|].
    rewrite Hvalues in Hloop |- *.
    rewrite (regression_of_daily k _ D r _ times Hloop). cbv zeta.
    set (m := Nat.min (length times) (r + 1)).
    destruct (1 <? m)%nat eqn:Hm; [|reflexivity].
    apply Nat.ltb_lt in Hm.
    rewrite take_replicate.
    replace (Nat.min m (length times)) with m by lia.
    assert (Hlen : length (take m times) = m)
      by (rewrite length_take; lia).
    pose proof (cov_constant (take m times) c) as Hcov.
    rewrite Hlen in Hcov. rewrite Hcov.
    rewrite mean_replicate by lia.
    do 2 f_equal. f_equal; unfold Qcdiv; ring.
Qed.

Lemma constant_load_has_flat_trend_witness :
  regression 1 [Some (1 + 1); Some (1 + 1)] [Q2Qc (1 # 2); Q2Qc (3 # 2)]
  = Ok (Some (0, 1 + 1)).
Proof.
  destruct (constant_load_has_flat_trend 4 (1 + 1)
              {[ "a"%string := 1 / 2 ]} ["a"%string]
              {[ "a"%string := replicate 4 (Some (1 + 1)) ]} 2 2
              [Some (1 + 1); Some (1 + 1)] [Q2Qc (1 # 2); Q2Qc (3 # 2)] 1)
    as [_ H].
  - by_evaluation.
  - by_evaluation.
  - exact H.
Defined.
